(** * The gallery's manifest pipeline: CSV fallback, normalisation, facets, filter

    A shallow embedding of the data-transformation code of
    [src/app/ceramic_marble_nocart.jsx] (the TypeScript component
    [CilinGallery] and the helpers above it), and the properties the
    specification states about it.

    Strings are what they are at run time: sequences of UTF-16 code units.
    The few built-ins of the language the helpers call ([trim], [split],
    [includes], [encodeURIComponent], [decodeURIComponent], ...) are written
    out on that representation; [toLowerCase], whose Unicode case table is
    not part of the program, is a parameter of the functions that call it. *)

From Stdlib Require Import NArith ZArith Ascii String DecimalString.
From stdpp Require Import base option list sorting gmap.

Local Open Scope N_scope.

(** ** Strings as sequences of UTF-16 code units *)

Abbreviation jsstring := (list N).

Definition strEq (a b : jsstring) : bool := bool_decide (a = b).

(** [String.prototype.startsWith], [includes] and [endsWith]. *)
Fixpoint startsWith (s p : jsstring) {struct p} : bool :=
  match p, s with
  | [], _ => true
  | c :: p', d :: s' => (c =? d) && startsWith s' p'
  | _ :: _, [] => false
  end.

Fixpoint includes (s p : jsstring) : bool :=
  startsWith s p ||
  match s with
  | [] => false
  | _ :: s' => includes s' p
  end.

Definition endsWith (s p : jsstring) : bool :=
  (length p <=? length s)%nat && strEq (drop (length s - length p) s) p.

(** [s.split(sep)] for a separator of one code unit, and [parts.join(sep)]. *)
Fixpoint split (sep : N) (s : jsstring) : list jsstring :=
  match s with
  | [] => [[]]
  | c :: s' =>
      if c =? sep then [] :: split sep s'
      else match split sep s' with
           | h :: t => (c :: h) :: t
           | [] => [[c]]
           end
  end.

Fixpoint join (sep : jsstring) (parts : list jsstring) : jsstring :=
  match parts with
  | [] => []
  | [x] => x
  | x :: rest => x ++ sep ++ join sep rest
  end.

(** White space and line terminators, the code units [trim] removes. *)
Definition isWhiteSpace (c : N) : bool :=
  ((9 <=? c) && (c <=? 13)) || (c =? 32) || (c =? 0xA0) || (c =? 0x1680) ||
  ((0x2000 <=? c) && (c <=? 0x200A)) || (c =? 0x2028) || (c =? 0x2029) ||
  (c =? 0x202F) || (c =? 0x205F) || (c =? 0x3000) || (c =? 0xFEFF).

Fixpoint trimStart (s : jsstring) : jsstring :=
  match s with
  | c :: s' => if isWhiteSpace c then trimStart s' else s
  | [] => []
  end.

Definition trimEnd (s : jsstring) : jsstring := rev (trimStart (rev s)).

Definition trim (s : jsstring) : jsstring := trimEnd (trimStart s).

(** Case folding of the Basic Latin letters. A regular expression with the
    [i] flag (and no [u] flag) compares canonicalised code units, and a code
    unit outside ASCII never canonicalises to an ASCII one, so against an
    ASCII pattern written in lower case this is the whole comparison. *)
Definition lowerUnit (c : N) : N :=
  if (65 <=? c) && (c <=? 90) then c + 32 else c.

Definition startsWithI (s p : jsstring) : bool :=
  startsWith (map lowerUnit (take (length p) s)) p.

Definition endsWithI (s p : jsstring) : bool :=
  endsWith (map lowerUnit s) p.

Definition isDigit (c : N) : bool := (48 <=? c) && (c <=? 57).

Definition isAlpha (c : N) : bool :=
  ((65 <=? c) && (c <=? 90)) || ((97 <=? c) && (c <=? 122)).

(** ** UTF-8 and the URI built-ins *)

Definition utf8 (cp : N) : list N :=
  if cp <? 0x80 then [cp]
  else if cp <? 0x800 then [0xC0 + cp / 64; 0x80 + cp mod 64]
  else if cp <? 0x10000 then
    [0xE0 + cp / 4096; 0x80 + (cp / 64) mod 64; 0x80 + cp mod 64]
  else
    [0xF0 + cp / 262144; 0x80 + (cp / 4096) mod 64;
     0x80 + (cp / 64) mod 64; 0x80 + cp mod 64].

Definition utf16 (cp : N) : jsstring :=
  if cp <? 0x10000 then [cp]
  else [0xD800 + (cp - 0x10000) / 1024; 0xDC00 + (cp - 0x10000) mod 1024].

Definition hexDigit (n : N) : N := if n <? 10 then 48 + n else 55 + n.

Definition hexVal (c : N) : option N :=
  if isDigit c then Some (c - 48)
  else if (65 <=? c) && (c <=? 70) then Some (c - 55)
  else if (97 <=? c) && (c <=? 102) then Some (c - 87)
  else None.

(** ["%XX"], with upper-case hexadecimal digits. *)
Definition pct (b : N) : jsstring := [37; hexDigit (b / 16); hexDigit (b mod 16)].

(** The characters [encodeURIComponent] leaves alone:
    letters, digits and [- _ . ! ~ * ' ( )]. *)
Definition uriUnescaped (c : N) : bool :=
  isAlpha c || isDigit c ||
  (c =? 45) || (c =? 95) || (c =? 46) || (c =? 33) || (c =? 126) ||
  (c =? 42) || (c =? 39) || (c =? 40) || (c =? 41).

Definition isLeadSurrogate (c : N) : bool := (0xD800 <=? c) && (c <=? 0xDBFF).
Definition isTrailSurrogate (c : N) : bool := (0xDC00 <=? c) && (c <=? 0xDFFF).

(** [encodeURIComponent]: [None] is the [URIError] thrown on an unpaired
    surrogate. *)
Fixpoint encodeURIComponent (s : jsstring) : option jsstring :=
  match s with
  | [] => Some []
  | c :: rest =>
      if uriUnescaped c then (c ::.) <$> encodeURIComponent rest
      else if isLeadSurrogate c then
        match rest with
        | d :: rest' =>
            if isTrailSurrogate d then
              let cp := 0x10000 + (c - 0xD800) * 1024 + (d - 0xDC00) in
              (flat_map pct (utf8 cp) ++.) <$> encodeURIComponent rest'
            else None
        | [] => None
        end
      else if isTrailSurrogate c then None
      else (flat_map pct (utf8 c) ++.) <$> encodeURIComponent rest
  end.

(** [decodeURIComponent] in two passes over the same input: the escapes
    ["%XX"] become octets, then runs of octets are read as UTF-8. Any
    malformed escape or octet sequence makes the built-in throw, whatever
    its position, so the order of the two checks does not show. *)
Inductive token := Lit (c : N) | Oct (b : N).

Fixpoint pctTokens (s : jsstring) : option (list token) :=
  match s with
  | [] => Some []
  | c :: rest =>
      if c =? 37 then
        match rest with
        | h1 :: h2 :: rest' =>
            match hexVal h1, hexVal h2 with
            | Some a, Some b => (Oct (16 * a + b) ::.) <$> pctTokens rest'
            | _, _ => None
            end
        | _ => None
        end
      else (Lit c ::.) <$> pctTokens rest
  end.

Definition continuation (t : token) : option N :=
  match t with
  | Oct b => if (0x80 <=? b) && (b <? 0xC0) then Some (b - 0x80) else None
  | Lit _ => None
  end.

Fixpoint utf16Tokens (ts : list token) : option jsstring :=
  match ts with
  | [] => Some []
  | Lit c :: rest => (c ::.) <$> utf16Tokens rest
  | Oct b :: rest =>
      if b <? 0x80 then (b ::.) <$> utf16Tokens rest
      else if b <? 0xC0 then None
      else if b <? 0xE0 then
        match rest with
        | t1 :: rest1 =>
            match continuation t1 with
            | Some x1 =>
                let v := (b - 0xC0) * 64 + x1 in
                if v <? 0x80 then None
                else (utf16 v ++.) <$> utf16Tokens rest1
            | None => None
            end
        | _ => None
        end
      else if b <? 0xF0 then
        match rest with
        | t1 :: t2 :: rest2 =>
            match continuation t1, continuation t2 with
            | Some x1, Some x2 =>
                let v := (b - 0xE0) * 4096 + x1 * 64 + x2 in
                if (v <? 0x800) || ((0xD800 <=? v) && (v <=? 0xDFFF)) then None
                else (utf16 v ++.) <$> utf16Tokens rest2
            | _, _ => None
            end
        | _ => None
        end
      else if b <? 0xF8 then
        match rest with
        | t1 :: t2 :: t3 :: rest3 =>
            match continuation t1, continuation t2, continuation t3 with
            | Some x1, Some x2, Some x3 =>
                let v := (b - 0xF0) * 262144 + x1 * 4096 + x2 * 64 + x3 in
                if (v <? 0x10000) || (0x10FFFF <? v) then None
                else (utf16 v ++.) <$> utf16Tokens rest3
            | _, _, _ => None
            end
        | _ => None
        end
      else None
  end.

Definition decodeURIComponent (s : jsstring) : option jsstring :=
  pctTokens s ≫= utf16Tokens.

(** String literals of the program. The source file is UTF-8; [js] reads the
    octets of a literal written here into the code units the program sees. *)
Definition js (lit : string) : jsstring :=
  default [] (utf16Tokens (map (fun a => Oct (N_of_ascii a)) (list_ascii_of_string lit))).
Arguments js : simpl never.


(** ** Values of the program *)

(** A [number]. [Int z] is the integer [z], held exactly: its magnitude is
    at most 2^53 and it is not the negative zero. [Float lexeme] stands for
    the number the runtime reads from any other lexeme (a fraction, an
    exponent form, an integer too large to be exact, the negative zero,
    [NaN]), which is not computed here; how it prints is a parameter of
    the functions that print it. *)
Inductive number := Int (z : Z) | Float (lexeme : jsstring).

(** Truthiness of an optional string: present and not empty. *)
Definition truthy (s : option jsstring) : bool :=
  match s with
  | Some (_ :: _) => true
  | _ => false
  end.

Definition digitsValue (s : jsstring) : Z :=
  foldl (fun acc c => (10 * acc + Z.of_N (c - 48))%Z) 0%Z s.

(** The radix a prefix [0x], [0o] or [0b] announces, in either case. *)
Definition radixOf (c : N) : option Z :=
  if (c =? 120) || (c =? 88) then Some 16%Z
  else if (c =? 111) || (c =? 79) then Some 8%Z
  else if (c =? 98) || (c =? 66) then Some 2%Z
  else None.

Fixpoint radixValue (r acc : Z) (s : jsstring) : option Z :=
  match s with
  | [] => Some acc
  | c :: s' =>
      match hexVal c with
      | Some v => if (Z.of_N v <? r)%Z then radixValue r (r * acc + Z.of_N v)%Z s'
                  else None
      | None => None
      end
  end.

(** The value of a literal in radix 16, 8 or 2: the prefix and at least
    one digit, no sign. *)
Definition nonDecimalValue (t : jsstring) : option Z :=
  match t with
  | c0 :: c1 :: d :: ds =>
      if c0 =? 48 then r ← radixOf c1; radixValue r 0%Z (d :: ds) else None
  | _ => None
  end.

(** A run of decimal digits after an optional sign: whether the sign is
    [-], and the value of the digits. *)
Definition signedDigits (t : jsstring) : option (bool * Z) :=
  let '(negative, u) :=
    match t with
    | c :: u => if c =? 43 then (false, u) else if c =? 45 then (true, u) else (false, t)
    | [] => (false, t)
    end in
  match u with
  | [] => None
  | _ => if forallb isDigit u then Some (negative, digitsValue u) else None
  end.

(** [Number(s)] on a string: white space is trimmed; the empty string is
    0; decimal digits with an optional sign, and digits in radix 16, 8 or 2
    after their prefix, are their value as long as that is exact. *)
Definition StringToNumber (s : jsstring) : number :=
  let t := trim s in
  match t with
  | [] => Int 0
  | _ =>
      match nonDecimalValue t with
      | Some v => if (v <=? 9007199254740992)%Z then Int v else Float t
      | None =>
          match signedDigits t with
          | Some (negative, v) =>
              if (v <=? 9007199254740992)%Z && negb (negative && (v =? 0)%Z)
              then Int (if negative then - v else v) else Float t
          | None => Float t
          end
      end
  end.

(** ** CSV helpers (fallback) *)

Definition stripBOM (text : jsstring) : jsstring :=
  match text with
  | c :: rest => if c =? 0xFEFF then rest else text
  | [] => []
  end.

(** [text.replace(/\r\n/g, "\n")] *)
Fixpoint replaceCRLF (text : jsstring) : jsstring :=
  match text with
  | [] => []
  | c :: rest =>
      match rest with
      | d :: rest' =>
          if (c =? 13) && (d =? 10) then 10 :: replaceCRLF rest'
          else c :: replaceCRLF rest
      | [] => [c]
      end
  end.

(** The loop of [parseCSV]: [cur], [row], [rows] and [inQuotes] are its
    variables, the list is the text from index [i] on; the last case is the
    statement after the loop. *)
Fixpoint scanCSV (text : jsstring) (inQuotes : bool) (cur : jsstring)
    (row : list jsstring) (rows : list (list jsstring)) : list (list jsstring) :=
  match text with
  | [] =>
      if (0 <? length cur)%nat || (0 <? length row)%nat
      then rows ++ [row ++ [cur]] else rows
  | ch :: rest =>
      if inQuotes then
        if ch =? 34 then
          match rest with
          | next :: rest' =>
              if next =? 34 then scanCSV rest' true (cur ++ [34]) row rows
              else scanCSV rest false cur row rows
          | [] => scanCSV rest false cur row rows
          end
        else scanCSV rest true (cur ++ [ch]) row rows
      else
        if ch =? 34 then scanCSV rest true cur row rows
        else if ch =? 44 then scanCSV rest false [] (row ++ [cur]) rows
        else if ch =? 10 then scanCSV rest false [] [] (rows ++ [row ++ [cur]])
        else scanCSV rest false (cur ++ [ch]) row rows
  end.

Definition keepRow (r : list jsstring) : bool :=
  (0 <? length r)%nat &&
  negb ((length r =? 1)%nat && strEq (default [] (r !! 0%nat)) []).

Definition parseCSV (text : jsstring) : list (list jsstring) :=
  List.filter keepRow (scanCSV (replaceCRLF (stripBOM text)) false [] [] []).

(** A row object, as the map of its own properties: header name to cell.
    The program reads it only at the fixed names [id], [rid], [name], ...,
    none of which [Object.prototype] defines, so reading a property is a
    lookup in this map. *)
Abbreviation RowObj := (gmap jsstring jsstring).

(** [obj[h] = v] on a plain object, for a string [v]. The name
    ["__proto__"] is the accessor that [Object.prototype] defines; its
    setter ignores a value that is not an object, so under that name the
    assignment creates no property. Every other name gets an own
    property. *)
Definition PROTO : jsstring := js "__proto__".

Definition setProperty (h v : jsstring) (obj : RowObj) : RowObj :=
  if strEq h PROTO then obj else <[h := v]> obj.

Definition rowToObj (headers : list jsstring) (r : list jsstring) : RowObj :=
  foldl (fun obj '(idx, h) => setProperty h (trim (default [] (r !! idx))) obj)
        ∅ (imap pair headers).

Definition csvToObjects (text : jsstring) : list RowObj :=
  match parseCSV text with
  | [] => []
  | hd :: data => map (rowToObj (map trim hd)) data
  end.

(** ** Small utils *)

Definition isNonEmpty (s : option jsstring) : bool :=
  truthy s && (0 <? length (trim (default [] s)))%nat.

Definition splitTags (tags : option jsstring) : list jsstring :=
  if isNonEmpty tags
  then List.filter (fun t => truthy (Some t)) (map trim (split 44 (default [] tags)))
  else [].

Fixpoint stripLeadingSlashes (p : jsstring) : jsstring :=
  match p with
  | c :: p' => if c =? 47 then stripLeadingSlashes p' else p
  | [] => []
  end.

(** [/^https?:\/\//i.test(p)] *)
Definition hasProto (p : jsstring) : bool :=
  startsWithI p (js "http://") || startsWithI p (js "https://").

(** encode each segment but preserve slashes *)
Definition normalizeUrlPath (p : jsstring) : option jsstring :=
  match p with
  | [] => Some p
  | _ =>
      if hasProto p then Some p
      else
        let leading := if startsWith p [47] then [47] else [] in
        parts ← mapM encodeURIComponent (split 47 (stripLeadingSlashes p));
        Some (leading ++ join [47] parts)
  end.

Section Skip.
(** [String.prototype.toLowerCase] of the runtime. *)
Variable toLowerCase : jsstring -> jsstring.

Definition shouldSkipPath (src : jsstring) : bool :=
  let s := toLowerCase src in
  if includes s (js "/._") then true
  else if endsWith s (js ".ds_store") then true
  else if endsWith s (js ".heic") || endsWith s (js ".aae") then true
  else if endsWith s (js "thumbs.db") then true
  else false.
End Skip.

(** *** [cleanFileName] *)

Definition isSep (c : N) : bool := (c =? 45) || (c =? 95) || (c =? 32).

(** [.replace(/^whatsapp[-_ ]image[-_ ]/i, '')] *)
Definition stripWhatsApp (s : jsstring) : jsstring :=
  match drop 8 s with
  | c1 :: r1 =>
      match drop 5 r1 with
      | c2 :: r2 =>
          if startsWithI s (js "whatsapp") && isSep c1
             && startsWithI r1 (js "image") && isSep c2
          then r2 else s
      | [] => s
      end
  | [] => s
  end.

Fixpoint dropDigits (s : jsstring) : jsstring :=
  match s with
  | c :: s' => if isDigit c then dropDigits s' else s
  | [] => []
  end.

(** A match of [/[-_ ]at[-_ ]\d{6,}/i] at the head of [s]: what follows it.
    The digits are matched greedily and nothing comes after them in the
    pattern, so the match takes every digit there is. *)
Definition atStampHere (s : jsstring) : option jsstring :=
  match s with
  | s1 :: a :: t :: s2 :: rest =>
      if isSep s1 && (lowerUnit a =? 97) && (lowerUnit t =? 116) && isSep s2
         && (6 <=? length rest - length (dropDigits rest))%nat
      then Some (dropDigits rest)
      else None
  | _ => None
  end.

(** [.replace(/[-_ ]at[-_ ]\d{6,}/i, '')]: the leftmost match only. *)
Fixpoint stripAtStamp (s : jsstring) : jsstring :=
  match atStampHere s with
  | Some rest => rest
  | None => match s with
            | c :: s' => c :: stripAtStamp s'
            | [] => []
            end
  end.

Definition MEDIA_EXTENSIONS : list jsstring :=
  [js ".jpg"; js ".jpeg"; js ".png"; js ".webp"; js ".gif";
   js ".mp4"; js ".mov"; js ".mkv"; js ".avi"].

(** [.replace(/\.(jpe?g|png|webp|gif|mp4|mov|mkv|avi)$/i, '')] *)
Definition stripExtension (s : jsstring) : jsstring :=
  match List.find (endsWithI s) MEDIA_EXTENSIONS with
  | Some e => take (length s - length e) s
  | None => s
  end.

(** [.replace(/[-_]+/g, " ")]; [inRun] says the previous code unit was
    part of the run being replaced. *)
Fixpoint collapseRuns (inRun : bool) (s : jsstring) : jsstring :=
  match s with
  | [] => []
  | c :: s' =>
      if (c =? 45) || (c =? 95)
      then (if inRun then collapseRuns true s' else 32 :: collapseRuns true s')
      else c :: collapseRuns false s'
  end.

Definition cleanFileName (s : jsstring) : jsstring :=
  trim (collapseRuns false (stripExtension (stripAtStamp (stripWhatsApp s)))).

(** ** Media items *)

Record MediaItem := {
  id : number;
  rid : option jsstring;
  name : jsstring;
  displayName : option jsstring;
  category : option jsstring;
  type : jsstring;
  src : jsstring;
  original_ext : option jsstring;
  folder : option jsstring;
  tags : option jsstring;
  colorName : option jsstring;
  colorHex : option jsstring;
  year : option jsstring;
  month : option jsstring
}.

(** *** derive category from zip/folder names *)

Definition ZIP_CATEGORIES : list jsstring :=
  [js "مغاسل"; js "رخام و سيراميك"; js "درج وطاولات"; js "خلفيات خشب"].

(** The placeholder category that is never shown. *)
Definition SENTINEL : jsstring := js "منتج".

Definition safeDecode (s : jsstring) : jsstring :=
  default s (decodeURIComponent s).

(** The argument of the source function is an object with the fields
    [folder], [src] and [category]. *)
Definition deriveCategoryFromPath (folder : option jsstring) (src : jsstring)
    (category : option jsstring) : option jsstring :=
  if truthy category && negb (strEq (default [] category) SENTINEL) then category
  else
    let hay := safeDecode (default [] folder ++ [32] ++ src) in
    List.find (fun cat => includes hay cat) ZIP_CATEGORIES.

Definition buildDisplayName (it : MediaItem) : jsstring :=
  let color := trim <$> colorName it in
  let cat := category it in
  if truthy cat && truthy color then default [] cat ++ [32] ++ default [] color
  else if truthy cat then default [] cat
  else if truthy color then default [] color
  else cleanFileName (name it).

(** *** Normalize: derive year/month & category; normalize & encode src *)

(** A match of [/\/(20\d{2})\/(\d{2})\//] at the head of [s]: its two groups. *)
Definition yearMonthHere (s : jsstring) : option (jsstring * jsstring) :=
  match s with
  | s0 :: y1 :: y2 :: y3 :: y4 :: s1 :: m1 :: m2 :: s2 :: _ =>
      if (s0 =? 47) && (y1 =? 50) && (y2 =? 48) && isDigit y3 && isDigit y4
         && (s1 =? 47) && isDigit m1 && isDigit m2 && (s2 =? 47)
      then Some ([y1; y2; y3; y4], [m1; m2]) else None
  | _ => None
  end.

(** [encodedSrc.match(...)]: the leftmost match. *)
Fixpoint matchYearMonth (s : jsstring) : option (jsstring * jsstring) :=
  match yearMonthHere s with
  | Some m => Some m
  | None => match s with
            | _ :: s' => matchYearMonth s'
            | [] => None
            end
  end.

(** [!v || v.startsWith("unknown")] *)
Definition missingOrUnknown (v : option jsstring) : bool :=
  negb (truthy v) || startsWith (default [] v) (js "unknown").

(** The callback of [arr.map] in [normalizeItems]; [None] when
    [encodeURIComponent] throws. *)
Definition normalizeItem (it : MediaItem) : option MediaItem :=
  encodedSrc ← normalizeUrlPath (src it);
  let m := matchYearMonth encodedSrc in
  let year' := match m with
               | Some (y, _) => if missingOrUnknown (year it) then Some y else year it
               | None => year it
               end in
  let month' := match m with
                | Some (_, mo) => if missingOrUnknown (month it) then Some mo else month it
                | None => month it
                end in
  let category' := deriveCategoryFromPath (folder it) encodedSrc (category it) in
  let categorized :=
    {| id := id it; rid := rid it; name := name it; displayName := displayName it;
       category := category'; type := type it; src := encodedSrc;
       original_ext := original_ext it; folder := folder it; tags := tags it;
       colorName := colorName it; colorHex := colorHex it;
       year := year it; month := month it |} in
  Some {| id := id it; rid := rid it; name := name it;
          displayName := Some (buildDisplayName categorized);
          category := category'; type := type it; src := encodedSrc;
          original_ext := original_ext it; folder := folder it; tags := tags it;
          colorName := colorName it; colorHex := colorHex it;
          year := year'; month := month' |}.

Section Normalize.
Variable toLowerCase : jsstring -> jsstring.

Definition keepItem (m : MediaItem) : bool :=
  isNonEmpty (Some (src m)) && negb (shouldSkipPath toLowerCase (src m)).

(** An exception thrown by the callback ends the whole call. *)
Definition normalizeItems (arr : list MediaItem) : option (list MediaItem) :=
  List.filter keepItem <$> mapM normalizeItem arr.
End Normalize.

(** ** Loading *)

(** The callback of [rows.map] in [load]; [idx] is the index of the row. *)
Definition rowToItem (o : RowObj) (idx : nat) : MediaItem :=
  {| id := match o !! js "id" with
           | Some s => StringToNumber s
           | None => Int (Z.of_nat idx + 1)
           end;
     rid := if truthy (o !! js "rid") then o !! js "rid" else None;
     name := default [] (o !! js "name");
     displayName := o !! js "displayName";
     category := if truthy (o !! js "category") then o !! js "category" else None;
     type := if bool_decide (o !! js "type" = Some (js "video"))
             then js "video" else js "image";
     src := default [] (o !! js "src");
     original_ext := o !! js "original_ext";
     folder := o !! js "folder";
     tags := o !! js "tags";
     colorName := o !! js "colorName";
     colorHex := o !! js "colorHex";
     year := o !! js "year";
     month := o !! js "month" |}.

Definition itemsFromCSV (text : jsstring) : list MediaItem :=
  imap (fun idx o => rowToItem o idx) (csvToObjects text).

(** What a [fetch] gave: nothing usable (a network failure, a status that
    is not ok), or the body. *)
Inductive fetched (A : Type) := Unavailable | Body (body : A).
Arguments Unavailable {A}.
Arguments Body {A} body.

Section Load.
Variable toLowerCase : jsstring -> jsstring.

(** [load], as a function of the two responses; the result is the
    argument of [setItems], [None] when [normalizeItems] throws. *)
Definition load (manifest : fetched (list MediaItem)) (csv : fetched jsstring)
    : option (list MediaItem) :=
  let data := match manifest with Body d => d | Unavailable => [] end in
  let data := match data with
              | [] => match csv with
                      | Body text => itemsFromCSV text
                      | Unavailable => data
                      end
              | _ => data
              end in
  normalizeItems toLowerCase data.
End Load.

(** ** Facets *)

(** [set.add(x)] on a [Set], kept in insertion order as [Array.from] reads it. *)
Definition setAdd (x : jsstring) (s : list jsstring) : list jsstring :=
  if bool_decide (x ∈ s) then s else s ++ [x].

(** [CAT_ORDER.indexOf(x)] *)
Fixpoint indexOfFrom (i : Z) (x : jsstring) (l : list jsstring) : Z :=
  match l with
  | [] => (-1)%Z
  | y :: l' => if strEq y x then i else indexOfFrom (i + 1)%Z x l'
  end.

Definition indexOf (l : list jsstring) (x : jsstring) : Z := indexOfFrom 0 x l.

(** [Array.prototype.sort] with a consistent comparator: the sort is stable,
    which fixes its result; insertion sort computes it. *)
Fixpoint insertBy {A} (cmp : A -> A -> Z) (x : A) (l : list A) : list A :=
  match l with
  | [] => [x]
  | y :: l' => if (cmp x y <=? 0)%Z then x :: l else y :: insertBy cmp x l'
  end.

Fixpoint sortBy {A} (cmp : A -> A -> Z) (l : list A) : list A :=
  match l with
  | [] => []
  | x :: l' => insertBy cmp x (sortBy cmp l')
  end.

(** The default comparator of [sort()]: strings by code units. *)
Fixpoint compareStrings (a b : jsstring) : Z :=
  match a, b with
  | [], [] => 0%Z
  | [], _ :: _ => (-1)%Z
  | _ :: _, [] => 1%Z
  | c :: a', d :: b' =>
      if c <? d then (-1)%Z else if d <? c then 1%Z else compareStrings a' b'
  end.

Definition uniqueTags (items : list MediaItem) : list jsstring :=
  foldl (fun acc it =>
           foldl (fun acc t => if negb (strEq t SENTINEL) then setAdd t acc else acc)
                 acc (splitTags (tags it)))
        [] items.

Definition uniqueColors (items : list MediaItem) : list jsstring :=
  foldl (fun acc it =>
           if isNonEmpty (colorName it) then setAdd (default [] (colorName it)) acc
           else acc)
        [] items.

Definition uniqueCategories (items : list MediaItem) : list jsstring :=
  foldl (fun acc it =>
           let cat := category it in
           if isNonEmpty cat && negb (strEq (default [] cat) SENTINEL)
           then setAdd (default [] cat) acc else acc)
        [] items.

Record Facets := {
  facetTags : list jsstring;
  facetColors : list jsstring;
  facetCategories : list jsstring
}.

Definition unique (items : list MediaItem) : Facets :=
  let CAT_ORDER := ZIP_CATEGORIES in
  let cats := sortBy (fun a b => (indexOf CAT_ORDER a - indexOf CAT_ORDER b)%Z)
                     (uniqueCategories items) in
  {| facetTags := sortBy compareStrings (uniqueTags items);
     facetColors := sortBy compareStrings (uniqueColors items);
     facetCategories := cats |}.

(** ** Filter *)

Section Filter.
(** How the runtime prints a number that is not one of the integers
    [Int] holds. *)
Variable floatToString : jsstring -> jsstring.

Definition numberToString (n : number) : jsstring :=
  match n with
  | Int z => js (NilZero.string_of_int (Z.to_int z))
  | Float lexeme => floatToString lexeme
  end.

Definition itemMatches (qq : jsstring) (activeTags activeCategories : list jsstring)
    (it : MediaItem) : bool :=
  let titleText := match rid it with
                   | Some r => r
                   | None => numberToString (id it)
                   end in
  let extra := default [] (category it) ++ [32] ++ default [] (colorName it)
               ++ [32] ++ name it ++ [32] ++ default [] (displayName it) in
  let nameHit := negb (truthy (Some qq)) || includes (titleText ++ [32] ++ extra) qq in
  let tagHit :=
    match activeTags with
    | [] => true
    | _ => existsb (fun t => existsb (strEq t) (splitTags (tags it))
                             || bool_decide (colorName it = Some t)) activeTags
    end in
  let catHit :=
    match activeCategories with
    | [] => true
    | _ => existsb (strEq (default [] (category it))) activeCategories
    end in
  nameHit && tagHit && catHit.

Definition filtered (items : list MediaItem) (q : jsstring)
    (activeTags activeCategories : list jsstring) : list MediaItem :=
  let qq := trim q in
  List.filter (itemMatches qq activeTags activeCategories) items.
End Filter.

(** ** Links, chips, the featured picture *)

Definition PHONE_RAW : jsstring := js "966530162210".

(** [PHONE_RAW.replace(/\D/g, '')] *)
Definition WHATSAPP_PHONE : jsstring := List.filter isDigit PHONE_RAW.

(** [waLink]; [None] when [encodeURIComponent] throws. *)
Definition waLink (msg : jsstring) : option jsstring :=
  text ← encodeURIComponent msg;
  Some (js "https://wa.me/" ++ WHATSAPP_PHONE ++ js "?text=" ++ text).

(** The state update of [toggle], [toggleTag] and [toggleCategory]:
    [prev.includes(value) ? prev.filter(x => x !== value) : [...prev, value]] *)
Definition toggle (prev : list jsstring) (value : jsstring) : list jsstring :=
  if existsb (strEq value) prev
  then List.filter (fun x => negb (strEq x value)) prev
  else prev ++ [value].

Record Featured := {
  featuredId : number;
  featuredName : jsstring;
  featuredSrc : jsstring;
  featuredColorName : option jsstring
}.

Definition getFeatured (items : list MediaItem) : option Featured :=
  match List.find (fun x => strEq (type x) (js "image") && truthy (Some (src x))) items with
  | Some it =>
      Some {| featuredId := id it;
              featuredName := if truthy (displayName it)
                              then default [] (displayName it)
                              else cleanFileName (name it);
              featuredSrc := src it;
              featuredColorName := colorName it |}
  | None => None
  end.

(** ** The first component, [CeramicMarble_NoCart] *)

Module NoCart.

(** [(it.tags || '').split(",").map(t => t.trim()).filter(Boolean)] *)
Definition tagsArr (tags : option jsstring) : list jsstring :=
  List.filter (fun t => truthy (Some t)) (map trim (split 44 (default [] tags))).

(** The sets [folders] and [tags] that [unique] builds. *)
Definition folderSet (items : list MediaItem) : list jsstring :=
  foldl (fun acc it => if truthy (folder it) then setAdd (default [] (folder it)) acc
                       else acc)
        [] items.

Definition tagSet (items : list MediaItem) : list jsstring :=
  foldl (fun acc it =>
           if truthy (tags it)
           then foldl (fun acc t => setAdd t acc) acc (tagsArr (tags it))
           else acc)
        [] items.

(** [items.filter(it => it.folder === f).length] *)
Definition countFolder (items : list MediaItem) (f : jsstring) : nat :=
  length (List.filter (fun it => bool_decide (folder it = Some f)) items).

Record Facets := {
  facetFolders : list jsstring;
  facetTags : list jsstring;
  countsByFolder : gmap jsstring nat
}.

Definition unique (items : list MediaItem) : Facets :=
  {| facetFolders := sortBy compareStrings (folderSet items);
     facetTags := sortBy compareStrings (tagSet items);
     countsByFolder :=
       foldl (fun obj f => <[f := countFolder items f]> obj) ∅ (folderSet items) |}.

Definition itemMatches (qq : jsstring) (activeFolders activeTags : list jsstring)
    (it : MediaItem) : bool :=
  let nameHit := negb (truthy (Some qq)) || includes (name it) qq
                 || includes (default [] (folder it)) qq
                 || includes (default [] (tags it)) qq in
  let folderHit :=
    match activeFolders with
    | [] => true
    | _ => match folder it with
           | Some f => existsb (strEq f) activeFolders
           | None => false
           end
    end in
  let tagHit :=
    match activeTags with
    | [] => true
    | _ => existsb (fun t => existsb (strEq t) (tagsArr (tags it))) activeTags
    end in
  nameHit && folderHit && tagHit.

Definition filtered (items : list MediaItem) (q : jsstring)
    (activeFolders activeTags : list jsstring) : list MediaItem :=
  let qq := trim q in
  List.filter (itemMatches qq activeFolders activeTags) items.

(** [new Set(arr)], then [delete] or [add], then [Array.from]. *)
Definition toggle (arr : list jsstring) (value : jsstring) : list jsstring :=
  let s := foldl (fun acc x => setAdd x acc) [] arr in
  if bool_decide (value ∈ s)
  then List.filter (fun x => negb (strEq x value)) s
  else s ++ [value].

End NoCart.

(** ** Writing a manifest as CSV *)

(** Modelled from the spec: the column names of the fallback manifest in
    their documented order (the program reads the columns by name and has
    no such list). *)
Definition HEADERS : list jsstring :=
  [js "id"; js "rid"; js "name"; js "displayName"; js "category"; js "type";
   js "src"; js "original_ext"; js "folder"; js "tags"; js "colorName";
   js "colorHex"; js "year"; js "month"].

(** Modelled from the spec: the program only reads CSV, the writer of the
    fallback manifest is not part of it. What follows is the RFC 4180 form
    the specification's round-trip property refers to. These are the code
    units that force a field into double quotes: comma, double quote,
    carriage return, line feed. *)
Definition isSpecial (c : N) : bool :=
  (c =? 44) || (c =? 34) || (c =? 13) || (c =? 10).

(** Modelled from the spec: a field needs quotes when it holds one of them. *)
Definition needsQuotes (field : jsstring) : bool := existsb isSpecial field.

(** Modelled from the spec: inside quotes every double quote is doubled. *)
Definition escapeQuotes (field : jsstring) : jsstring :=
  flat_map (fun c => if c =? 34 then [34; 34] else [c]) field.

(** Modelled from the spec: a field as it is written. *)
Definition csvField (field : jsstring) : jsstring :=
  if needsQuotes field then [34] ++ escapeQuotes field ++ [34] else field.

(** Modelled from the spec: a record is its fields joined by commas and
    ended by a line break. *)
Definition csvLine (eol : jsstring) (record : list jsstring) : jsstring :=
  join [44] (map csvField record) ++ eol.

(** Modelled from the spec: the header line, then one line per record. *)
Definition toCSV (eol : jsstring) (records : list (list jsstring)) : jsstring :=
  concat (map (csvLine eol) (HEADERS :: records)).

(** The two line breaks in use. *)
Definition LF : jsstring := [10].
Definition CRLF : jsstring := [13; 10].

(** ** Definitions used to state the properties *)

(** [toLowerCase] on the Basic Latin letters, the part of the Unicode table
    that matters for a string of ASCII code units. *)
Definition toLowerCaseLatin (s : jsstring) : jsstring := map lowerUnit s.

(** The last column whose header is [h], counting from [i]. *)
Fixpoint lastIndexFrom (i : nat) (h : jsstring) (headers : list jsstring) : option nat :=
  match headers with
  | [] => None
  | x :: rest =>
      match lastIndexFrom (S i) h rest with
      | Some j => Some j
      | None => if strEq x h then Some i else None
      end
  end.

(** The trimmed cell of row [r] in the column named [h], if there is such
    a column. *)
Definition cell (headers : list jsstring) (r : list jsstring) (h : jsstring)
    : option jsstring :=
  (fun j => trim (default [] (r !! j))) <$> lastIndexFrom 0 h headers.

(** An item with nothing but a name and a source. *)
Definition bareItem (n : number) (nm s : jsstring) : MediaItem :=
  {| id := n; rid := None; name := nm; displayName := None; category := None;
     type := js "image"; src := s; original_ext := None; folder := None;
     tags := None; colorName := None; colorHex := None;
     year := None; month := None |}.

Definition withCategory (c : jsstring) (it : MediaItem) : MediaItem :=
  {| id := id it; rid := rid it; name := name it; displayName := displayName it;
     category := Some c; type := type it; src := src it;
     original_ext := original_ext it; folder := folder it; tags := tags it;
     colorName := colorName it; colorHex := colorHex it;
     year := year it; month := month it |}.

Definition withFolder (f : jsstring) (it : MediaItem) : MediaItem :=
  {| id := id it; rid := rid it; name := name it; displayName := displayName it;
     category := category it; type := type it; src := src it;
     original_ext := original_ext it; folder := Some f; tags := tags it;
     colorName := colorName it; colorHex := colorHex it;
     year := year it; month := month it |}.

Definition withDate (y m : option jsstring) (it : MediaItem) : MediaItem :=
  {| id := id it; rid := rid it; name := name it; displayName := displayName it;
     category := category it; type := type it; src := src it;
     original_ext := original_ext it; folder := folder it; tags := tags it;
     colorName := colorName it; colorHex := colorHex it;
     year := y; month := m |}.

Definition withDisplay (d : jsstring) (it : MediaItem) : MediaItem :=
  {| id := id it; rid := rid it; name := name it; displayName := Some d;
     category := category it; type := type it; src := src it;
     original_ext := original_ext it; folder := folder it; tags := tags it;
     colorName := colorName it; colorHex := colorHex it;
     year := year it; month := month it |}.

(** A date field that calls for inference: absent, empty, or beginning
    with "unknown". *)
Definition absentOrUnknown (v : option jsstring) : Prop :=
  v = None ∨ v = Some [] ∨ ∃ rest, v = Some (js "unknown" ++ rest).

(** After the prefix [pre], the string [s] goes on with a segment pair
    [/20NN/NN/]: a slash, the four digits [y] of which the first two are 20,
    a slash, the two digits [m], a slash. *)
Definition dateAt (s pre y m : jsstring) : Prop :=
  ∃ d1 d2 d3 d4 post,
    s = pre ++ [47; 50; 48; d1; d2; 47; d3; d4; 47] ++ post
    ∧ isDigit d1 = true ∧ isDigit d2 = true ∧ isDigit d3 = true ∧ isDigit d4 = true
    ∧ y = [50; 48; d1; d2] ∧ m = [d3; d4].

(** [y] and [m] are the digits of the leftmost such pair of [s]. *)
Definition firstDate (s y m : jsstring) : Prop :=
  ∃ pre, dateAt s pre y m
         ∧ ∀ pre' y' m', dateAt s pre' y' m' -> (length pre <= length pre')%nat.

(** A source that encoding leaves alone: empty, an absolute http(s) URL, or
    made only of slashes and of the characters [encodeURIComponent] does
    not escape. *)
Definition plainPathChar (c : N) : bool := uriUnescaped c || (c =? 47).

Definition stableSrc (p : jsstring) : bool :=
  match p with
  | [] => true
  | _ => hasProto p || forallb plainPathChar p
  end.

(** What [normalizeUrlPath] makes of a path of such characters: the leading
    slashes become one. *)
Definition oneLeadingSlash (p : jsstring) : jsstring :=
  (if startsWith p [47] then [47] else []) ++ stripLeadingSlashes p.

(** A record of the manifest, in header order, with only its id, name and
    source filled in. *)
Definition bareRecord (i nm s : jsstring) : list jsstring :=
  [i; []; nm; []; []; js "image"; s; []; []; []; []; []; []; []].

(** [a] stands before [b] in [l]. *)
Definition before (l : list jsstring) (a b : jsstring) : Prop :=
  ∃ i j : nat, (i < j)%nat ∧ l !! i = Some a ∧ l !! j = Some b.

(** * Properties *)

(** ** The model at work *)

Example js_ascii : js "a,b" = [97; 44; 98].
Proof. reflexivity. Qed.

Example js_arabic : js "مغاسل" = [0x645; 0x63A; 0x627; 0x633; 0x644].
Proof. vm_compute. reflexivity. Qed.

Example encode_segment :
  encodeURIComponent (js "a b&ç") = Some (js "a%20b%26%C3%A7").
Proof. vm_compute. reflexivity. Qed.

Example encode_unpaired_surrogate : encodeURIComponent [97; 0xD83D] = None.
Proof. vm_compute. reflexivity. Qed.

Example decode_label :
  decodeURIComponent (js "%D8%B1%D8%AE%D8%A7%D9%85") = Some (js "رخام").
Proof. vm_compute. reflexivity. Qed.

Example decode_malformed : decodeURIComponent (js "100%") = None.
Proof. vm_compute. reflexivity. Qed.

Example normalizeUrlPath_local :
  normalizeUrlPath (js "//media/رخام و سيراميك/a b.jpg")
  = Some (js "/media/%D8%B1%D8%AE%D8%A7%D9%85%20%D9%88%20%D8%B3%D9%8A%D8%B1%D8%A7%D9%85%D9%8A%D9%83/a%20b.jpg").
Proof. vm_compute. reflexivity. Qed.

Example normalizeUrlPath_external :
  normalizeUrlPath (js "HTTPS://cdn.example.com/a b.jpg")
  = Some (js "HTTPS://cdn.example.com/a b.jpg").
Proof. vm_compute. reflexivity. Qed.

Example cleanFileName_whatsapp :
  cleanFileName (js "WhatsApp Image 2021-03-04 at 10203040.jpeg") = js "2021 03 04".
Proof. vm_compute. reflexivity. Qed.

Example cleanFileName_camera :
  cleanFileName (js "IMG_2021__a-b.PNG") = js "IMG 2021 a b".
Proof. vm_compute. reflexivity. Qed.

(** A quoted field with a comma, a line break and a doubled quote; [34] is
    the double quote, [10] the line feed, [13] the carriage return. *)
Example StringToNumber_forms :
  map StringToNumber
      [js "7"; js ""; js " 12 "; js "-5"; js "+7"; js "0x10"; js "0b101"; js "0o17";
       js "007"; js "9007199254740992"]
  = [Int 7; Int 0; Int 12; Int (-5); Int 7; Int 16; Int 5; Int 15; Int 7;
     Int 9007199254740992]
  ∧ map StringToNumber [js "1.5"; js "1e3"; js "-0"; js "0x"; js "abc"; js "9007199254740993"]
    = [Float (js "1.5"); Float (js "1e3"); Float (js "-0"); Float (js "0x");
       Float (js "abc"); Float (js "9007199254740993")].
Proof. split; vm_compute; reflexivity. Qed.

Example parseCSV_quoted :
  parseCSV (js "name,note" ++ [13; 10]
            ++ js "a," ++ [34] ++ js "x, " ++ [34; 34] ++ js "y" ++ [34; 34; 10]
            ++ js "z" ++ [34; 10; 10] ++ js "b,")
  = [[js "name"; js "note"];
     [js "a"; js "x, " ++ [34] ++ js "y" ++ [34; 10] ++ js "z"];
     [js "b"; []]].
Proof. vm_compute. reflexivity. Qed.

(** Junk files are dropped, the picture is kept. *)
Example normalizeItems_junk :
  map src <$>
    normalizeItems toLowerCaseLatin
      [bareItem (Int 1) (js ".DS_Store") (js "/m/.DS_Store");
       bareItem (Int 2) (js "._hidden") (js "/m/._hidden");
       bareItem (Int 3) (js "p.HEIC") (js "/m/p.HEIC");
       bareItem (Int 4) (js "p.jpg") (js "/m/p.jpg")]
  = Some [js "/m/p.jpg"].
Proof. vm_compute. reflexivity. Qed.

(** The category facet follows the reference list, not the insertion order. *)
Example unique_reference_order :
  facetCategories
    (unique [withCategory (js "درج وطاولات") (bareItem (Int 1) (js "a.jpg") (js "/a.jpg"));
             withCategory (js "مغاسل") (bareItem (Int 2) (js "b.jpg") (js "/b.jpg"))])
  = [js "مغاسل"; js "درج وطاولات"].
Proof. vm_compute. reflexivity. Qed.

(** ** Filter *)

Section FilterFacts.
Variable floatToString : jsstring -> jsstring.

Lemma itemMatches_nothing_selected it :
  itemMatches floatToString [] [] [] it = true.
Proof. reflexivity. Qed.

(** C9. With a query that is empty or only white space, no selected tag
    and no selected category, the filter returns the item list itself:
    every item, in the same order. *)
Theorem filtered_empty_selection (items : list MediaItem) (q : jsstring) :
  trim q = [] -> filtered floatToString items q [] [] = items.
Proof.
  intros Hq. unfold filtered. rewrite Hq.
  induction items as [|it items IH]; simpl; [done|].
  by rewrite IH.
Qed.
End FilterFacts.

Lemma filtered_empty_selection_witness :
  trim (js "  ") = [] ∧
  filtered (fun l => l)
    [bareItem (Int 1) (js "a.jpg") (js "/a.jpg"); bareItem (Int 2) (js "b.jpg") (js "/b.jpg")]
    (js "  ") [] []
  = [bareItem (Int 1) (js "a.jpg") (js "/a.jpg"); bareItem (Int 2) (js "b.jpg") (js "/b.jpg")].
Proof.
  split; [reflexivity|].
  apply (filtered_empty_selection (fun l => l)). reflexivity.
Defined.

(** ** Row objects *)

Lemma rowToObj_lookup_from (r : list jsstring) (headers : list jsstring) :
  ∀ (i : nat) (acc : gmap jsstring jsstring) (h : jsstring),
    h ≠ PROTO ->
    foldl (fun obj '(idx, k) => setProperty k (trim (default [] (r !! idx))) obj)
          acc (imap (fun k x => ((i + k)%nat, x)) headers) !! h
    = match lastIndexFrom i h headers with
      | Some j => Some (trim (default [] (r !! j)))
      | None => acc !! h
      end.
Proof.
  induction headers as [|x rest IH]; intros i acc h Hh; simpl; [done|].
  rewrite (imap_ext _ (fun k y => ((S i + k)%nat, y))).
  2:{ intros k y _. simpl. f_equal. lia. }
  rewrite IH by done. destruct (lastIndexFrom (S i) h rest) as [j|]; [done|].
  rewrite Nat.add_0_r. unfold setProperty, strEq.
  destruct (decide (x = h)) as [->|Hx].
  - rewrite (bool_decide_eq_true_2 (h = h)) by done.
    rewrite bool_decide_eq_false_2 by done. by rewrite lookup_insert_eq.
  - rewrite (bool_decide_eq_false_2 (x = h)) by done.
    case_bool_decide; [done|]. by rewrite lookup_insert_ne.
Qed.

Lemma rowToObj_no_proto_from (r : list jsstring) (headers : list jsstring) :
  ∀ (i : nat) (acc : gmap jsstring jsstring),
    acc !! PROTO = None ->
    foldl (fun obj '(idx, k) => setProperty k (trim (default [] (r !! idx))) obj)
          acc (imap (fun k x => ((i + k)%nat, x)) headers) !! PROTO = None.
Proof.
  induction headers as [|x rest IH]; intros i acc Hacc; simpl; [done|].
  rewrite (imap_ext _ (fun k y => ((S i + k)%nat, y))).
  2:{ intros k y _. simpl. f_equal. lia. }
  apply IH. unfold setProperty, strEq. case_bool_decide as Hx; [done|].
  by rewrite lookup_insert_ne.
Qed.

(** A row object holds, under each header name other than ["__proto__"],
    the trimmed cell of the last column of that name, and nothing under
    ["__proto__"]. *)
Lemma rowToObj_lookup (headers r : list jsstring) (h : jsstring) :
  rowToObj headers r !! h = if strEq h PROTO then None else cell headers r h.
Proof.
  unfold rowToObj, cell.
  rewrite (imap_ext pair (fun k x => ((0 + k)%nat, x))) by done.
  unfold strEq. case_bool_decide as Hh.
  - subst h. by apply rowToObj_no_proto_from.
  - rewrite rowToObj_lookup_from by done.
    by destruct (lastIndexFrom 0 h headers).
Qed.

Lemma rowToObj_lookup_name (headers r : list jsstring) (h : jsstring) :
  h ≠ PROTO -> rowToObj headers r !! h = cell headers r h.
Proof.
  intros Hh. rewrite rowToObj_lookup. unfold strEq.
  by rewrite bool_decide_eq_false_2.
Qed.

Lemma itemsFromCSV_lookup (text : jsstring) (hd : list jsstring)
    (data : list (list jsstring)) (idx : nat) (r : list jsstring) :
  parseCSV text = hd :: data -> data !! idx = Some r ->
  itemsFromCSV text !! idx = Some (rowToItem (rowToObj (map trim hd) r) idx).
Proof.
  intros Hp Hr. unfold itemsFromCSV, csvToObjects. rewrite Hp.
  rewrite list_lookup_imap, list_lookup_fmap, Hr. done.
Qed.

(** ** Loading from the CSV fallback *)

Lemma rowToItem_type (o : RowObj) (idx : nat) :
  (type (rowToItem o idx) = js "video" ∨ type (rowToItem o idx) = js "image")
  ∧ (type (rowToItem o idx) = js "video" ↔ o !! js "type" = Some (js "video"))
  ∧ (type (rowToItem o idx) = js "image" ↔ o !! js "type" ≠ Some (js "video")).
Proof.
  cbn [rowToItem type]. case_bool_decide as Hc.
  - split; [by left|]. split; [done|]. split; [discriminate|done].
  - split; [by right|]. split; [split; [discriminate|done]|done].
Qed.

Lemma itemsFromCSV_no_rows (text : jsstring) :
  parseCSV text = [] -> itemsFromCSV text = [].
Proof. intros Hp. unfold itemsFromCSV, csvToObjects. by rewrite Hp. Qed.

Lemma itemsFromCSV_length (text : jsstring) (hd : list jsstring)
    (data : list (list jsstring)) :
  parseCSV text = hd :: data -> length (itemsFromCSV text) = length data.
Proof.
  intros Hp. unfold itemsFromCSV, csvToObjects.
  by rewrite Hp, length_imap, length_map.
Qed.

(** C10. The item list of the fallback manifest has one item per data
    row, in order (and none when the text has no row at all). The item of
    a row has type "video" exactly when the trimmed cell of the row's
    [type] column is "video", and type "image" otherwise (also when the
    cell is empty or unrecognised, or the column is absent). So every item
    of the list has type "video" or "image": no third value comes out of
    the CSV path. *)
Theorem csv_item_type (text : jsstring) :
  Forall (fun it => type it = js "video" ∨ type it = js "image") (itemsFromCSV text)
  ∧ (parseCSV text = [] -> itemsFromCSV text = [])
  ∧ ∀ (hd : list jsstring) (data : list (list jsstring)),
      parseCSV text = hd :: data ->
      Forall2 (fun r it =>
                 (type it = js "video"
                  ↔ cell (map trim hd) r (js "type") = Some (js "video"))
                 ∧ (type it = js "image"
                    ↔ cell (map trim hd) r (js "type") ≠ Some (js "video")))
              data (itemsFromCSV text).
Proof.
  split; [|split].
  - apply Forall_forall. intros it Hit.
    apply list_elem_of_lookup in Hit as [idx Hit].
    unfold itemsFromCSV in Hit. rewrite list_lookup_imap in Hit.
    destruct (csvToObjects text !! idx) as [o|]; [|done].
    injection Hit as <-. apply rowToItem_type.
  - apply itemsFromCSV_no_rows.
  - intros hd data Hp. apply Forall2_same_length_lookup_2.
    + symmetry. by apply (itemsFromCSV_length _ hd).
    + intros idx r it Hr Hit.
      rewrite (itemsFromCSV_lookup _ _ _ _ _ Hp Hr) in Hit. injection Hit as <-.
      rewrite <- (rowToObj_lookup_name (map trim hd) r (js "type"))
        by (intros H; vm_compute in H; discriminate H).
      apply rowToItem_type.
Qed.

Lemma csv_item_type_witness :
  Forall2 (fun r it =>
             (type it = js "video"
              ↔ cell (map trim (map js ["id"; "type"; "src"]%string)) r (js "type")
                = Some (js "video"))
             ∧ (type it = js "image"
                ↔ cell (map trim (map js ["id"; "type"; "src"]%string)) r (js "type")
                  ≠ Some (js "video")))
          [map js ["1"; " video "; "/a.mp4"]%string; map js ["2"; "VIDEO"; "/b.mp4"]%string]
          (itemsFromCSV (js "id,type,src
1, video ,/a.mp4
2,VIDEO,/b.mp4
")).
Proof.
  apply (proj2 (proj2 (csv_item_type (js "id,type,src
1, video ,/a.mp4
2,VIDEO,/b.mp4
")))).
  vm_compute. reflexivity.
Defined.

(** The id of an item of the fallback manifest: the number read from the
    trimmed [id] cell when the manifest has an [id] column, and the
    position of the row, counted from 1, only when it has none. *)
Lemma csv_item_id (text : jsstring) (hd : list jsstring)
    (data : list (list jsstring)) (idx : nat) (r : list jsstring) :
  parseCSV text = hd :: data -> data !! idx = Some r ->
  ∃ it, itemsFromCSV text !! idx = Some it ∧
        id it = match cell (map trim hd) r (js "id") with
                | Some s => StringToNumber s
                | None => Int (Z.of_nat idx + 1)
                end.
Proof.
  intros Hp Hr. eexists. split; [by apply (itemsFromCSV_lookup _ _ _ _ _ Hp Hr)|].
  cbn [rowToItem id].
  by rewrite rowToObj_lookup_name by (intros H; vm_compute in H; discriminate H).
Qed.

(** With no usable primary manifest, [load] normalises the items of the
    CSV text. *)
Lemma load_csv_fallback (toLowerCase : jsstring -> jsstring) (text : jsstring) :
  load toLowerCase Unavailable (Body text)
  = normalizeItems toLowerCase (itemsFromCSV text)
  ∧ load toLowerCase (Body []) (Body text)
    = normalizeItems toLowerCase (itemsFromCSV text).
Proof. split; reflexivity. Qed.

(** C5. A row whose [id] cell is empty gets the id 0, not its position:
    the second data row of this manifest has an empty id and becomes item 0;
    the row position is used only when the manifest has no [id] column. *)
Theorem csv_empty_id_is_zero :
  map id (itemsFromCSV (js "id,src
7,/a.jpg
,/b.jpg
")) = [Int 7; Int 0]
  ∧ map id (itemsFromCSV (js "src
/a.jpg
/b.jpg
")) = [Int 1; Int 2].
Proof. split; vm_compute; reflexivity. Qed.

(** ** Category inference *)

Lemma strEq_true (a b : jsstring) : strEq a b = true ↔ a = b.
Proof. unfold strEq. apply bool_decide_eq_true. Qed.

Lemma strEq_false (a b : jsstring) : strEq a b = false ↔ a ≠ b.
Proof. unfold strEq. apply bool_decide_eq_false. Qed.

Lemma sentinel_not_a_zip_category : SENTINEL ∉ ZIP_CATEGORIES.
Proof.
  intros H. apply list_elem_of_In in H. vm_compute in H.
  repeat (destruct H as [H|H]; [discriminate H|]). exact H.
Qed.

Lemma deriveCategoryFromPath_cases (f : option jsstring) (s : jsstring)
    (c : option jsstring) (r : jsstring) :
  deriveCategoryFromPath f s c = Some r ->
  (c = Some r ∧ r ≠ [] ∧ r ≠ SENTINEL) ∨ r ∈ ZIP_CATEGORIES.
Proof.
  unfold deriveCategoryFromPath.
  destruct (truthy c && negb (strEq (default [] c) SENTINEL)) eqn:Hc.
  - intros ->. left. apply andb_true_iff in Hc as [Ht Hs].
    apply negb_true_iff, strEq_false in Hs. simpl in Ht, Hs.
    split; [done|]. split; [|done]. intros ->. discriminate Ht.
  - intros Hf. right. apply find_some in Hf as [Hin _].
    by apply list_elem_of_In.
Qed.

Lemma deriveCategoryFromPath_not_sentinel (f : option jsstring) (s : jsstring)
    (c : option jsstring) :
  deriveCategoryFromPath f s c ≠ Some SENTINEL.
Proof.
  intros H. apply deriveCategoryFromPath_cases in H as [(_ & _ & H)|H]; [done|].
  by apply sentinel_not_a_zip_category.
Qed.

Lemma normalizeItem_category (it it' : MediaItem) :
  normalizeItem it = Some it' ->
  ∃ e, normalizeUrlPath (src it) = Some e ∧ src it' = e ∧
       category it' = deriveCategoryFromPath (folder it) e (category it).
Proof.
  unfold normalizeItem. destruct (normalizeUrlPath (src it)) as [e|]; simpl; [|done].
  intros [= <-]. by exists e.
Qed.

(** C7. Whatever the input list, no item that [normalizeItems] returns
    carries the placeholder category "منتج": its category is absent or
    another value. *)
Theorem normalizeItems_no_sentinel (toLowerCase : jsstring -> jsstring)
    (arr out : list MediaItem) :
  normalizeItems toLowerCase arr = Some out ->
  Forall (fun it => category it = None ∨
                    ∃ c, category it = Some c ∧ c ≠ SENTINEL) out.
Proof.
  unfold normalizeItems. destruct (mapM normalizeItem arr) as [mapped|] eqn:Hm; [|done].
  simpl. intros [= <-]. apply mapM_Some_1 in Hm.
  induction Hm as [|it it' arr mapped Hit _ IH]; simpl; [constructor|].
  destruct (keepItem toLowerCase it'); [|exact IH].
  constructor; [|exact IH].
  apply normalizeItem_category in Hit as (e & _ & _ & Hc).
  destruct (category it') as [c|] eqn:Hcat; [right|by left].
  exists c. split; [done|]. intros ->.
  by eapply deriveCategoryFromPath_not_sentinel.
Qed.

Lemma normalizeItems_no_sentinel_witness :
  normalizeItems toLowerCaseLatin
    [withCategory SENTINEL (bareItem (Int 1) (js "a.jpg") (js "/مغاسل/a.jpg"));
     withCategory SENTINEL (bareItem (Int 2) (js "b.jpg") (js "/b.jpg"))]
  = Some [withDisplay (js "مغاسل")
            (withCategory (js "مغاسل")
               (bareItem (Int 1) (js "a.jpg")
                  (js "/%D9%85%D8%BA%D8%A7%D8%B3%D9%84/a.jpg")));
          withDisplay (js "b")
            (bareItem (Int 2) (js "b.jpg") (js "/b.jpg"))]
  ∧ Forall (fun it => category it = None ∨
                      ∃ c, category it = Some c ∧ c ≠ SENTINEL)
      [withDisplay (js "مغاسل")
         (withCategory (js "مغاسل")
            (bareItem (Int 1) (js "a.jpg")
               (js "/%D9%85%D8%BA%D8%A7%D8%B3%D9%84/a.jpg")));
       withDisplay (js "b")
         (bareItem (Int 2) (js "b.jpg") (js "/b.jpg"))].
Proof.
  assert (H : normalizeItems toLowerCaseLatin
    [withCategory SENTINEL (bareItem (Int 1) (js "a.jpg") (js "/مغاسل/a.jpg"));
     withCategory SENTINEL (bareItem (Int 2) (js "b.jpg") (js "/b.jpg"))]
  = Some [withDisplay (js "مغاسل")
            (withCategory (js "مغاسل")
               (bareItem (Int 1) (js "a.jpg")
                  (js "/%D9%85%D8%BA%D8%A7%D8%B3%D9%84/a.jpg")));
          withDisplay (js "b")
            (bareItem (Int 2) (js "b.jpg") (js "/b.jpg"))])
    by (vm_compute; reflexivity).
  split; [exact H|].
  exact (normalizeItems_no_sentinel toLowerCaseLatin _ _ H).
Defined.

(** ** Display names *)

Lemma truthy_Some (s : jsstring) : truthy (Some s) = true ↔ s ≠ [].
Proof. destruct s; simpl; split; (done || discriminate). Qed.

(** C8 (as the code has it). The display name is the category, a space and
    the trimmed colour name when both are non-empty; else the category;
    else the trimmed colour name; else the cleaned file name. It is empty
    exactly when the category, the trimmed colour name and the cleaned file
    name are all empty (an absent field counting as empty). *)
Theorem buildDisplayName_priority (it : MediaItem) :
  let cat := default [] (category it) in
  let color := trim (default [] (colorName it)) in
  buildDisplayName it =
    match cat, color with
    | _ :: _, _ :: _ => cat ++ [32] ++ color
    | _ :: _, [] => cat
    | [], _ :: _ => color
    | [], [] => cleanFileName (name it)
    end
  ∧ (buildDisplayName it = [] ↔
       cat = [] ∧ color = [] ∧ cleanFileName (name it) = []).
Proof.
  unfold buildDisplayName.
  destruct (category it) as [[|c cat]|], (colorName it) as [col|]; simpl;
    try destruct (trim col) as [|k color]; simpl;
    (split; [reflexivity|]); split; intros H; try done; try (by destruct H as (?&?&?)).
Qed.

(** C8, as stated, fails: a name made of separators or of an extension
    alone is not empty, yet it cleans to the empty display name. *)
Lemma displayName_empty_for_nonempty_name :
  ¬ (∀ it : MediaItem,
       truthy (category it) = true ∨ truthy (colorName it) = true ∨ name it ≠ [] ->
       buildDisplayName it ≠ []).
Proof.
  intros H. apply (H (bareItem (Int 1) (js "_.jpg") (js "/x.jpg"))).
  - right; right. discriminate.
  - vm_compute. reflexivity.
Qed.

(** ** Year and month *)

Lemma yearMonthHere_shape (s y m : jsstring) :
  yearMonthHere s = Some (y, m) ->
  ∃ d1 d2 d3 d4 post,
    s = [47] ++ y ++ [47] ++ m ++ [47] ++ post ∧
    y = [50; 48; d1; d2] ∧ m = [d3; d4] ∧
    isDigit d1 = true ∧ isDigit d2 = true ∧ isDigit d3 = true ∧ isDigit d4 = true.
Proof.
  unfold yearMonthHere.
  destruct s as [|s0 [|y1 [|y2 [|y3 [|y4 [|s1 [|m1 [|m2 [|s2 post]]]]]]]]]; try done.
  match goal with |- context [if ?b then _ else _] => destruct b eqn:Hc end; [|done].
  intros Heq. injection Heq as <- <-.
  repeat (apply andb_true_iff in Hc as [Hc ?]).
  repeat match goal with H : (_ =? _) = true |- _ => apply N.eqb_eq in H; subst end.
  by exists y3, y4, m1, m2, post.
Qed.

Lemma matchYearMonth_cons (c : N) (s : jsstring) :
  matchYearMonth (c :: s) =
  match yearMonthHere (c :: s) with
  | Some m => Some m
  | None => matchYearMonth s
  end.
Proof. reflexivity. Qed.

(** A match that [matchYearMonth] returns is a segment pair [/20NN/NN/] of
    the string, and no such pair starts further left. *)
Lemma matchYearMonth_sound (s y m : jsstring) :
  matchYearMonth s = Some (y, m) ->
  ∃ pre d1 d2 d3 d4 post,
    s = pre ++ [47] ++ y ++ [47] ++ m ++ [47] ++ post ∧
    y = [50; 48; d1; d2] ∧ m = [d3; d4] ∧
    isDigit d1 = true ∧ isDigit d2 = true ∧ isDigit d3 = true ∧ isDigit d4 = true ∧
    ∀ k : nat, (k < length pre)%nat -> yearMonthHere (drop k s) = None.
Proof.
  induction s as [|c s IH].
  - done.
  - rewrite matchYearMonth_cons.
    destruct (yearMonthHere (c :: s)) as [[y' m']|] eqn:Hh.
    + intros Heq. injection Heq as -> ->. apply yearMonthHere_shape in Hh
        as (d1 & d2 & d3 & d4 & post & Hs & Hy & Hm & H1 & H2 & H3 & H4).
      exists [], d1, d2, d3, d4, post. simpl. repeat split; try done.
      intros k Hk. simpl in Hk. lia.
    + intros Hm. destruct (IH Hm)
        as (pre & d1 & d2 & d3 & d4 & post & Hs & Hy & Hmo & H1 & H2 & H3 & H4 & Hleft).
      exists (c :: pre), d1, d2, d3, d4, post. rewrite Hs at 1.
      repeat split; try done.
      intros [|k] Hk; [exact Hh|]. simpl in *. apply Hleft. lia.
Qed.

(** Where the string has a segment pair [/20NN/NN/], there is a match. *)
Lemma matchYearMonth_complete (pre post : jsstring) (d1 d2 d3 d4 : N) :
  isDigit d1 = true -> isDigit d2 = true -> isDigit d3 = true -> isDigit d4 = true ->
  is_Some (matchYearMonth (pre ++ [47; 50; 48; d1; d2; 47; d3; d4; 47] ++ post)).
Proof.
  intros H1 H2 H3 H4. induction pre as [|c pre IH].
  - simpl. rewrite H1, H2, H3, H4. simpl. by eexists.
  - change ((c :: pre) ++ ?x) with (c :: (pre ++ x)).
    remember (pre ++ _) as s. rewrite matchYearMonth_cons.
    destruct (yearMonthHere (c :: s)) as [[y m]|]; [by eexists|exact IH].
Qed.

Lemma startsWith_spec (s p : jsstring) :
  startsWith s p = true ↔ ∃ rest, s = p ++ rest.
Proof.
  revert s. induction p as [|c p IH]; intros s; simpl.
  - split; [intros _; by exists s|done].
  - destruct s as [|d s]; simpl; [split; [done|by intros [? ?]]|].
    rewrite andb_true_iff, N.eqb_eq, IH. split.
    + intros [-> [rest ->]]. by exists rest.
    + intros [rest [= -> ->]]. split; [done|by exists rest].
Qed.

(** The condition of the inference: the field is absent, empty, or begins
    with "unknown". *)
Lemma missingOrUnknown_spec (v : option jsstring) :
  missingOrUnknown v = true ↔
  v = None ∨ v = Some [] ∨ ∃ rest, v = Some (js "unknown" ++ rest).
Proof.
  unfold missingOrUnknown. rewrite orb_true_iff, negb_true_iff, startsWith_spec.
  destruct v as [[|c s]|]; simpl; split; intros H.
  - by right; left.
  - by left.
  - destruct H as [H|[rest H]]; [done|]. right; right. exists rest. by rewrite H.
  - destruct H as [H|[H|[rest H]]]; [done|done|]. right. exists rest. congruence.
  - by left.
  - by left.
Qed.

Lemma absentOrUnknown_spec (v : option jsstring) :
  missingOrUnknown v = true ↔ absentOrUnknown v.
Proof. apply missingOrUnknown_spec. Qed.

Lemma yearMonthHere_at (d1 d2 d3 d4 : N) (post : jsstring) :
  isDigit d1 = true -> isDigit d2 = true -> isDigit d3 = true -> isDigit d4 = true ->
  yearMonthHere ([47; 50; 48; d1; d2; 47; d3; d4; 47] ++ post)
  = Some ([50; 48; d1; d2], [d3; d4]).
Proof. intros H1 H2 H3 H4. cbn. by rewrite H1, H2, H3, H4. Qed.

(** What [matchYearMonth] returns is the leftmost segment pair, and it
    returns nothing only when the string has none. *)
Lemma matchYearMonth_first (s : jsstring) :
  match matchYearMonth s with
  | Some (y, m) => firstDate s y m ∧ ∀ y' m', firstDate s y' m' -> y' = y ∧ m' = m
  | None => ∀ pre y m, ¬ dateAt s pre y m
  end.
Proof.
  destruct (matchYearMonth s) as [[y m]|] eqn:Hm.
  - apply matchYearMonth_sound in Hm
      as (pre & d1 & d2 & d3 & d4 & post & Hs & -> & -> & H1 & H2 & H3 & H4 & Hleft).
    assert (Hat : dateAt s pre [50; 48; d1; d2] [d3; d4])
      by (by exists d1, d2, d3, d4, post).
    assert (Hmin : ∀ pre' y' m', dateAt s pre' y' m' -> (length pre <= length pre')%nat).
    { intros pre' y' m' (c1 & c2 & c3 & c4 & post' & Hs' & G1 & G2 & G3 & G4 & _).
      destruct (decide (length pre' < length pre)%nat) as [Hlt|]; [|lia].
      specialize (Hleft _ Hlt). rewrite Hs' in Hleft.
      rewrite drop_app_length in Hleft.
      by rewrite (yearMonthHere_at _ _ _ _ _ G1 G2 G3 G4) in Hleft. }
    split; [by exists pre|].
    intros y' m' (pre' & Hat' & Hmin').
    pose proof (Hmin _ _ _ Hat') as Hle. pose proof (Hmin' _ _ _ Hat) as Hge.
    destruct Hat' as (c1 & c2 & c3 & c4 & post' & Hs' & _ & _ & _ & _ & -> & ->).
    rewrite Hs in Hs'. change ([47] ++ ?a ++ [47] ++ ?b ++ [47] ++ ?c) with
      (47 :: a ++ 47 :: b ++ 47 :: c) in Hs'. cbn [app] in Hs'.
    apply app_inj_1 in Hs' as [_ Heq]; [|lia]. by injection Heq as -> -> -> -> _.
  - intros pre y m (d1 & d2 & d3 & d4 & post & -> & H1 & H2 & H3 & H4 & _).
    destruct (matchYearMonth_complete pre post d1 d2 d3 d4 H1 H2 H3 H4) as [x Hx].
    congruence.
Qed.

(** C3 (as the code has it). Each of the two fields has its own test. When
    the encoded [src] holds a segment pair [/20NN/NN/], the leftmost one
    counts: the year becomes its four digits if the year is absent, empty
    or begins with "unknown", and is kept otherwise; the month becomes its
    two digits if the month is absent, empty or begins with "unknown", and
    is kept otherwise. When the encoded [src] holds no such pair, both are
    kept. *)
Theorem normalizeItem_year_month (it : MediaItem) (e : jsstring) :
  normalizeUrlPath (src it) = Some e ->
  ∃ it', normalizeItem it = Some it' ∧ src it' = e ∧
    ((∃ pre y m, dateAt e pre y m) -> ∃ y m, firstDate e y m) ∧
    (∀ y m, firstDate e y m ->
       (absentOrUnknown (year it) -> year it' = Some y) ∧
       (¬ absentOrUnknown (year it) -> year it' = year it) ∧
       (absentOrUnknown (month it) -> month it' = Some m) ∧
       (¬ absentOrUnknown (month it) -> month it' = month it)) ∧
    ((∀ pre y m, ¬ dateAt e pre y m) -> year it' = year it ∧ month it' = month it).
Proof.
  intros He. unfold normalizeItem. rewrite He. cbn [mbind option_bind].
  eexists. split; [reflexivity|]. cbn [src year month]. split; [reflexivity|].
  pose proof (matchYearMonth_first e) as Hfirst.
  destruct (matchYearMonth e) as [[y m]|].
  - destruct Hfirst as [Hfirst Huniq]. split; [intros _; by exists y, m|]. split.
    + intros y' m' [-> ->]%Huniq.
      destruct (missingOrUnknown (year it)) eqn:Hy, (missingOrUnknown (month it)) eqn:Hmo;
        repeat split; try done;
        intros H; apply absentOrUnknown_spec in H || (exfalso; apply H, absentOrUnknown_spec);
        congruence.
    + intros Hnone. destruct Hfirst as (pre & Hat & _). by destruct (Hnone pre y m).
  - split; [intros (pre & y & m & Hat); by destruct (Hfirst pre y m)|]. split; [|done].
    intros y m (pre & Hat & _). by destruct (Hfirst pre y m).
Qed.

Lemma normalizeItem_year_month_witness :
  ∃ it', normalizeItem (withDate (Some (js "unknown")) (Some (js "05"))
                          (bareItem (Int 1) (js "a.jpg") (js "/media/2021/03/a.jpg")))
         = Some it'
    ∧ src it' = js "/media/2021/03/a.jpg" ∧
    ((∃ pre y m, dateAt (js "/media/2021/03/a.jpg") pre y m) ->
     ∃ y m, firstDate (js "/media/2021/03/a.jpg") y m) ∧
    (∀ y m, firstDate (js "/media/2021/03/a.jpg") y m ->
       (absentOrUnknown (Some (js "unknown")) -> year it' = Some y) ∧
       (¬ absentOrUnknown (Some (js "unknown")) -> year it' = Some (js "unknown")) ∧
       (absentOrUnknown (Some (js "05")) -> month it' = Some m) ∧
       (¬ absentOrUnknown (Some (js "05")) -> month it' = Some (js "05"))) ∧
    ((∀ pre y m, ¬ dateAt (js "/media/2021/03/a.jpg") pre y m) ->
     year it' = Some (js "unknown") ∧ month it' = Some (js "05")).
Proof.
  apply (normalizeItem_year_month
           (withDate (Some (js "unknown")) (Some (js "05"))
              (bareItem (Int 1) (js "a.jpg") (js "/media/2021/03/a.jpg")))).
  vm_compute. reflexivity.
Defined.

(** C3, as stated, fails both ways: with the year unknown and a month
    given, the month is kept although the year is inferred; with a year
    given and no month, the month is inferred although the year is kept. *)
Lemma month_not_gated_on_year :
  ¬ (∀ (it it' : MediaItem) (e y m : jsstring),
       normalizeUrlPath (src it) = Some e ->
       matchYearMonth e = Some (y, m) ->
       normalizeItem it = Some it' ->
       (missingOrUnknown (year it) = true -> year it' = Some y ∧ month it' = Some m) ∧
       (missingOrUnknown (year it) = false -> year it' = year it ∧ month it' = month it)).
Proof.
  intros H.
  pose (it := withDate (Some (js "unknown")) (Some (js "05"))
                (bareItem (Int 1) (js "a.jpg") (js "/media/2021/03/a.jpg"))).
  destruct (normalizeItem it) as [it'|] eqn:Hn; [|vm_compute in Hn; discriminate Hn].
  destruct (H it it' (js "/media/2021/03/a.jpg") (js "2021") (js "03")) as [Hy _].
  - vm_compute. reflexivity.
  - vm_compute. reflexivity.
  - exact Hn.
  - destruct Hy as [_ Hm]; [vm_compute; reflexivity|].
    vm_compute in Hn. injection Hn as <-. vm_compute in Hm. discriminate Hm.
Qed.

Example month_kept_when_year_unknown :
  (fun it' => (year it', month it')) <$>
    normalizeItem (withDate (Some (js "unknown")) (Some (js "05"))
                     (bareItem (Int 1) (js "a.jpg") (js "/media/2021/03/a.jpg")))
  = Some (Some (js "2021"), Some (js "05")).
Proof. vm_compute. reflexivity. Qed.

Example month_inferred_when_year_given :
  (fun it' => (year it', month it')) <$>
    normalizeItem (withDate (Some (js "2019")) None
                     (bareItem (Int 1) (js "a.jpg") (js "/media/2021/03/a.jpg")))
  = Some (Some (js "2019"), Some (js "03")).
Proof. vm_compute. reflexivity. Qed.

(** ** The category facet *)

Section SortByKey.
Context {A : Type} (key : A -> Z).

Lemma insertBy_elem_of (x y : A) (l : list A) :
  y ∈ insertBy (fun a b => (key a - key b)%Z) x l ↔ y = x ∨ y ∈ l.
Proof.
  induction l as [|z l IH]; simpl.
  - rewrite list_elem_of_singleton, elem_of_nil. tauto.
  - destruct (key x - key z <=? 0)%Z; rewrite !elem_of_cons; [done|].
    rewrite IH. tauto.
Qed.

Lemma sortBy_elem_of (y : A) (l : list A) :
  y ∈ sortBy (fun a b => (key a - key b)%Z) l ↔ y ∈ l.
Proof.
  induction l as [|x l IH]; simpl; [done|].
  by rewrite insertBy_elem_of, elem_of_cons, IH.
Qed.

Lemma insertBy_sorted (x : A) (l : list A) :
  StronglySorted (fun a b => (key a <= key b)%Z) l ->
  StronglySorted (fun a b => (key a <= key b)%Z)
                 (insertBy (fun a b => (key a - key b)%Z) x l).
Proof.
  induction l as [|z l IH]; intros Hs; simpl.
  - repeat constructor.
  - apply StronglySorted_cons in Hs as [Hz Hs].
    destruct (key x - key z <=? 0)%Z eqn:Hc.
    + apply Z.leb_le in Hc.
      apply StronglySorted_cons. split.
      * constructor; [lia|].
        eapply Forall_impl; [exact Hz|]. intros; simpl in *; lia.
      * by apply StronglySorted_cons.
    + apply Z.leb_gt in Hc.
      apply StronglySorted_cons. split; [|by apply IH].
      apply Forall_forall. intros y Hy. apply insertBy_elem_of in Hy as [->|Hy].
      * lia.
      * by eapply Forall_forall in Hz.
Qed.

Lemma sortBy_sorted (l : list A) :
  StronglySorted (fun a b => (key a <= key b)%Z)
                 (sortBy (fun a b => (key a - key b)%Z) l).
Proof.
  induction l as [|x l IH]; simpl; [constructor|]. by apply insertBy_sorted.
Qed.

Lemma StronglySorted_le_lookup (l : list A) (i j : nat) (a b : A) :
  StronglySorted (fun a b => (key a <= key b)%Z) l ->
  l !! i = Some a -> l !! j = Some b -> (i < j)%nat ->
  (key a <= key b)%Z.
Proof.
  intros Hs. revert i j. induction Hs as [|x l Hs IH Hx]; intros i j Ha Hb Hij.
  - done.
  - destruct j as [|j]; [lia|]. destruct i as [|i]; simpl in *.
    + injection Ha as ->. eapply Forall_forall in Hx; [exact Hx|].
      by eapply list_elem_of_lookup_2.
    + eapply IH; [exact Ha|exact Hb|lia].
Qed.

(** In a list sorted with the comparator [key a - key b], an element
    with a smaller key stands before one with a larger key. *)
Lemma sortBy_before (l : list A) (a b : A) :
  a ∈ l -> b ∈ l -> (key a < key b)%Z ->
  ∃ i j : nat, (i < j)%nat ∧
    sortBy (fun a b => (key a - key b)%Z) l !! i = Some a ∧
    sortBy (fun a b => (key a - key b)%Z) l !! j = Some b.
Proof.
  intros Ha Hb Hab.
  apply sortBy_elem_of, list_elem_of_lookup in Ha as [i Hi].
  apply sortBy_elem_of, list_elem_of_lookup in Hb as [j Hj].
  exists i, j. split; [|done].
  destruct (decide (i < j)%nat) as [|Hge]; [done|].
  destruct (decide (i = j)) as [->|Hne].
  - rewrite Hi in Hj. injection Hj as ->. lia.
  - pose proof (StronglySorted_le_lookup _ j i b a (sortBy_sorted l) Hj Hi). lia.
Qed.
End SortByKey.

Lemma indexOfFrom_not_in (i : Z) (x : jsstring) (l : list jsstring) :
  x ∉ l -> indexOfFrom i x l = (-1)%Z.
Proof.
  revert i. induction l as [|y l IH]; intros i Hx; simpl; [done|].
  apply not_elem_of_cons in Hx as [Hne Hx].
  destruct (strEq y x) eqn:He; [apply strEq_true in He; congruence|]. by apply IH.
Qed.

Lemma indexOfFrom_lookup (i : Z) (x : jsstring) (l : list jsstring) (k : nat) :
  NoDup l -> l !! k = Some x -> indexOfFrom i x l = (i + Z.of_nat k)%Z.
Proof.
  revert i k. induction l as [|y l IH]; intros i k Hnd Hk; [done|].
  apply NoDup_cons in Hnd as [Hy Hnd]. simpl.
  destruct k as [|k]; simpl in Hk.
  - injection Hk as ->. destruct (strEq x x) eqn:He; [lia|].
    by apply strEq_false in He.
  - destruct (strEq y x) eqn:He.
    + apply strEq_true in He as ->. by apply list_elem_of_lookup_2 in Hk.
    + rewrite (IH (i + 1)%Z k Hnd Hk). lia.
Qed.

Lemma ZIP_CATEGORIES_NoDup : NoDup ZIP_CATEGORIES.
Proof. apply (bool_decide_unpack (NoDup ZIP_CATEGORIES)). vm_compute. exact I. Qed.

(** C4 (as the code has it). In the category facet, the categories of the
    reference list stand in the order of the reference list, and every
    category that is not in the reference list stands before all those
    that are: [indexOf] gives it the key -1. *)
Theorem facet_categories_order (items : list MediaItem) (a b : jsstring) :
  a ∈ facetCategories (unique items) ->
  b ∈ facetCategories (unique items) ->
  ((∃ i j : nat, ZIP_CATEGORIES !! i = Some a ∧ ZIP_CATEGORIES !! j = Some b ∧ (i < j)%nat)
   ∨ ((a ∉ ZIP_CATEGORIES) ∧ b ∈ ZIP_CATEGORIES)) ->
  before (facetCategories (unique items)) a b.
Proof.
  unfold unique, before. cbn [facetCategories].
  intros Ha Hb Hab.
  apply sortBy_elem_of in Ha. apply sortBy_elem_of in Hb.
  apply (sortBy_before (indexOf ZIP_CATEGORIES)); [done|done|].
  unfold indexOf. destruct Hab as [(i & j & Hi & Hj & Hij)|[Hna Hb']].
  - rewrite (indexOfFrom_lookup 0 a _ i ZIP_CATEGORIES_NoDup Hi).
    rewrite (indexOfFrom_lookup 0 b _ j ZIP_CATEGORIES_NoDup Hj). lia.
  - rewrite (indexOfFrom_not_in 0 a _ Hna).
    apply list_elem_of_lookup in Hb' as [j Hj].
    rewrite (indexOfFrom_lookup 0 b _ j ZIP_CATEGORIES_NoDup Hj). lia.
Qed.

Lemma facet_categories_order_witness :
  before (facetCategories
            (unique [withCategory (js "درج وطاولات") (bareItem (Int 1) (js "a.jpg") (js "/a.jpg"));
                     withCategory (js "مغاسل") (bareItem (Int 2) (js "b.jpg") (js "/b.jpg"))]))
         (js "مغاسل") (js "درج وطاولات").
Proof.
  apply facet_categories_order.
  - apply (bool_decide_unpack _). vm_compute. exact I.
  - apply (bool_decide_unpack _). vm_compute. exact I.
  - left. exists 0%nat, 2%nat. split; [reflexivity|]. split; [reflexivity|lia].
Defined.

(** C4, as stated, fails: a category outside the reference list is placed
    first, not last. *)
Lemma unlisted_category_not_after_listed :
  ¬ (∀ (items : list MediaItem) (a b : jsstring),
       a ∈ facetCategories (unique items) ->
       b ∈ facetCategories (unique items) ->
       a ∈ ZIP_CATEGORIES -> b ∉ ZIP_CATEGORIES ->
       before (facetCategories (unique items)) a b).
Proof.
  intros H.
  destruct (H [withCategory (js "مغاسل") (bareItem (Int 1) (js "a.jpg") (js "/a.jpg"));
               withCategory (js "أبواب") (bareItem (Int 2) (js "b.jpg") (js "/b.jpg"))]
              (js "مغاسل") (js "أبواب")) as (i & j & Hij & Hi & Hj).
  - apply (bool_decide_unpack _). vm_compute. exact I.
  - apply (bool_decide_unpack _). vm_compute. exact I.
  - apply (bool_decide_unpack _). vm_compute. exact I.
  - apply (bool_decide_unpack _). vm_compute. exact I.
  - vm_compute in Hi, Hj.
    destruct i as [|[|i]]; [discriminate Hi| |discriminate Hi].
    destruct j as [|[|j]]; [lia|lia|discriminate Hj].
Qed.

Example unlisted_category_sorts_first :
  facetCategories
    (unique [withCategory (js "مغاسل") (bareItem (Int 1) (js "a.jpg") (js "/a.jpg"));
             withCategory (js "أبواب") (bareItem (Int 2) (js "b.jpg") (js "/b.jpg"))])
  = [js "أبواب"; js "مغاسل"].
Proof. vm_compute. reflexivity. Qed.

(** ** Substrings *)

Lemma includes_spec (s p : jsstring) :
  includes s p = true ↔ ∃ pre post, s = pre ++ p ++ post.
Proof.
  induction s as [|c s IH].
  - simpl. rewrite orb_false_r, startsWith_spec. split.
    + intros [rest ->]. by exists [], rest.
    + intros (pre & post & H). symmetry in H.
      apply app_eq_nil in H as [-> H]. exists post. done.
  - cbn [includes]. rewrite orb_true_iff, startsWith_spec, IH. split.
    + intros [[rest ->]|(pre & post & ->)].
      * by exists [], rest.
      * by exists (c :: pre), post.
    + intros (pre & post & H). destruct pre as [|d pre]; simpl in H.
      * left. by exists post.
      * right. injection H as -> ->. by exists pre, post.
Qed.

(** A needle without the code unit [x] cannot straddle an [x]. *)
Lemma includes_across (a d p : jsstring) (x : N) :
  p ≠ [] -> x ∉ p ->
  includes (a ++ [x] ++ d) p = true ->
  includes a p = true ∨ includes d p = true.
Proof.
  intros Hp Hx. rewrite !includes_spec. intros (pre & post & H).
  apply app_eq_inv in H as [(l & -> & H)|(l & -> & H)].
  - left. apply app_eq_inv in H as [(l' & -> & H)|(l' & -> & H)].
    + destruct l' as [|y l'].
      * exists pre, []. by rewrite !app_nil_r.
      * injection H as <- _. exfalso. apply Hx. apply elem_of_app. right. by left.
    + by exists pre, l'.
  - destruct l as [|y l]; simpl in H.
    + destruct p as [|y p]; [done|]. injection H as <- _. exfalso. apply Hx. by left.
    + right. injection H as _ ->. by exists l, post.
Qed.

(** ** Decoding *)

Lemma pctTokens_literal_prefix (a s : jsstring) :
  37 ∉ a -> pctTokens (a ++ s) = (map Lit a ++.) <$> pctTokens s.
Proof.
  induction a as [|c a IH]; intros Ha.
  - simpl. by destruct (pctTokens s).
  - apply not_elem_of_cons in Ha as [Hc Ha]. cbn [app pctTokens].
    destruct (c =? 37) eqn:He; [apply N.eqb_eq in He; congruence|].
    rewrite (IH Ha). by destruct (pctTokens s).
Qed.

Lemma utf16Tokens_literal_prefix (a : jsstring) (ts : list token) :
  utf16Tokens (map Lit a ++ ts) = (a ++.) <$> utf16Tokens ts.
Proof.
  induction a as [|c a IH].
  - simpl. by destruct (utf16Tokens ts).
  - cbn [map app utf16Tokens]. rewrite IH. by destruct (utf16Tokens ts).
Qed.

(** Text without a percent sign in front of the haystack is decoded to
    itself, whether the rest decodes or not. *)
Lemma safeDecode_literal_prefix (a s : jsstring) :
  37 ∉ a -> safeDecode (a ++ s) = a ++ safeDecode s.
Proof.
  intros Ha. unfold safeDecode, decodeURIComponent.
  rewrite (pctTokens_literal_prefix _ _ Ha).
  destruct (pctTokens s) as [ts|]; simpl; [|done].
  rewrite utf16Tokens_literal_prefix. by destruct (utf16Tokens ts).
Qed.

(** C6 (as the code has it). An item whose folder is "رخام و سيراميك/sub",
    spelled with the Arabic letter ر that the category label begins with,
    that has no category of its own (absent, empty or the placeholder), and
    whose encoded source does not decode to text containing the label
    "مغاسل", which is looked for first, is given the category
    "رخام و سيراميك". *)
Theorem marble_folder_gives_category (it : MediaItem) (e : jsstring) :
  folder it = Some (js "رخام و سيراميك/sub") ->
  category it = None ∨ category it = Some [] ∨ category it = Some SENTINEL ->
  normalizeUrlPath (src it) = Some e ->
  includes (safeDecode e) (js "مغاسل") = false ->
  ∃ it', normalizeItem it = Some it' ∧ category it' = Some (js "رخام و سيراميك").
Proof.
  intros Hf Hc He Hinc. unfold normalizeItem. rewrite He.
  eexists. split; [reflexivity|]. cbn [category].
  unfold deriveCategoryFromPath. rewrite Hf.
  assert (truthy (category it) && negb (strEq (default [] (category it)) SENTINEL) = false)
    as -> by (destruct Hc as [->|[->| ->]]; vm_compute; reflexivity).
  cbn [default from_option Datatypes.id].
  set (F := js "رخام و سيراميك/sub").
  rewrite (app_assoc F [32] e).
  rewrite safeDecode_literal_prefix
    by (apply (bool_decide_unpack _); vm_compute; exact I).
  rewrite <- app_assoc.
  unfold ZIP_CATEGORIES. cbn [List.find].
  destruct (includes (F ++ [32] ++ safeDecode e) (js "مغاسل")) eqn:H1.
  - exfalso. apply includes_across in H1 as [H1|H1].
    + vm_compute in H1. discriminate H1.
    + congruence.
    + vm_compute. discriminate.
    + apply (bool_decide_unpack _). vm_compute. exact I.
  - assert (includes (F ++ [32] ++ safeDecode e) (js "رخام و سيراميك") = true) as ->; [|done].
    apply includes_spec. exists [], (js "/sub" ++ [32] ++ safeDecode e).
    replace F with (js "رخام و سيراميك" ++ js "/sub") by (vm_compute; reflexivity).
    by rewrite <- app_assoc.
Qed.

Lemma marble_folder_gives_category_witness :
  ∃ it', normalizeItem (withFolder (js "رخام و سيراميك/sub")
                          (bareItem (Int 1) (js "a.jpg") (js "/media/a.jpg")))
         = Some it'
         ∧ category it' = Some (js "رخام و سيراميك").
Proof.
  apply (marble_folder_gives_category _ (js "/media/a.jpg")).
  - reflexivity.
  - left. reflexivity.
  - vm_compute. reflexivity.
  - vm_compute. reflexivity.
Defined.

(** C6, as stated, fails: the folder name it gives begins with the Latin
    letter r, so the label "رخام و سيراميك" is not a substring of it, and
    the item is left without a category. *)
Lemma latin_r_folder_gives_no_category :
  ¬ (∀ (it it' : MediaItem),
       folder it = Some (js "rخام و سيراميك/sub") ->
       category it = None ->
       (∀ cat, cat ∈ ZIP_CATEGORIES -> includes (src it) cat = false) ->
       normalizeItem it = Some it' ->
       category it' = Some (js "رخام و سيراميك")).
Proof.
  intros H.
  pose (it := withFolder (js "rخام و سيراميك/sub")
                (bareItem (Int 1) (js "a.jpg") (js "/media/a.jpg"))).
  destruct (normalizeItem it) as [it'|] eqn:Hn; [|vm_compute in Hn; discriminate Hn].
  assert (Hcat : category it' = Some (js "رخام و سيراميك")).
  { apply (H it it'); [reflexivity|reflexivity| |exact Hn].
    intros cat Hin. apply list_elem_of_In in Hin. vm_compute in Hin.
    repeat (destruct Hin as [<-|Hin]; [vm_compute; reflexivity|]). destruct Hin. }
  vm_compute in Hn. injection Hn as <-. vm_compute in Hcat. discriminate Hcat.
Qed.

Example latin_r_folder_category :
  category <$> normalizeItem (withFolder (js "rخام و سيراميك/sub")
                                (bareItem (Int 1) (js "a.jpg") (js "/media/a.jpg")))
  = Some None.
Proof. vm_compute. reflexivity. Qed.

(** ** Normalising twice *)

Lemma js_unknown : js "unknown" = [117; 110; 107; 110; 111; 119; 110].
Proof. vm_compute. reflexivity. Qed.

Lemma matched_year_is_known (s y m : jsstring) :
  matchYearMonth s = Some (y, m) ->
  missingOrUnknown (Some y) = false ∧ missingOrUnknown (Some m) = false.
Proof.
  intros H. apply matchYearMonth_sound in H
    as (pre & d1 & d2 & d3 & d4 & post & _ & -> & -> & _).
  unfold missingOrUnknown. rewrite js_unknown. simpl.
  by rewrite !andb_false_r.
Qed.

Lemma deriveCategoryFromPath_fixed (f : option jsstring) (s : jsstring)
    (c : option jsstring) :
  deriveCategoryFromPath f s (deriveCategoryFromPath f s c) = deriveCategoryFromPath f s c.
Proof.
  destruct (deriveCategoryFromPath f s c) as [r|] eqn:Hd.
  - assert (r ≠ [] ∧ r ≠ SENTINEL) as [Hne Hns].
    { apply deriveCategoryFromPath_cases in Hd as [(_ & ? & ?)|Hin]; [done|].
      split.
      - intros ->. apply list_elem_of_In in Hin. vm_compute in Hin.
        repeat (destruct Hin as [Hin|Hin]; [discriminate Hin|]). exact Hin.
      - intros ->. by apply sentinel_not_a_zip_category. }
    unfold deriveCategoryFromPath. simpl.
    apply strEq_false in Hns. rewrite Hns.
    destruct r; [done|reflexivity].
  - unfold deriveCategoryFromPath in *. simpl.
    destruct (truthy c && negb (strEq (default [] c) SENTINEL)) eqn:Hc; [|exact Hd].
    subst c. discriminate Hc.
Qed.

Lemma normalizeItem_fixed (it it' : MediaItem) :
  normalizeItem it = Some it' ->
  normalizeUrlPath (src it') = Some (src it') ->
  normalizeItem it' = Some it'.
Proof.
  unfold normalizeItem at 1.
  destruct (normalizeUrlPath (src it)) as [e|] eqn:He; [|done].
  cbn [mbind option_bind]. intros Heq. injection Heq as <-. cbn [src]. intros He'.
  unfold normalizeItem. cbn [src year month category folder name colorName id rid
    displayName type original_ext tags colorHex]. rewrite He'. cbn [mbind option_bind].
  f_equal. f_equal.
  - rewrite deriveCategoryFromPath_fixed. reflexivity.
  - apply deriveCategoryFromPath_fixed.
  - destruct (matchYearMonth e) as [[y m]|] eqn:Hm; [|done].
    destruct (matched_year_is_known _ _ _ Hm) as [Hy _].
    destruct (missingOrUnknown (year it)) eqn:Hg; [by rewrite Hy|by rewrite Hg].
  - destruct (matchYearMonth e) as [[y m]|] eqn:Hm; [|done].
    destruct (matched_year_is_known _ _ _ Hm) as [_ Hmo].
    destruct (missingOrUnknown (month it)) eqn:Hg; [by rewrite Hmo|by rewrite Hg].
Qed.

(** A second pass changes nothing as soon as it leaves every [src] alone:
    all the other fields are stable. *)
Lemma normalizeItems_fixed_when_src_fixed (toLowerCase : jsstring -> jsstring)
    (arr out : list MediaItem) :
  normalizeItems toLowerCase arr = Some out ->
  Forall (fun it => normalizeUrlPath (src it) = Some (src it)) out ->
  normalizeItems toLowerCase out = Some out.
Proof.
  unfold normalizeItems at 1.
  destruct (mapM normalizeItem arr) as [mapped|] eqn:Hm; [|done].
  cbn [fmap option_fmap option_map]. intros Heq. injection Heq as <-. intros Hsrc.
  apply mapM_Some_1 in Hm.
  assert (Hfix : Forall (fun it' => normalizeItem it' = Some it')
                        (List.filter (keepItem toLowerCase) mapped)).
  { revert Hsrc. induction Hm as [|it it' arr mapped Hit _ IH]; simpl; [constructor|].
    destruct (keepItem toLowerCase it'); [|exact IH].
    intros Hs. apply Forall_cons in Hs as [Hs1 Hs]. constructor; [|by apply IH].
    by eapply normalizeItem_fixed. }
  unfold normalizeItems.
  rewrite (mapM_Some_2 normalizeItem _ (List.filter (keepItem toLowerCase) mapped)).
  - cbn [fmap option_fmap option_map]. f_equal.
    clear. induction mapped as [|x l IH]; simpl; [done|].
    destruct (keepItem toLowerCase x) eqn:Hk; simpl; [|exact IH].
    by rewrite Hk, IH.
  - clear -Hfix. induction Hfix; constructor; done.
Qed.

(** *** Paths that encoding leaves alone *)

Lemma split_nonempty (sep : N) (s : jsstring) : split sep s ≠ [].
Proof.
  destruct s as [|c s]; simpl; [done|].
  destruct (c =? sep); [done|]. by destruct (split sep s).
Qed.

Lemma join_cons (sep x y : jsstring) (l : list jsstring) :
  join sep (x :: y :: l) = x ++ sep ++ join sep (y :: l).
Proof. reflexivity. Qed.

Lemma join_split (sep : N) (s : jsstring) : join [sep] (split sep s) = s.
Proof.
  induction s as [|c s IH]; simpl; [done|].
  pose proof (split_nonempty sep s) as Hne.
  destruct (c =? sep) eqn:Hc.
  - apply N.eqb_eq in Hc as ->.
    destruct (split sep s) as [|h t]; [done|]. by rewrite join_cons, IH.
  - destruct (split sep s) as [|h t]; [done|].
    destruct t as [|h' t]; [by rewrite <- IH|].
    rewrite join_cons. rewrite join_cons in IH. by rewrite <- IH.
Qed.

Lemma split_plain (s : jsstring) :
  forallb plainPathChar s = true ->
  Forall (fun seg => forallb uriUnescaped seg = true) (split 47 s).
Proof.
  induction s as [|c s IH]; simpl; intros H.
  - by repeat constructor.
  - apply andb_true_iff in H as [Hc Hs]. specialize (IH Hs).
    destruct (c =? 47) eqn:H47.
    + by constructor.
    + unfold plainPathChar in Hc. rewrite H47, orb_false_r in Hc.
      destruct (split 47 s) as [|h t]; [by repeat constructor; simpl; rewrite Hc|].
      apply Forall_cons in IH as [Hh Ht]. constructor; [|done].
      simpl. by rewrite Hc, Hh.
Qed.

Lemma encodeURIComponent_unescaped (seg : jsstring) :
  forallb uriUnescaped seg = true -> encodeURIComponent seg = Some seg.
Proof.
  induction seg as [|c seg IH]; simpl; [done|].
  intros H. apply andb_true_iff in H as [Hc Hs]. by rewrite Hc, (IH Hs).
Qed.

Lemma stripLeadingSlashes_plain (p : jsstring) :
  forallb plainPathChar p = true -> forallb plainPathChar (stripLeadingSlashes p) = true.
Proof.
  induction p as [|c p IH]; simpl; [done|]. intros H.
  destruct (c =? 47); [|done]. apply andb_true_iff in H as [_ H]. by apply IH.
Qed.

Lemma stripLeadingSlashes_no_slash (p : jsstring) :
  startsWith (stripLeadingSlashes p) [47] = false.
Proof.
  induction p as [|c p IH]; cbn [stripLeadingSlashes]; [done|].
  destruct (c =? 47) eqn:Hc; [exact IH|]. cbn [startsWith].
  by rewrite N.eqb_sym, Hc.
Qed.

Lemma stripLeadingSlashes_id (p : jsstring) :
  startsWith p [47] = false -> stripLeadingSlashes p = p.
Proof.
  destruct p as [|c p]; cbn [startsWith stripLeadingSlashes]; [done|].
  rewrite andb_true_r, N.eqb_sym. by intros ->.
Qed.

Lemma oneLeadingSlash_fixed (p : jsstring) :
  oneLeadingSlash (oneLeadingSlash p) = oneLeadingSlash p.
Proof.
  unfold oneLeadingSlash. destruct (startsWith p [47]) eqn:Hp.
  - change ([47] ++ ?x) with (47 :: x). cbn [startsWith stripLeadingSlashes].
    rewrite N.eqb_refl. cbn [andb app].
    by rewrite (stripLeadingSlashes_id _ (stripLeadingSlashes_no_slash p)).
  - cbn [app]. rewrite (stripLeadingSlashes_id _ Hp). rewrite Hp. cbn [app].
    by apply stripLeadingSlashes_id.
Qed.

Lemma oneLeadingSlash_plain (p : jsstring) :
  forallb plainPathChar p = true -> forallb plainPathChar (oneLeadingSlash p) = true.
Proof.
  intros H. unfold oneLeadingSlash. rewrite forallb_app.
  rewrite (stripLeadingSlashes_plain _ H), andb_true_r.
  by destruct (startsWith p [47]).
Qed.

Lemma normalizeUrlPath_plain (p : jsstring) :
  forallb plainPathChar p = true ->
  normalizeUrlPath p = Some p ∨ normalizeUrlPath p = Some (oneLeadingSlash p).
Proof.
  intros H. unfold normalizeUrlPath. destruct p as [|c p]; [by left|].
  destruct (hasProto (c :: p)); [by left|]. right.
  rewrite (mapM_Some_2 encodeURIComponent _ (split 47 (stripLeadingSlashes (c :: p)))).
  - cbn [mbind option_bind]. by rewrite join_split.
  - pose proof (split_plain _ (stripLeadingSlashes_plain _ H)) as Hs.
    induction Hs; constructor; [by apply encodeURIComponent_unescaped|done].
Qed.

Lemma normalizeUrlPath_stable (p : jsstring) :
  stableSrc p = true ->
  ∃ e, normalizeUrlPath p = Some e ∧ normalizeUrlPath e = Some e.
Proof.
  unfold stableSrc. destruct p as [|c p]; [by exists []|].
  destruct (hasProto (c :: p)) eqn:Hproto; simpl.
  - intros _. exists (c :: p). unfold normalizeUrlPath. by rewrite Hproto.
  - intros H. change (forallb plainPathChar (c :: p) = true) in H.
    destruct (normalizeUrlPath_plain _ H) as [He|He].
    + by exists (c :: p).
    + exists (oneLeadingSlash (c :: p)). split; [done|].
      destruct (normalizeUrlPath_plain _ (oneLeadingSlash_plain _ H)) as [He'|He'];
        [done|]. by rewrite oneLeadingSlash_fixed in He'.
Qed.

(** On a list whose sources are all stable under encoding (empty, an
    absolute http(s) URL, or made of slashes and unescaped characters
    only), [normalizeItems] returns a list that a second call returns
    unchanged, field by field. *)
Lemma normalizeItems_fixed_on_stable_sources
    (toLowerCase : jsstring -> jsstring) (arr : list MediaItem) :
  Forall (fun it => stableSrc (src it) = true) arr ->
  ∃ out, normalizeItems toLowerCase arr = Some out ∧
         normalizeItems toLowerCase out = Some out.
Proof.
  intros Hst.
  assert (∃ mapped, mapM normalizeItem arr = Some mapped ∧
            Forall (fun it => normalizeUrlPath (src it) = Some (src it)) mapped)
    as (mapped & Hm & Hfix).
  { induction Hst as [|it arr Hit _ (mapped & Hm & Hfix)]; [by exists []|].
    destruct (normalizeUrlPath_stable _ Hit) as (e & He & He').
    assert (∃ it', normalizeItem it = Some it' ∧ src it' = e) as (it' & Hn & Hs)
      by (unfold normalizeItem; rewrite He; eexists; split; reflexivity).
    exists (it' :: mapped). split.
    - cbn [mapM]. rewrite Hn, Hm. reflexivity.
    - constructor; [by rewrite Hs|done]. }
  exists (List.filter (keepItem toLowerCase) mapped).
  assert (Hn : normalizeItems toLowerCase arr
               = Some (List.filter (keepItem toLowerCase) mapped))
    by (unfold normalizeItems; by rewrite Hm).
  split; [exact Hn|].
  apply (normalizeItems_fixed_when_src_fixed _ _ _ Hn).
  clear -Hfix. induction Hfix as [|x l Hx _ IH]; simpl; [constructor|].
  destruct (keepItem toLowerCase x); [by constructor|exact IH].
Qed.

(** C1, as stated, fails: a source with a character that is escaped gets
    its percent signs escaped again by the second pass. *)
Lemma second_pass_encodes_again :
  ¬ (∀ arr out : list MediaItem,
       normalizeItems toLowerCaseLatin arr = Some out ->
       normalizeItems toLowerCaseLatin out = Some out).
Proof.
  intros H.
  pose (arr := [bareItem (Int 1) (js "a b.jpg") (js "/media/a b.jpg")]).
  destruct (normalizeItems toLowerCaseLatin arr) as [out|] eqn:Hn;
    [|vm_compute in Hn; discriminate Hn].
  specialize (H arr out Hn).
  vm_compute in Hn. injection Hn as <-. vm_compute in H. discriminate H.
Qed.

(** The same holds with any [toLowerCase] that lower-cases ASCII text as
    the runtime does: the second pass never returns the list unchanged. *)
Lemma re_encoding_under_any_runtime (toLowerCase : jsstring -> jsstring) :
  (∀ s, Forall (fun c => c < 128) s -> toLowerCase s = map lowerUnit s) ->
  ∃ out,
    normalizeItems toLowerCase [bareItem (Int 1) (js "a b.jpg") (js "/media/a b.jpg")]
    = Some out
    ∧ normalizeItems toLowerCase out ≠ Some out.
Proof.
  intros Hascii.
  assert (Hkeep : ∀ it, Forall (fun c => c < 128) (src it) ->
                        keepItem toLowerCase it = keepItem toLowerCaseLatin it).
  { intros it Hit. unfold keepItem, shouldSkipPath. by rewrite (Hascii _ Hit). }
  pose (it1 := withDisplay (js "a b")
                 (bareItem (Int 1) (js "a b.jpg") (js "/media/a%20b.jpg"))).
  pose (it2 := withDisplay (js "a b")
                 (bareItem (Int 1) (js "a b.jpg") (js "/media/a%2520b.jpg"))).
  assert (H1 : mapM normalizeItem [bareItem (Int 1) (js "a b.jpg") (js "/media/a b.jpg")]
               = Some [it1]) by (vm_compute; reflexivity).
  assert (H2 : mapM normalizeItem [it1] = Some [it2]) by (vm_compute; reflexivity).
  exists [it1]. unfold normalizeItems. rewrite H1. cbn [fmap option_fmap option_map List.filter].
  rewrite Hkeep by (apply (bool_decide_unpack _); vm_compute; exact I).
  replace (keepItem toLowerCaseLatin it1) with true by (vm_compute; reflexivity).
  split; [reflexivity|].
  rewrite H2. cbn [fmap option_fmap option_map List.filter].
  destruct (keepItem toLowerCase it2); intros Heq; vm_compute in Heq; discriminate Heq.
Qed.

Example sources_after_one_and_two_passes :
  let arr := [bareItem (Int 1) (js "a b.jpg") (js "/media/a b.jpg")] in
  map src <$> normalizeItems toLowerCaseLatin arr = Some [js "/media/a%20b.jpg"]
  ∧ map src <$> (normalizeItems toLowerCaseLatin arr ≫= normalizeItems toLowerCaseLatin)
    = Some [js "/media/a%2520b.jpg"].
Proof. split; vm_compute; reflexivity. Qed.

(** ** Reading back a written manifest *)

Lemma replaceCRLF_cons (c : N) (s : jsstring) :
  replaceCRLF (c :: s) =
  if (c =? 13) && bool_decide (head s = Some 10) then replaceCRLF s
  else c :: replaceCRLF s.
Proof.
  destruct s as [|d s]; cbn [replaceCRLF head].
  - rewrite bool_decide_eq_false_2 by done. by rewrite andb_false_r.
  - destruct (c =? 13) eqn:Hc; cbn [andb]; [|reflexivity].
    destruct (d =? 10) eqn:Hd.
    + apply N.eqb_eq in Hd as ->. rewrite bool_decide_eq_true_2 by done.
      by destruct s.
    + rewrite bool_decide_eq_false_2; [done|].
      intros [= ->]. discriminate Hd.
Qed.

Lemma replaceCRLF_cons_ne (c : N) (s : jsstring) :
  c ≠ 13 -> replaceCRLF (c :: s) = c :: replaceCRLF s.
Proof.
  intros Hc. rewrite replaceCRLF_cons.
  apply N.eqb_neq in Hc. by rewrite Hc.
Qed.

Lemma replaceCRLF_app (a b : jsstring) :
  head b ≠ Some 10 -> replaceCRLF (a ++ b) = replaceCRLF a ++ replaceCRLF b.
Proof.
  intros Hb. induction a as [|c a IH]; [done|].
  cbn [app]. rewrite !replaceCRLF_cons, IH.
  assert (bool_decide (head (a ++ b) = Some 10) = bool_decide (head a = Some 10)) as ->.
  { destruct a as [|d a]; [|done]. cbn [app head].
    by rewrite !bool_decide_eq_false_2. }
  by destruct (_ && _).
Qed.

Lemma isSpecial_false (c : N) :
  isSpecial c = false -> c ≠ 44 ∧ c ≠ 34 ∧ c ≠ 13 ∧ c ≠ 10.
Proof.
  unfold isSpecial. rewrite !orb_false_iff, !N.eqb_neq. tauto.
Qed.

Lemma needsQuotes_cons (c : N) (f : jsstring) :
  needsQuotes (c :: f) = isSpecial c || needsQuotes f.
Proof. reflexivity. Qed.

Lemma replaceCRLF_plain_app (f b : jsstring) :
  needsQuotes f = false -> replaceCRLF (f ++ b) = f ++ replaceCRLF b.
Proof.
  induction f as [|c f IH]; [done|].
  rewrite needsQuotes_cons, orb_false_iff. intros [Hc Hf].
  apply isSpecial_false in Hc as (_ & _ & Hc & _).
  cbn [app]. by rewrite replaceCRLF_cons_ne, IH.
Qed.

Lemma replaceCRLF_plain (f : jsstring) : needsQuotes f = false -> replaceCRLF f = f.
Proof.
  intros Hf. rewrite <- (app_nil_r f) at 1.
  rewrite (replaceCRLF_plain_app _ _ Hf). apply app_nil_r.
Qed.

Lemma needsQuotes_replaceCRLF (f : jsstring) :
  needsQuotes (replaceCRLF f) = needsQuotes f.
Proof.
  induction f as [|c f IH]; [done|].
  rewrite replaceCRLF_cons.
  destruct (c =? 13) eqn:Hc; cbn [andb].
  - apply N.eqb_eq in Hc as ->. case_bool_decide as Hh.
    + rewrite IH. destruct f as [|d f]; [done|]. by injection Hh as ->.
    + by rewrite !needsQuotes_cons, IH.
  - by rewrite !needsQuotes_cons, IH.
Qed.

Lemma escapeQuotes_cons (c : N) (f : jsstring) :
  escapeQuotes (c :: f) = (if c =? 34 then [34; 34] else [c]) ++ escapeQuotes f.
Proof. reflexivity. Qed.

Lemma head_escapeQuotes (f : jsstring) : head (escapeQuotes f) = head f.
Proof.
  destruct f as [|c f]; [done|]. rewrite escapeQuotes_cons.
  destruct (c =? 34) eqn:Hc; [|done]. by apply N.eqb_eq in Hc as ->.
Qed.

Lemma replaceCRLF_escapeQuotes (f : jsstring) :
  replaceCRLF (escapeQuotes f) = escapeQuotes (replaceCRLF f).
Proof.
  induction f as [|c f IH]; [done|].
  rewrite escapeQuotes_cons, (replaceCRLF_cons c f).
  destruct (c =? 34) eqn:Hq.
  - apply N.eqb_eq in Hq as ->. cbn [N.eqb Pos.eqb andb app].
    rewrite !replaceCRLF_cons_ne by done. by rewrite IH.
  - cbn [app]. rewrite replaceCRLF_cons, head_escapeQuotes, IH.
    destruct (_ && _); [done|]. by rewrite escapeQuotes_cons, Hq.
Qed.

(** Replacing CRLF in the text of a field is writing the field with its
    CRLF replaced. *)
Lemma replaceCRLF_field (f b : jsstring) :
  replaceCRLF (csvField f ++ b) = csvField (replaceCRLF f) ++ replaceCRLF b.
Proof.
  unfold csvField. rewrite needsQuotes_replaceCRLF.
  destruct (needsQuotes f) eqn:Hf.
  - rewrite <- !app_assoc. cbn [app].
    rewrite replaceCRLF_cons_ne by done.
    rewrite replaceCRLF_app by done.
    by rewrite replaceCRLF_cons_ne, replaceCRLF_escapeQuotes by done.
  - by rewrite replaceCRLF_plain_app, (replaceCRLF_plain _ Hf).
Qed.

Lemma replaceCRLF_eol (eol b : jsstring) :
  eol = LF ∨ eol = CRLF -> replaceCRLF (eol ++ b) = 10 :: replaceCRLF b.
Proof.
  intros [->| ->]; unfold LF, CRLF; cbn [app].
  - by rewrite replaceCRLF_cons_ne.
  - rewrite replaceCRLF_cons. cbn [N.eqb Pos.eqb andb head].
    rewrite bool_decide_eq_true_2 by done. by rewrite replaceCRLF_cons_ne.
Qed.

Lemma replaceCRLF_line (eol : jsstring) (r : list jsstring) (b : jsstring) :
  eol = LF ∨ eol = CRLF ->
  replaceCRLF (csvLine eol r ++ b) = csvLine LF (map replaceCRLF r) ++ replaceCRLF b.
Proof.
  intros Heol. unfold csvLine. induction r as [|f r IH].
  - cbn [map join app]. by rewrite (replaceCRLF_eol _ _ Heol).
  - destruct r as [|g r].
    + cbn [map join]. rewrite <- app_assoc, replaceCRLF_field.
      by rewrite (replaceCRLF_eol _ _ Heol), <- app_assoc.
    + cbn [map]. cbn [map] in IH. rewrite !join_cons.
      rewrite <- !app_assoc. rewrite replaceCRLF_field. f_equal.
      cbn [app]. rewrite replaceCRLF_cons_ne by done. f_equal.
      rewrite <- !app_assoc in IH. exact IH.
Qed.

Lemma replaceCRLF_lines (eol : jsstring) (rows : list (list jsstring)) :
  eol = LF ∨ eol = CRLF ->
  replaceCRLF (concat (map (csvLine eol) rows))
  = concat (map (csvLine LF) (map (map replaceCRLF) rows)).
Proof.
  intros Heol. induction rows as [|r rows IH]; [done|].
  cbn [map concat]. by rewrite (replaceCRLF_line _ _ _ Heol), IH.
Qed.

(** *** The scanner on written fields *)

Lemma scanCSV_plain (f rest cur : jsstring) (row : list jsstring)
    (rows : list (list jsstring)) :
  needsQuotes f = false ->
  scanCSV (f ++ rest) false cur row rows = scanCSV rest false (cur ++ f) row rows.
Proof.
  revert cur. induction f as [|c f IH]; intros cur Hf.
  - by rewrite app_nil_r.
  - rewrite needsQuotes_cons, orb_false_iff in Hf. destruct Hf as [Hc Hf].
    apply isSpecial_false in Hc as (H44 & H34 & _ & H10).
    apply N.eqb_neq in H44, H34, H10.
    cbn [app scanCSV]. rewrite H34, H44, H10, (IH _ Hf).
    by rewrite <- app_assoc.
Qed.

Lemma scanCSV_quoted (f rest cur : jsstring) (row : list jsstring)
    (rows : list (list jsstring)) :
  head rest ≠ Some 34 ->
  scanCSV (escapeQuotes f ++ 34 :: rest) true cur row rows
  = scanCSV rest false (cur ++ f) row rows.
Proof.
  intros Hrest. revert cur. induction f as [|c f IH]; intros cur.
  - cbn [escapeQuotes flat_map app scanCSV]. rewrite N.eqb_refl, app_nil_r.
    destruct rest as [|next rest']; [done|].
    destruct (next =? 34) eqn:Hn; [|done].
    apply N.eqb_eq in Hn as ->. by destruct Hrest.
  - rewrite escapeQuotes_cons. destruct (c =? 34) eqn:Hc.
    + apply N.eqb_eq in Hc as ->. cbn [app scanCSV]. rewrite !N.eqb_refl.
      rewrite IH. by rewrite <- app_assoc.
    + cbn [app scanCSV]. rewrite Hc, IH. by rewrite <- app_assoc.
Qed.

Lemma scanCSV_field (f rest : jsstring) (row : list jsstring)
    (rows : list (list jsstring)) :
  head rest ≠ Some 34 ->
  scanCSV (csvField f ++ rest) false [] row rows = scanCSV rest false f row rows.
Proof.
  intros Hrest. unfold csvField. destruct (needsQuotes f) eqn:Hf.
  - rewrite <- !app_assoc. cbn [app scanCSV]. rewrite N.eqb_refl.
    by rewrite (scanCSV_quoted _ _ _ _ _ Hrest).
  - by rewrite (scanCSV_plain _ _ _ _ _ Hf).
Qed.

Lemma scanCSV_line (r : list jsstring) (rest : jsstring) (row : list jsstring)
    (rows : list (list jsstring)) :
  r ≠ [] ->
  scanCSV (csvLine LF r ++ rest) false [] row rows
  = scanCSV rest false [] [] (rows ++ [row ++ r]).
Proof.
  unfold csvLine, LF. revert row. induction r as [|f r IH]; intros row Hr; [done|].
  destruct r as [|g r].
  - cbn [map join]. rewrite <- app_assoc. cbn [app].
    rewrite scanCSV_field by done. reflexivity.
  - cbn [map]. cbn [map] in IH. rewrite join_cons, <- !app_assoc. cbn [app].
    rewrite scanCSV_field by done. cbn [scanCSV N.eqb Pos.eqb].
    rewrite <- app_assoc in IH. cbn [app] in IH. rewrite IH by done.
    by rewrite <- app_assoc.
Qed.

Lemma scanCSV_lines (rs : list (list jsstring)) (rows : list (list jsstring)) :
  Forall (fun r => r ≠ []) rs ->
  scanCSV (concat (map (csvLine LF) rs)) false [] [] rows = rows ++ rs.
Proof.
  intros Hrs. revert rows. induction Hrs as [|r rs Hr _ IH]; intros rows.
  - by rewrite app_nil_r.
  - cbn [map concat]. rewrite (scanCSV_line _ _ _ _ Hr), IH.
    by rewrite <- app_assoc.
Qed.

Lemma header_line_starts_with_i :
  ∃ t, join [44] (map csvField HEADERS) = 105 :: t.
Proof. eexists. vm_compute. reflexivity. Qed.

Lemma stripBOM_toCSV (eol : jsstring) (records : list (list jsstring)) :
  stripBOM (toCSV eol records) = toCSV eol records.
Proof.
  assert (∃ t, toCSV eol records = 105 :: t) as [t ->]; [|reflexivity].
  unfold toCSV. cbn [map concat]. unfold csvLine at 1.
  destruct header_line_starts_with_i as [t ->]. by eexists.
Qed.

Lemma keepRow_wide (r : list jsstring) : length r = length HEADERS -> keepRow r = true.
Proof. unfold keepRow. intros ->. reflexivity. Qed.

(** Reading what was written gives the header and the records, with CRLF
    replaced in every field. *)
Lemma parseCSV_toCSV (eol : jsstring) (records : list (list jsstring)) :
  eol = LF ∨ eol = CRLF ->
  Forall (fun r => length r = length HEADERS) records ->
  parseCSV (toCSV eol records) = HEADERS :: map (map replaceCRLF) records.
Proof.
  intros Heol Hlen. unfold parseCSV. rewrite stripBOM_toCSV. unfold toCSV.
  rewrite (replaceCRLF_lines _ _ Heol).
  change (map (map replaceCRLF) (HEADERS :: records))
    with (map replaceCRLF HEADERS :: map (map replaceCRLF) records).
  replace (map replaceCRLF HEADERS) with HEADERS by (vm_compute; reflexivity).
  rewrite (scanCSV_lines (HEADERS :: map (map replaceCRLF) records) []).
  - cbn [app List.filter]. rewrite (keepRow_wide HEADERS) by done. f_equal.
    induction Hlen as [|r rs Hr _ IH]; [done|]. cbn [map List.filter].
    rewrite keepRow_wide by (by rewrite length_map). by rewrite IH.
  - constructor; [done|]. apply Forall_map.
    eapply Forall_impl; [exact Hlen|]. intros r Hr Heq.
    apply (f_equal length) in Heq. rewrite length_map, Hr in Heq. discriminate Heq.
Qed.

Lemma lastIndexFrom_not_in (i : nat) (h : jsstring) (headers : list jsstring) :
  h ∉ headers -> lastIndexFrom i h headers = None.
Proof.
  revert i. induction headers as [|x rest IH]; intros i Hh; [done|].
  apply not_elem_of_cons in Hh as [Hne Hh]. cbn [lastIndexFrom].
  rewrite (IH _ Hh). apply not_eq_sym, strEq_false in Hne. by rewrite Hne.
Qed.

Lemma lastIndexFrom_NoDup (i j : nat) (h : jsstring) (headers : list jsstring) :
  NoDup headers -> headers !! j = Some h ->
  lastIndexFrom i h headers = Some (i + j)%nat.
Proof.
  revert i j. induction headers as [|x rest IH]; intros i j Hnd Hj; [done|].
  apply NoDup_cons in Hnd as [Hx Hnd]. cbn [lastIndexFrom].
  destruct j as [|j]; simpl in Hj.
  - injection Hj as ->. rewrite (lastIndexFrom_not_in _ _ _ Hx).
    assert (strEq h h = true) as -> by (by apply strEq_true).
    by rewrite Nat.add_0_r.
  - rewrite (IH (S i) j Hnd Hj). f_equal. lia.
Qed.

Lemma HEADERS_NoDup : NoDup HEADERS.
Proof. apply (bool_decide_unpack (NoDup HEADERS)). vm_compute. exact I. Qed.

(** C2 (as the code has it). Write any records under the documented header
    with RFC 4180 quoting, lines ending in LF or CRLF, and read the text
    back with [csvToObjects]: there is one row object per record, in order,
    and each of its fields is the original value with every CRLF replaced by
    LF and the white space at both ends trimmed. *)
Theorem csv_round_trip_trimmed (eol : jsstring) (records : list (list jsstring)) :
  eol = LF ∨ eol = CRLF ->
  Forall (fun r => length r = length HEADERS) records ->
  length (csvToObjects (toCSV eol records)) = length records ∧
  ∀ (i : nat) (r : list jsstring), records !! i = Some r ->
    ∃ o, csvToObjects (toCSV eol records) !! i = Some o ∧
         ∀ (j : nat) (h v : jsstring),
           HEADERS !! j = Some h -> r !! j = Some v ->
           o !! h = Some (trim (replaceCRLF v)).
Proof.
  intros Heol Hlen. unfold csvToObjects.
  rewrite (parseCSV_toCSV _ _ Heol Hlen).
  replace (map trim HEADERS) with HEADERS by (vm_compute; reflexivity).
  split; [by rewrite !length_map|].
  intros i r Hr. eexists. split.
  - rewrite !list_lookup_fmap, Hr. reflexivity.
  - intros j h v Hh Hv. rewrite rowToObj_lookup_name.
    2:{ intros ->. apply list_elem_of_lookup_2 in Hh. revert Hh.
        apply (bool_decide_unpack (PROTO ∉ HEADERS)). vm_compute. exact I. }
    unfold cell.
    rewrite (lastIndexFrom_NoDup 0 j h _ HEADERS_NoDup Hh). cbn [fmap option_fmap option_map Nat.add].
    by rewrite list_lookup_fmap, Hv.
Qed.

Lemma csv_round_trip_trimmed_witness :
  let records := [bareRecord (js "1") [32; 97; 44; 34; 98; 34; 13; 10; 99; 32] (js "/a b.jpg");
                  bareRecord (js "2") (js "b.jpg") (js "/b.jpg")] in
  length (csvToObjects (toCSV CRLF records)) = length records ∧
  ∀ (i : nat) (r : list jsstring), records !! i = Some r ->
    ∃ o, csvToObjects (toCSV CRLF records) !! i = Some o ∧
         ∀ (j : nat) (h v : jsstring),
           HEADERS !! j = Some h -> r !! j = Some v ->
           o !! h = Some (trim (replaceCRLF v)).
Proof.
  apply (csv_round_trip_trimmed CRLF).
  - right. reflexivity.
  - repeat constructor.
Defined.

(** C2, as stated, fails: white space at the ends of a value does not come
    back, because [csvToObjects] trims every cell. *)
Lemma padded_value_does_not_round_trip :
  ¬ (∀ records : list (list jsstring),
       Forall (fun r => length r = length HEADERS) records ->
       ∀ (i : nat) (r : list jsstring), records !! i = Some r ->
         ∃ o, csvToObjects (toCSV LF records) !! i = Some o ∧
              ∀ (j : nat) (h v : jsstring),
                HEADERS !! j = Some h -> r !! j = Some v -> o !! h = Some v).
Proof.
  intros H.
  pose (r := bareRecord (js "1") (js " a.jpg") (js "/a.jpg")).
  destruct (H [r] ltac:(repeat constructor) 0%nat r eq_refl) as (o & Ho & Hf).
  assert (Hc : csvToObjects (toCSV LF [r]) !! 0%nat ≫= (fun o => o !! js "name")
               = Some (js "a.jpg")) by (vm_compute; reflexivity).
  rewrite Ho in Hc. cbn [mbind option_bind] in Hc.
  rewrite (Hf 2%nat (js "name") (js " a.jpg") eq_refl eq_refl) in Hc.
  vm_compute in Hc. discriminate Hc.
Qed.

Example padded_and_crlf_values_read_back :
  let r := bareRecord (js "1") [32; 97; 13; 10; 98; 32] (js "/a.jpg") in
  (fun o => o !! js "name") <$> csvToObjects (toCSV CRLF [r])
  = [Some [97; 10; 98]].
Proof. vm_compute. reflexivity. Qed.

(** * Further properties *)

(** ** Trimming *)

Lemma trimStart_head (s : jsstring) (c : N) :
  head (trimStart s) = Some c -> isWhiteSpace c = false.
Proof.
  induction s as [|d s IH]; cbn [trimStart]; [done|].
  destruct (isWhiteSpace d) eqn:Hd; [exact IH|].
  cbn [head]. by intros [= <-].
Qed.

Lemma trimStart_id (s : jsstring) :
  (∀ c, head s = Some c -> isWhiteSpace c = false) -> trimStart s = s.
Proof.
  destruct s as [|d s]; [done|]. intros H. cbn [trimStart].
  by rewrite (H d eq_refl).
Qed.

Lemma last_trimStart (s : jsstring) (c : N) :
  last (trimStart s) = Some c -> last s = Some c.
Proof.
  induction s as [|d s IH]; cbn [trimStart]; [done|].
  destruct (isWhiteSpace d); [|done]. intros H. specialize (IH H).
  destruct s as [|d' s]; [done|]. by rewrite last_cons_cons.
Qed.

Lemma head_rev (s : jsstring) : head (rev s) = last s.
Proof.
  induction s as [|x l _] using rev_ind; [done|].
  by rewrite rev_unit, last_snoc.
Qed.

Lemma last_rev (s : jsstring) : last (rev s) = head s.
Proof. by rewrite <- head_rev, rev_involutive. Qed.

Lemma trim_head (s : jsstring) (c : N) :
  head (trim s) = Some c -> isWhiteSpace c = false.
Proof.
  unfold trim, trimEnd. rewrite head_rev. intros H.
  apply last_trimStart in H. rewrite last_rev in H.
  by apply trimStart_head in H.
Qed.

Lemma trim_last (s : jsstring) (c : N) :
  last (trim s) = Some c -> isWhiteSpace c = false.
Proof.
  unfold trim, trimEnd. rewrite last_rev. apply trimStart_head.
Qed.

Lemma trim_id (s : jsstring) :
  (∀ c, head s = Some c -> isWhiteSpace c = false) ->
  (∀ c, last s = Some c -> isWhiteSpace c = false) ->
  trim s = s.
Proof.
  intros Hh Hl. unfold trim, trimEnd. rewrite (trimStart_id s Hh).
  rewrite trimStart_id; [apply rev_involutive|].
  intros c. rewrite head_rev. apply Hl.
Qed.

Lemma trim_trim (s : jsstring) : trim (trim s) = trim s.
Proof. apply trim_id; [apply trim_head|apply trim_last]. Qed.

Lemma trimStart_nil (s : jsstring) :
  trimStart s = [] ↔ Forall (fun c => isWhiteSpace c = true) s.
Proof.
  induction s as [|d s IH]; cbn [trimStart]; [by split|].
  destruct (isWhiteSpace d) eqn:Hd.
  - rewrite IH. split; [by constructor|]. by intros [_ ?]%Forall_cons.
  - split; [done|]. intros [? _]%Forall_cons. congruence.
Qed.

Lemma trim_nil (s : jsstring) :
  trim s = [] ↔ Forall (fun c => isWhiteSpace c = true) s.
Proof.
  unfold trim, trimEnd. split.
  - intros H. apply (f_equal (@rev N)) in H. rewrite rev_involutive in H.
    cbn [rev] in H. apply trimStart_nil in H.
    assert (Ht : trimStart s = []).
    { destruct (trimStart s) as [|c t] eqn:Hs; [done|].
      pose proof (trimStart_head s c) as Hc. rewrite Hs in Hc. specialize (Hc eq_refl).
      apply Forall_forall with (x := c) in H; [congruence|].
      apply list_elem_of_In, in_rev. rewrite rev_involutive. by left. }
    by apply trimStart_nil.
  - intros H. apply trimStart_nil in H. by rewrite H.
Qed.

(** ** What a row object holds *)

Lemma lastIndexFrom_lookup (i j : nat) (h : jsstring) (headers : list jsstring) :
  lastIndexFrom i h headers = Some j ->
  ∃ k : nat, j = (i + k)%nat ∧ headers !! k = Some h.
Proof.
  revert i. induction headers as [|x rest IH]; intros i; cbn [lastIndexFrom]; [done|].
  destruct (lastIndexFrom (S i) h rest) as [j'|] eqn:Hl.
  - intros [= <-]. destruct (IH _ Hl) as (k & -> & Hk).
    exists (S k). split; [lia|done].
  - destruct (strEq x h) eqn:Hx; [|done]. intros [= <-].
    apply strEq_true in Hx as ->. exists 0%nat. split; [lia|done].
Qed.

Lemma lastIndexFrom_is_Some (i : nat) (h : jsstring) (headers : list jsstring) :
  is_Some (lastIndexFrom i h headers) ↔ h ∈ headers.
Proof.
  split.
  - intros [j Hj]. apply lastIndexFrom_lookup in Hj as (k & _ & Hk).
    by eapply list_elem_of_lookup_2.
  - intros Hin. destruct (lastIndexFrom i h headers) eqn:Hl; [by eexists|].
    exfalso. revert i Hl. induction headers as [|x rest IH]; intros i.
    + by apply elem_of_nil in Hin.
    + cbn [lastIndexFrom]. destruct (lastIndexFrom (S i) h rest) eqn:Hr; [done|].
      destruct (strEq x h) eqn:Hx; [done|]. intros _.
      apply strEq_false in Hx. apply elem_of_cons in Hin as [->|Hin]; [done|].
      by eapply IH.
Qed.

Lemma csvToObjects_lookup (text : jsstring) (hd : list jsstring)
    (data : list (list jsstring)) (i : nat) (o : gmap jsstring jsstring) :
  parseCSV text = hd :: data -> csvToObjects text !! i = Some o ->
  ∃ r, data !! i = Some r ∧ o = rowToObj (map trim hd) r.
Proof.
  intros Hp. unfold csvToObjects. rewrite Hp, list_lookup_fmap.
  destruct (data !! i) as [r|]; [|done]. intros [= <-]. by exists r.
Qed.

(** X1. The keys of a row object are exactly the trimmed header names
    other than ["__proto__"], under which the assignment creates no
    property, however many cells the row has; such a header whose columns
    all lie beyond the end of the row maps to the empty string. *)
Theorem csv_row_keys (text : jsstring) (hd : list jsstring)
    (data : list (list jsstring)) (i : nat) (o : gmap jsstring jsstring) :
  parseCSV text = hd :: data -> csvToObjects text !! i = Some o ->
  ∃ r, data !! i = Some r ∧
    (∀ h, is_Some (o !! h) ↔ h ∈ map trim hd ∧ h ≠ PROTO) ∧
    (∀ h, h ∈ map trim hd -> h ≠ PROTO ->
          (∀ j : nat, map trim hd !! j = Some h -> (length r <= j)%nat) ->
          o !! h = Some []).
Proof.
  intros Hp Ho. destruct (csvToObjects_lookup _ _ _ _ _ Hp Ho) as (r & Hr & ->).
  exists r. split; [done|]. split.
  - intros h. rewrite rowToObj_lookup. unfold strEq. case_bool_decide as Hh.
    + split; [by intros [? ?]|by intros [_ ?]].
    + unfold cell. rewrite <- (lastIndexFrom_is_Some 0 h (map trim hd)).
      destruct (lastIndexFrom 0 h (map trim hd)); simpl; split.
      * intros _. split; [by eexists|done].
      * intros _. by eexists.
      * by intros [? ?].
      * by intros [[? ?] _].
  - intros h Hin Hh Hshort. rewrite rowToObj_lookup_name by done. unfold cell.
    apply (lastIndexFrom_is_Some 0) in Hin as [j Hj]. rewrite Hj.
    apply lastIndexFrom_lookup in Hj as (k & -> & Hk).
    cbn [fmap option_fmap option_map Nat.add].
    by rewrite (lookup_ge_None_2 r k (Hshort k Hk)).
Qed.

Lemma csv_row_keys_witness :
  ∃ r, [[js "1"; js " a.jpg "; js "x"]; [js "2"]] !! 1%nat = Some r ∧
    (∀ h, is_Some (rowToObj [js "id"; js "name"; js "__proto__"] [js "2"] !! h)
          ↔ h ∈ map trim [js " id"; js "name "; js "__proto__"] ∧ h ≠ PROTO) ∧
    (∀ h, h ∈ map trim [js " id"; js "name "; js "__proto__"] -> h ≠ PROTO ->
          (∀ j : nat, map trim [js " id"; js "name "; js "__proto__"] !! j = Some h ->
                      (length r <= j)%nat) ->
          rowToObj [js "id"; js "name"; js "__proto__"] [js "2"] !! h = Some []).
Proof.
  apply (csv_row_keys
           (js " id,name ,__proto__" ++ [10] ++ js "1, a.jpg ,x" ++ [10] ++ js "2")
           [js " id"; js "name "; js "__proto__"] _ 1%nat).
  - vm_compute. reflexivity.
  - vm_compute. reflexivity.
Defined.

(** X2. Every value of a row object is trimmed: it has no white space at
    either end, so trimming it again changes nothing. *)
Theorem csv_row_values_trimmed (text : jsstring) (i : nat)
    (o : gmap jsstring jsstring) (h v : jsstring) :
  csvToObjects text !! i = Some o -> o !! h = Some v ->
  trim v = v ∧
  (∀ c, head v = Some c -> isWhiteSpace c = false) ∧
  (∀ c, last v = Some c -> isWhiteSpace c = false).
Proof.
  intros Ho Hv. unfold csvToObjects in Ho.
  destruct (parseCSV text) as [|hd data]; [done|].
  rewrite list_lookup_fmap in Ho. destruct (data !! i) as [r|]; [|done].
  injection Ho as <-. rewrite rowToObj_lookup in Hv.
  destruct (strEq h PROTO); [done|]. unfold cell in Hv.
  destruct (lastIndexFrom 0 h (map trim hd)) as [j|]; [|done].
  injection Hv as <-. split; [apply trim_trim|]. split; [apply trim_head|apply trim_last].
Qed.

Lemma csv_row_values_trimmed_witness :
  trim (js "a.jpg") = js "a.jpg" ∧
  (∀ c, head (js "a.jpg") = Some c -> isWhiteSpace c = false) ∧
  (∀ c, last (js "a.jpg") = Some c -> isWhiteSpace c = false).
Proof.
  apply (csv_row_values_trimmed (js "id,name" ++ [10] ++ js "1,  a.jpg ") 0%nat
           (rowToObj [js "id"; js "name"] [js "1"; js "  a.jpg "]) (js "name")).
  - vm_compute. reflexivity.
  - vm_compute. reflexivity.
Defined.

(** ** Sets kept as lists, and sorting *)

Lemma setAdd_elem_of (x y : jsstring) (s : list jsstring) :
  y ∈ setAdd x s ↔ y = x ∨ y ∈ s.
Proof.
  unfold setAdd. case_bool_decide as Hx.
  - split; [by right|]. by intros [->|?].
  - rewrite elem_of_app, list_elem_of_singleton. tauto.
Qed.

Lemma setAdd_NoDup (x : jsstring) (s : list jsstring) : NoDup s -> NoDup (setAdd x s).
Proof.
  intros Hs. unfold setAdd. case_bool_decide as Hx; [done|].
  apply NoDup_app. split; [done|]. split; [|apply NoDup_singleton].
  intros y Hy ->%list_elem_of_singleton. done.
Qed.

Lemma setAdd_all_elem_of (l acc : list jsstring) (y : jsstring) :
  y ∈ foldl (fun acc t => setAdd t acc) acc l ↔ y ∈ acc ∨ y ∈ l.
Proof.
  revert acc. induction l as [|t l IH]; intros acc; cbn [foldl].
  - rewrite elem_of_nil. tauto.
  - rewrite IH, setAdd_elem_of, elem_of_cons. tauto.
Qed.

Lemma setAdd_all_NoDup (l acc : list jsstring) :
  NoDup acc -> NoDup (foldl (fun acc t => setAdd t acc) acc l).
Proof.
  revert acc. induction l as [|t l IH]; intros acc Hacc; cbn [foldl]; [done|].
  by apply IH, setAdd_NoDup.
Qed.

Section Collect.
Context {A : Type} (step : list jsstring -> A -> list jsstring)
        (contrib : A -> list jsstring).
Hypothesis step_contrib :
  ∀ acc x, step acc x = foldl (fun acc t => setAdd t acc) acc (contrib x).

Lemma collect_elem_of (items : list A) (acc : list jsstring) (y : jsstring) :
  y ∈ foldl step acc items ↔ y ∈ acc ∨ ∃ x, x ∈ items ∧ y ∈ contrib x.
Proof.
  revert acc. induction items as [|x items IH]; intros acc; cbn [foldl].
  - split; [by left|]. intros [?|(x & Hx & _)]; [done|]. by apply elem_of_nil in Hx.
  - rewrite IH, step_contrib, setAdd_all_elem_of. split.
    + intros [[?|?]|(x' & ? & ?)]; [by left| |].
      * right. exists x. split; [by left|done].
      * right. exists x'. split; [by right|done].
    + intros [?|(x' & [->|?]%elem_of_cons & ?)]; [by left; left|by left; right|].
      right. by exists x'.
Qed.

Lemma collect_NoDup (items : list A) (acc : list jsstring) :
  NoDup acc -> NoDup (foldl step acc items).
Proof.
  revert acc. induction items as [|x items IH]; intros acc Hacc; cbn [foldl]; [done|].
  apply IH. rewrite step_contrib. by apply setAdd_all_NoDup.
Qed.
End Collect.

Section SortByComparator.
Context {A : Type} (cmp : A -> A -> Z).

Lemma insertBy_Permutation (x : A) (l : list A) : insertBy cmp x l ≡ₚ x :: l.
Proof.
  induction l as [|y l IH]; cbn [insertBy]; [done|].
  destruct (cmp x y <=? 0)%Z; [done|]. rewrite IH. apply Permutation_swap.
Qed.

Lemma sortBy_Permutation (l : list A) : sortBy cmp l ≡ₚ l.
Proof.
  induction l as [|x l IH]; cbn [sortBy]; [done|].
  by rewrite insertBy_Permutation, IH.
Qed.

Hypothesis cmp_total : ∀ a b, (0 < cmp a b)%Z -> (cmp b a <= 0)%Z.
Hypothesis cmp_trans : ∀ a b c, (cmp a b <= 0)%Z -> (cmp b c <= 0)%Z -> (cmp a c <= 0)%Z.

Lemma insertBy_ordered (x : A) (l : list A) :
  StronglySorted (fun a b => (cmp a b <= 0)%Z) l ->
  StronglySorted (fun a b => (cmp a b <= 0)%Z) (insertBy cmp x l).
Proof.
  induction l as [|y l IH]; intros Hs; cbn [insertBy].
  - repeat constructor.
  - apply StronglySorted_cons in Hs as [Hy Hs].
    destruct (cmp x y <=? 0)%Z eqn:Hc.
    + apply Z.leb_le in Hc. apply StronglySorted_cons. split.
      * constructor; [done|]. eapply Forall_impl; [exact Hy|].
        intros z Hz. by eapply cmp_trans.
      * by apply StronglySorted_cons.
    + apply Z.leb_gt in Hc. apply StronglySorted_cons. split; [|by apply IH].
      apply Forall_forall. intros z Hz.
      rewrite insertBy_Permutation in Hz. apply elem_of_cons in Hz as [->|Hz].
      * apply cmp_total. lia.
      * by eapply Forall_forall in Hy.
Qed.

Lemma sortBy_ordered (l : list A) :
  StronglySorted (fun a b => (cmp a b <= 0)%Z) (sortBy cmp l).
Proof.
  induction l as [|x l IH]; cbn [sortBy]; [constructor|]. by apply insertBy_ordered.
Qed.
End SortByComparator.

Lemma compareStrings_flip (a b : jsstring) :
  compareStrings b a = (- compareStrings a b)%Z.
Proof.
  revert b. induction a as [|c a IH]; intros [|d b]; cbn [compareStrings]; try done.
  destruct (N.ltb_spec c d), (N.ltb_spec d c); try lia; done.
Qed.

Lemma compareStrings_eq (a b : jsstring) : compareStrings a b = 0%Z -> a = b.
Proof.
  revert b. induction a as [|c a IH]; intros [|d b]; cbn [compareStrings]; try done.
  destruct (N.ltb_spec c d), (N.ltb_spec d c); try done.
  intros Heq. f_equal; [lia|by apply IH].
Qed.

Lemma compareStrings_trans (a b c : jsstring) :
  (compareStrings a b <= 0)%Z -> (compareStrings b c <= 0)%Z ->
  (compareStrings a c <= 0)%Z.
Proof.
  revert b c. induction a as [|x a IH]; intros [|y b] [|z c]; cbn [compareStrings];
    try lia.
  destruct (N.ltb_spec x y), (N.ltb_spec y x), (N.ltb_spec y z), (N.ltb_spec z y),
    (N.ltb_spec x z), (N.ltb_spec z x); try lia.
  apply IH.
Qed.

(** The result of [sort()] on distinct strings is strictly ascending. *)
Lemma sortBy_compareStrings_ascending (l : list jsstring) :
  NoDup l ->
  StronglySorted (fun a b => (compareStrings a b < 0)%Z) (sortBy compareStrings l).
Proof.
  intros Hnd.
  assert (Hs : StronglySorted (fun a b => (compareStrings a b <= 0)%Z)
                              (sortBy compareStrings l)).
  { apply sortBy_ordered.
    - intros a b. rewrite (compareStrings_flip a b). lia.
    - apply compareStrings_trans. }
  rewrite <- (sortBy_Permutation compareStrings l) in Hnd.
  induction Hs as [|x s Hs IH Hx]; [constructor|].
  apply NoDup_cons in Hnd as [Hnx Hnd]. constructor; [by apply IH|].
  apply Forall_forall. intros y Hy.
  pose proof (proj1 (Forall_forall _ _) Hx y Hy) as Hle. simpl in Hle.
  destruct (decide (compareStrings x y = 0%Z)) as [He|]; [|lia].
  apply compareStrings_eq in He as ->. done.
Qed.

(** ** The facets *)

Lemma setAdd_filtered (P : jsstring -> bool) (l acc : list jsstring) :
  foldl (fun acc t => if P t then setAdd t acc else acc) acc l
  = foldl (fun acc t => setAdd t acc) acc (List.filter P l).
Proof.
  revert acc. induction l as [|t l IH]; intros acc; cbn [foldl List.filter]; [done|].
  destruct (P t); cbn [foldl]; apply IH.
Qed.

Lemma uniqueTags_elem_of (items : list MediaItem) (t : jsstring) :
  t ∈ uniqueTags items ↔
  t ≠ SENTINEL ∧ ∃ it, it ∈ items ∧ t ∈ splitTags (tags it).
Proof.
  unfold uniqueTags.
  rewrite (collect_elem_of _
    (fun it => List.filter (fun t => negb (strEq t SENTINEL)) (splitTags (tags it))))
    by (intros; apply setAdd_filtered).
  split.
  - intros [H|(it & Hit & Ht)]; [by apply elem_of_nil in H|].
    apply list_elem_of_In, filter_In in Ht as [Ht Hs].
    apply negb_true_iff, strEq_false in Hs. split; [done|].
    exists it. split; [done|]. by apply list_elem_of_In.
  - intros (Hs & it & Hit & Ht). right. exists it. split; [done|].
    apply list_elem_of_In, filter_In. split; [by apply list_elem_of_In|].
    by apply negb_true_iff, strEq_false.
Qed.

Lemma uniqueTags_NoDup (items : list MediaItem) : NoDup (uniqueTags items).
Proof.
  unfold uniqueTags.
  apply (collect_NoDup _
    (fun it => List.filter (fun t => negb (strEq t SENTINEL)) (splitTags (tags it)))).
  - intros. apply setAdd_filtered.
  - constructor.
Qed.

(** X3. The tag facet lists, in strictly ascending code-unit order and so
    without repetition, exactly the tokens of the items' tag fields other
    than the placeholder "منتج". *)
Theorem facet_tags_sorted_and_complete (items : list MediaItem) :
  StronglySorted (fun a b => (compareStrings a b < 0)%Z) (facetTags (unique items)) ∧
  ∀ t, t ∈ facetTags (unique items) ↔
       t ≠ SENTINEL ∧ ∃ it, it ∈ items ∧ t ∈ splitTags (tags it).
Proof.
  cbn [unique facetTags]. split.
  - apply sortBy_compareStrings_ascending, uniqueTags_NoDup.
  - intros t. rewrite (sortBy_Permutation compareStrings (uniqueTags items)).
    apply uniqueTags_elem_of.
Qed.

Lemma one_or_none (b : bool) (x : jsstring) (acc : list jsstring) :
  (if b then setAdd x acc else acc)
  = foldl (fun acc t => setAdd t acc) acc (if b then [x] else []).
Proof. by destruct b. Qed.

(** X4. The colour facet lists, in strictly ascending code-unit order and
    without repetition, exactly the colour names of the items that are not
    blank. *)
Theorem facet_colors_sorted_and_complete (items : list MediaItem) :
  StronglySorted (fun a b => (compareStrings a b < 0)%Z) (facetColors (unique items)) ∧
  ∀ c, c ∈ facetColors (unique items) ↔
       ∃ it, it ∈ items ∧ colorName it = Some c ∧ trim c ≠ [].
Proof.
  cbn [unique facetColors]. unfold uniqueColors.
  pose (contrib := fun it : MediaItem =>
          if isNonEmpty (colorName it) then [default [] (colorName it)] else []).
  split.
  - apply sortBy_compareStrings_ascending.
    apply (collect_NoDup _ contrib); [intros; apply one_or_none|constructor].
  - intros c. rewrite (sortBy_Permutation compareStrings).
    rewrite (collect_elem_of _ contrib) by (intros; apply one_or_none).
    unfold contrib, isNonEmpty. split.
    + intros [H|(it & Hit & Hc)]; [by apply elem_of_nil in H|]. exists it.
      destruct (colorName it) as [[|k col]|]; simpl in Hc;
        try (by apply elem_of_nil in Hc).
      destruct (0 <? length (trim (k :: col)))%nat eqn:Hl;
        [|by apply elem_of_nil in Hc].
      apply list_elem_of_singleton in Hc as ->. split; [done|]. split; [done|].
      intros Ht. rewrite Ht in Hl. discriminate Hl.
    + intros (it & Hit & Hc & Ht). right. exists it. split; [done|]. rewrite Hc.
      destruct c as [|k col]; [done|]. simpl.
      destruct (trim (k :: col)) eqn:Htr; [done|]. simpl. by left.
Qed.

(** X5. The category facet has no repetition and holds exactly the
    categories of the items that are not blank and not the placeholder. *)
Theorem facet_categories_distinct_and_complete (items : list MediaItem) :
  NoDup (facetCategories (unique items)) ∧
  ∀ c, c ∈ facetCategories (unique items) ↔
       ∃ it, it ∈ items ∧ category it = Some c ∧ trim c ≠ [] ∧ c ≠ SENTINEL.
Proof.
  cbn [unique facetCategories]. unfold uniqueCategories.
  pose (contrib := fun it : MediaItem =>
          if isNonEmpty (category it) && negb (strEq (default [] (category it)) SENTINEL)
          then [default [] (category it)] else []).
  split.
  - rewrite sortBy_Permutation.
    apply (collect_NoDup _ contrib); [intros; apply one_or_none|constructor].
  - intros c. rewrite sortBy_Permutation.
    rewrite (collect_elem_of _ contrib) by (intros; apply one_or_none).
    unfold contrib, isNonEmpty. split.
    + intros [H|(it & Hit & Hc)]; [by apply elem_of_nil in H|]. exists it.
      destruct (category it) as [[|k cat]|]; simpl in Hc;
        try (by apply elem_of_nil in Hc).
      destruct (0 <? length (trim (k :: cat)))%nat eqn:Hl;
        [|by apply elem_of_nil in Hc].
      destruct (strEq (k :: cat) SENTINEL) eqn:Hs; [by apply elem_of_nil in Hc|].
      apply list_elem_of_singleton in Hc as ->. split; [done|]. split; [done|].
      apply strEq_false in Hs. split; [|done].
      intros Ht. rewrite Ht in Hl. discriminate Hl.
    + intros (it & Hit & Hc & Ht & Hs). right. exists it. split; [done|]. rewrite Hc.
      apply strEq_false in Hs.
      destruct c as [|k cat]; [done|]. simpl. rewrite Hs.
      destruct (trim (k :: cat)) eqn:Htr; [done|]. simpl. by left.
Qed.

(** ** Tag tokens *)

Lemma split_no_separator (sep : N) (s seg : jsstring) :
  seg ∈ split sep s -> sep ∉ seg.
Proof.
  revert seg. induction s as [|c s IH]; intros seg; cbn [split].
  - intros ->%list_elem_of_singleton. apply not_elem_of_nil.
  - destruct (c =? sep) eqn:Hc.
    + intros [->|Hin]%elem_of_cons; [apply not_elem_of_nil|by apply IH].
    + apply N.eqb_neq in Hc. destruct (split sep s) as [|h t].
      * intros ->%list_elem_of_singleton. by intros [->|?%elem_of_nil]%elem_of_cons.
      * intros [->|Hin]%elem_of_cons.
        -- intros [->|Hh]%elem_of_cons; [done|]. revert Hh. apply IH. by left.
        -- apply IH. by right.
Qed.

Lemma split_without_separator (sep : N) (s : jsstring) :
  sep ∉ s -> split sep s = [s].
Proof.
  induction s as [|c s IH]; [done|]. intros [Hc Hs]%not_elem_of_cons.
  cbn [split]. apply not_eq_sym, N.eqb_neq in Hc. by rewrite Hc, (IH Hs).
Qed.

Lemma trimStart_subset (s : jsstring) (x : N) : x ∈ trimStart s -> x ∈ s.
Proof.
  induction s as [|c s IH]; cbn [trimStart]; [done|].
  destruct (isWhiteSpace c); [|done]. intros H. right. by apply IH.
Qed.

Lemma elem_of_rev_iff (s : jsstring) (x : N) : x ∈ rev s ↔ x ∈ s.
Proof. rewrite !list_elem_of_In. symmetry. apply in_rev. Qed.

Lemma trim_subset (s : jsstring) (x : N) : x ∈ trim s -> x ∈ s.
Proof.
  unfold trim, trimEnd. rewrite elem_of_rev_iff. intros H.
  apply trimStart_subset in H. rewrite elem_of_rev_iff in H.
  by apply trimStart_subset.
Qed.

(** X6. Every token that [splitTags] returns is non-empty, holds no comma
    and has no white space at either end. *)
Theorem splitTags_tokens (tg : option jsstring) (t : jsstring) :
  t ∈ splitTags tg -> t ≠ [] ∧ (44 ∉ t) ∧ trim t = t.
Proof.
  unfold splitTags. destruct (isNonEmpty tg); [|by intros ?%elem_of_nil].
  intros [Ht Hin]%list_elem_of_In%filter_In.
  apply truthy_Some in Hin. split; [done|].
  apply in_map_iff in Ht as (seg & <- & Hseg). split; [|apply trim_trim].
  intros H44%trim_subset. revert H44.
  by apply (split_no_separator 44 (default [] tg)), list_elem_of_In.
Qed.

Lemma splitTags_tokens_witness :
  js "grey marble" ≠ [] ∧ (44 ∉ js "grey marble") ∧ trim (js "grey marble") = js "grey marble".
Proof.
  apply (splitTags_tokens (Some (js "white, grey marble ,,"))).
  apply (bool_decide_unpack _). vm_compute. exact I.
Defined.

(** X7. The first component splits a tag field into the same tokens as
    [splitTags] of the second: its missing test for a blank field makes no
    difference. *)
Theorem tagsArr_is_splitTags (tg : option jsstring) :
  NoCart.tagsArr tg = splitTags tg.
Proof.
  unfold NoCart.tagsArr, splitTags, isNonEmpty.
  destruct tg as [[|c s]|]; [reflexivity| |reflexivity].
  cbn [truthy andb default from_option Datatypes.id].
  destruct (trim (c :: s)) as [|d w] eqn:Ht; [|reflexivity].
  cbn [length Nat.ltb Nat.leb].
  apply trim_nil in Ht.
  rewrite split_without_separator.
  - cbn [map List.filter]. apply trim_nil in Ht. by rewrite Ht.
  - intros H44. apply (proj1 (Forall_forall _ _) Ht) in H44. discriminate H44.
Qed.

(** ** Filtering twice *)

Lemma filter_filter_and {A : Type} (f g : A -> bool) (l : list A) :
  List.filter f (List.filter g l) = List.filter (fun x => g x && f x) l.
Proof.
  induction l as [|x l IH]; cbn [List.filter]; [done|].
  destruct (g x); cbn [List.filter andb]; [|exact IH].
  destruct (f x); by rewrite IH.
Qed.

Lemma filter_ext_bool {A : Type} (f g : A -> bool) (l : list A) :
  (∀ x, f x = g x) -> List.filter f l = List.filter g l.
Proof.
  intros H. induction l as [|x l IH]; cbn [List.filter]; [done|].
  by rewrite H, IH.
Qed.

(** X8. Narrowing the list by tags and then by categories, or by
    categories and then by tags, under the same query, gives the list that
    one call with both selections gives; and filtering a filtered list
    again with the same selection changes nothing. *)
Theorem filtered_composes (floatToString : jsstring -> jsstring)
    (items : list MediaItem) (q : jsstring) (ts cs : list jsstring) :
  filtered floatToString (filtered floatToString items q ts []) q [] cs
  = filtered floatToString items q ts cs
  ∧ filtered floatToString (filtered floatToString items q [] cs) q ts []
    = filtered floatToString items q ts cs
  ∧ filtered floatToString (filtered floatToString items q ts cs) q ts cs
    = filtered floatToString items q ts cs.
Proof.
  unfold filtered. rewrite !filter_filter_and.
  repeat split; apply filter_ext_bool; intros it; unfold itemMatches;
    cbn zeta;
    repeat match goal with
           | |- context [negb ?b || ?c] => generalize (negb b || c); intros ?
           | |- context [match ?l with [] => true | _ :: _ => ?e end] =>
               generalize (match l with [] => true | _ :: _ => e end); intros ?
           end;
    repeat match goal with b : bool |- _ => destruct b end; reflexivity.
Qed.

(** ** Chips *)

Lemma existsb_strEq (x : jsstring) (l : list jsstring) :
  existsb (strEq x) l = true ↔ x ∈ l.
Proof.
  rewrite existsb_exists. split.
  - intros (y & Hy & ->%strEq_true). by apply list_elem_of_In.
  - intros H. exists x. split; [by apply list_elem_of_In|by apply strEq_true].
Qed.

Lemma filter_out_elem_of (v x : jsstring) (l : list jsstring) :
  x ∈ List.filter (fun y => negb (strEq y v)) l ↔ x ≠ v ∧ x ∈ l.
Proof.
  rewrite list_elem_of_In, filter_In, negb_true_iff, strEq_false, <- list_elem_of_In.
  tauto.
Qed.

Lemma filter_out_absent (v : jsstring) (l : list jsstring) :
  v ∉ l -> List.filter (fun y => negb (strEq y v)) l = l.
Proof.
  induction l as [|x l IH]; [done|]. intros [Hx Hl]%not_elem_of_cons.
  cbn [List.filter]. apply not_eq_sym, strEq_false in Hx. rewrite Hx. cbn [negb].
  by rewrite (IH Hl).
Qed.

Lemma filter_out_NoDup (v : jsstring) (l : list jsstring) :
  NoDup l -> NoDup (List.filter (fun y => negb (strEq y v)) l).
Proof.
  induction 1 as [|x l Hx Hl IH]; cbn [List.filter]; [constructor|].
  destruct (negb (strEq x v)); [|done]. constructor; [|done].
  rewrite filter_out_elem_of. tauto.
Qed.

(** X9. Toggling a chip flips the membership of its value and of no other
    value, and keeps a selection free of repetitions that way. *)
Theorem toggle_flips_membership (prev : list jsstring) (value : jsstring) :
  (value ∈ toggle prev value ↔ value ∉ prev)
  ∧ (∀ x, x ≠ value -> (x ∈ toggle prev value ↔ x ∈ prev))
  ∧ (NoDup prev -> NoDup (toggle prev value)).
Proof.
  unfold toggle. destruct (existsb (strEq value) prev) eqn:He.
  - apply existsb_strEq in He. split; [|split].
    + rewrite filter_out_elem_of. tauto.
    + intros x Hx. rewrite filter_out_elem_of. tauto.
    + apply filter_out_NoDup.
  - assert (Hn : value ∉ prev).
    { intros H. apply existsb_strEq in H. congruence. }
    split; [|split].
    + rewrite elem_of_app, list_elem_of_singleton. tauto.
    + intros x Hx. rewrite elem_of_app, list_elem_of_singleton. tauto.
    + intros Hnd. apply NoDup_app. split; [done|]. split; [|apply NoDup_singleton].
      intros y Hy ->%list_elem_of_singleton. done.
Qed.

(** Toggling twice: a value that was not selected leaves the selection as
    it was; a value that was selected ends up last. *)
Lemma toggle_twice_cases (prev : list jsstring) (value : jsstring) :
  (value ∉ prev -> toggle (toggle prev value) value = prev)
  ∧ (value ∈ prev ->
     toggle (toggle prev value) value
     = List.filter (fun x => negb (strEq x value)) prev ++ [value]).
Proof.
  split; intros Hv.
  - assert (existsb (strEq value) prev = false) as He.
    { destruct (existsb (strEq value) prev) eqn:He; [|done].
      by apply existsb_strEq in He. }
    unfold toggle at 2. rewrite He. unfold toggle.
    assert (existsb (strEq value) (prev ++ [value]) = true) as ->.
    { apply existsb_strEq, elem_of_app. right. by left. }
    rewrite List.filter_app, (filter_out_absent _ _ Hv). cbn [List.filter].
    assert (strEq value value = true) as -> by (by apply strEq_true).
    apply app_nil_r.
  - apply existsb_strEq in Hv. unfold toggle at 2. rewrite Hv. unfold toggle.
    assert (existsb (strEq value) (List.filter (fun x => negb (strEq x value)) prev)
            = false) as ->; [|done].
    apply not_true_is_false. intros He.
    apply existsb_strEq in He. apply filter_out_elem_of in He. tauto.
Qed.

(** X10. Toggling twice a value that was not selected gives the selection
    back exactly as it was. *)
Theorem toggle_twice_restores (prev : list jsstring) (value : jsstring) :
  value ∉ prev -> toggle (toggle prev value) value = prev.
Proof. apply toggle_twice_cases. Qed.

Lemma toggle_twice_restores_witness :
  toggle (toggle [js "white"; js "grey"] (js "beige")) (js "beige")
  = [js "white"; js "grey"].
Proof.
  apply toggle_twice_restores. apply (bool_decide_unpack _). vm_compute. exact I.
Defined.

Lemma setAdd_all_NoDup_id (l acc : list jsstring) :
  NoDup (acc ++ l) -> foldl (fun acc t => setAdd t acc) acc l = acc ++ l.
Proof.
  revert acc. induction l as [|t l IH]; intros acc Hnd; cbn [foldl].
  - by rewrite app_nil_r.
  - assert (Ht : t ∉ acc).
    { apply NoDup_app in Hnd as (_ & Hd & _). intros Hin. apply (Hd t Hin). by left. }
    unfold setAdd at 2. rewrite bool_decide_eq_false_2 by done.
    rewrite IH; rewrite <- app_assoc; done.
Qed.

(** X11. On a selection without repetitions the toggle of the first
    component, which goes through a [Set], gives the same list as the
    toggle of the second. *)
Theorem toggle_versions_agree (arr : list jsstring) (value : jsstring) :
  NoDup arr -> NoCart.toggle arr value = toggle arr value.
Proof.
  intros Hnd. unfold NoCart.toggle, toggle.
  rewrite (setAdd_all_NoDup_id arr []) by done. cbn [app].
  destruct (existsb (strEq value) arr) eqn:He.
  - apply existsb_strEq in He. by rewrite bool_decide_eq_true_2.
  - rewrite bool_decide_eq_false_2; [done|].
    intros H. apply existsb_strEq in H. congruence.
Qed.

Lemma toggle_versions_agree_witness :
  NoCart.toggle [js "white"; js "grey"] (js "white") = toggle [js "white"; js "grey"] (js "white").
Proof.
  apply toggle_versions_agree. apply (bool_decide_unpack _). vm_compute. exact I.
Defined.

(** ** What normalisation keeps *)

Lemma normalizeItem_fields (it it' : MediaItem) :
  normalizeItem it = Some it' ->
  (id it', rid it', name it', type it', folder it', tags it',
   colorName it', colorHex it', original_ext it')
  = (id it, rid it, name it, type it, folder it, tags it,
     colorName it, colorHex it, original_ext it)
  ∧ displayName it' = Some (buildDisplayName it').
Proof.
  unfold normalizeItem. destruct (normalizeUrlPath (src it)) as [e|]; [|done].
  cbn [mbind option_bind]. intros [= <-]. split; reflexivity.
Qed.

Lemma buildDisplayName_nil (it : MediaItem) :
  buildDisplayName it = [] -> cleanFileName (name it) = [].
Proof.
  unfold buildDisplayName.
  destruct (category it) as [[|c cat]|], (colorName it) as [col|]; simpl;
    try destruct (trim col) as [|k color]; simpl; done.
Qed.

Lemma normalizeItems_kept (toLowerCase : jsstring -> jsstring)
    (arr out : list MediaItem) :
  normalizeItems toLowerCase arr = Some out ->
  Forall (fun it' => keepItem toLowerCase it' = true
                     ∧ ∃ it, normalizeItem it = Some it') out.
Proof.
  unfold normalizeItems. destruct (mapM normalizeItem arr) as [mapped|] eqn:Hm; [|done].
  cbn [fmap option_fmap option_map]. intros [= <-]. apply mapM_Some_1 in Hm.
  induction Hm as [|it it' arr mapped Hit _ IH]; cbn [List.filter]; [constructor|].
  destruct (keepItem toLowerCase it') eqn:Hk; [|exact IH].
  constructor; [|exact IH]. split; [done|]. by exists it.
Qed.

Lemma keepItem_src (toLowerCase : jsstring -> jsstring) (it : MediaItem) :
  keepItem toLowerCase it = true ->
  trim (src it) ≠ [] ∧ shouldSkipPath toLowerCase (src it) = false.
Proof.
  unfold keepItem, isNonEmpty. intros Hk.
  apply andb_true_iff in Hk as [Hne Hskip].
  apply andb_true_iff in Hne as [_ Hlen]. apply negb_true_iff in Hskip.
  split; [|done].
  intros Ht. cbn [default from_option Datatypes.id] in Hlen.
  rewrite Ht in Hlen. discriminate Hlen.
Qed.

(** X12. Every item that [normalizeItems] returns has a source that is not
    blank and not junk, and a display name that is the one built from its
    own final category, colour and name, whatever display name came in. *)
Theorem normalizeItems_output_invariant (toLowerCase : jsstring -> jsstring)
    (arr out : list MediaItem) :
  normalizeItems toLowerCase arr = Some out ->
  Forall (fun it => trim (src it) ≠ []
                    ∧ shouldSkipPath toLowerCase (src it) = false
                    ∧ displayName it = Some (buildDisplayName it)) out.
Proof.
  intros Hn. apply normalizeItems_kept in Hn.
  eapply Forall_impl; [exact Hn|]. intros it' [Hk (it & Hit)].
  apply keepItem_src in Hk as [Hs Hskip]. split; [done|]. split; [done|].
  by apply normalizeItem_fields in Hit as [_ ?].
Qed.

Lemma normalizeItems_output_invariant_witness :
  Forall (fun it => trim (src it) ≠ []
                    ∧ shouldSkipPath toLowerCaseLatin (src it) = false
                    ∧ displayName it = Some (buildDisplayName it))
    [withDisplay (js "b")
       (bareItem (Int 2) (js "b.jpg") (js "/m/b.jpg"))].
Proof.
  apply (normalizeItems_output_invariant toLowerCaseLatin
           [bareItem (Int 1) (js "a.heic") (js "/m/a.HEIC");
            withDisplay (js "old") (bareItem (Int 2) (js "b.jpg") (js "/m/b.jpg"));
            bareItem (Int 3) (js "c.jpg") []]).
  vm_compute. reflexivity.
Defined.

(** X13. [normalizeItems] drops items and never reorders or invents them:
    the ids, names, types, tags, colours and folders of its output are
    those of a subsequence of its input, unchanged. *)
Theorem normalizeItems_stable (toLowerCase : jsstring -> jsstring)
    (arr out : list MediaItem) :
  normalizeItems toLowerCase arr = Some out ->
  sublist
    (map (fun it => (id it, rid it, name it, type it, folder it, tags it,
                     colorName it, colorHex it, original_ext it)) out)
    (map (fun it => (id it, rid it, name it, type it, folder it, tags it,
                     colorName it, colorHex it, original_ext it)) arr).
Proof.
  unfold normalizeItems. destruct (mapM normalizeItem arr) as [mapped|] eqn:Hm; [|done].
  cbn [fmap option_fmap option_map]. intros [= <-]. apply mapM_Some_1 in Hm.
  induction Hm as [|it it' arr mapped Hit _ IH]; cbn [List.filter map]; [constructor|].
  apply normalizeItem_fields in Hit as [Hf _].
  destruct (keepItem toLowerCase it'); cbn [map].
  - rewrite Hf. by apply sublist_skip.
  - by apply sublist_cons.
Qed.

Lemma normalizeItems_stable_witness :
  sublist
    (map (fun it => (id it, rid it, name it, type it, folder it, tags it,
                     colorName it, colorHex it, original_ext it))
         [withDisplay (js "b") (bareItem (Int 2) (js "b.jpg") (js "/m/b.jpg"))])
    (map (fun it => (id it, rid it, name it, type it, folder it, tags it,
                     colorName it, colorHex it, original_ext it))
         [bareItem (Int 1) (js "a.heic") (js "/m/a.HEIC");
          withDisplay (js "old") (bareItem (Int 2) (js "b.jpg") (js "/m/b.jpg"));
          bareItem (Int 3) (js "c.jpg") []]).
Proof.
  apply (normalizeItems_stable toLowerCaseLatin). vm_compute. reflexivity.
Defined.

(** ** The featured picture *)

Lemma find_first {A : Type} (f : A -> bool) (l : list A) :
  match List.find f l with
  | Some x => ∃ pre post, l = pre ++ x :: post ∧ f x = true
                          ∧ ∀ y, y ∈ pre -> f y = false
  | None => ∀ y, y ∈ l -> f y = false
  end.
Proof.
  induction l as [|a l IH]; cbn [List.find].
  - intros y Hy. by apply elem_of_nil in Hy.
  - destruct (f a) eqn:Ha.
    + exists [], l. split; [done|]. split; [done|]. intros y Hy. by apply elem_of_nil in Hy.
    + destruct (List.find f l) as [x|].
      * destruct IH as (pre & post & -> & Hx & Hpre).
        exists (a :: pre), post. split; [done|]. split; [done|].
        intros y [->|Hy]%elem_of_cons; [done|by apply Hpre].
      * intros y [->|Hy]%elem_of_cons; [done|by apply IH].
Qed.

Lemma featured_test (x : MediaItem) :
  strEq (type x) (js "image") && truthy (Some (src x)) = false ↔
  type x ≠ js "image" ∨ src x = [].
Proof.
  rewrite andb_false_iff, strEq_false. split.
  - intros [?|Hs]; [by left|right]. by destruct (src x).
  - intros [?| ->]; [by left|by right].
Qed.

(** X14. [getFeatured] picks the first item that is an image and has a
    source, and gives nothing when there is none; the name it shows is the
    item's display name, or the cleaned file name when that is missing or
    empty. *)
Theorem getFeatured_first_image (items : list MediaItem) :
  match getFeatured items with
  | None => ∀ it, it ∈ items -> type it ≠ js "image" ∨ src it = []
  | Some f =>
      ∃ pre it post, items = pre ++ it :: post
        ∧ (∀ x, x ∈ pre -> type x ≠ js "image" ∨ src x = [])
        ∧ type it = js "image" ∧ src it ≠ []
        ∧ featuredId f = id it ∧ featuredSrc f = src it
        ∧ featuredColorName f = colorName it
        ∧ featuredName f = match displayName it with
                           | Some (c :: d) => c :: d
                           | _ => cleanFileName (name it)
                           end
  end.
Proof.
  unfold getFeatured.
  pose proof (find_first
    (fun x => strEq (type x) (js "image") && truthy (Some (src x))) items) as H.
  destruct (List.find _ items) as [it|].
  - destruct H as (pre & post & -> & Hit & Hpre).
    exists pre, it, post. split; [done|]. split.
    + intros x Hx. by apply featured_test, Hpre.
    + apply andb_true_iff in Hit as [Ht Hs].
      apply strEq_true in Ht. apply truthy_Some in Hs.
      cbn [featuredId featuredSrc featuredColorName featuredName].
      repeat (split; [done|]). by destruct (displayName it) as [[|c d]|].
  - intros it Hit. by apply featured_test, H.
Qed.

(** X15. On a list that [normalizeItems] returned, the featured picture is
    the first item of type image, and its name is that item's display
    name: the fallback to the cleaned file name adds nothing there. *)
Theorem getFeatured_of_normalized (toLowerCase : jsstring -> jsstring)
    (arr out : list MediaItem) :
  normalizeItems toLowerCase arr = Some out ->
  match getFeatured out with
  | None => ∀ it, it ∈ out -> type it ≠ js "image"
  | Some f =>
      ∃ pre it post, out = pre ++ it :: post
        ∧ (∀ x, x ∈ pre -> type x ≠ js "image")
        ∧ type it = js "image"
        ∧ featuredSrc f = src it
        ∧ displayName it = Some (featuredName f)
  end.
Proof.
  intros Hn. apply normalizeItems_kept in Hn.
  assert (Hsrc : ∀ x, x ∈ out -> src x ≠ []).
  { intros x Hx. apply (proj1 (Forall_forall _ _) Hn) in Hx as [[Hs _]%keepItem_src _].
    intros Heq. by rewrite Heq in Hs. }
  unfold getFeatured.
  pose proof (find_first
    (fun x => strEq (type x) (js "image") && truthy (Some (src x))) out) as Hf.
  destruct (List.find _ out) as [it|].
  - destruct Hf as (pre & post & Hout & Hit & Hpre).
    apply andb_true_iff in Hit as [Ht%strEq_true _].
    exists pre, it, post. split; [done|]. split.
    + intros x Hx. destruct (proj1 (featured_test x) (Hpre x Hx)) as [?|Hs]; [done|].
      exfalso. apply (Hsrc x); [|done]. rewrite Hout. apply elem_of_app. by left.
    + split; [done|]. split; [done|]. cbn [featuredName].
      assert (Hin : it ∈ out).
      { rewrite Hout. apply elem_of_app. right. by left. }
      apply (proj1 (Forall_forall _ _) Hn) in Hin as (_ & it0 & Hd).
      apply normalizeItem_fields in Hd as [_ Hd]. rewrite Hd.
      destruct (buildDisplayName it) eqn:Hb; [|done].
      by rewrite (buildDisplayName_nil _ Hb).
  - intros it Hit. destruct (proj1 (featured_test it) (Hf it Hit)) as [?|Hs]; [done|].
    by apply Hsrc in Hit.
Qed.

Lemma getFeatured_of_normalized_witness :
  match getFeatured [withDisplay [] (bareItem (Int 1) (js "_.jpg") (js "/m/_.jpg"));
                     withDisplay (js "b") (bareItem (Int 2) (js "b.jpg") (js "/m/b.jpg"))] with
  | None => ∀ it, it ∈ [withDisplay [] (bareItem (Int 1) (js "_.jpg") (js "/m/_.jpg"));
                        withDisplay (js "b") (bareItem (Int 2) (js "b.jpg") (js "/m/b.jpg"))]
                  -> type it ≠ js "image"
  | Some f =>
      ∃ pre it post,
        [withDisplay [] (bareItem (Int 1) (js "_.jpg") (js "/m/_.jpg"));
         withDisplay (js "b") (bareItem (Int 2) (js "b.jpg") (js "/m/b.jpg"))]
        = pre ++ it :: post
        ∧ (∀ x, x ∈ pre -> type x ≠ js "image")
        ∧ type it = js "image"
        ∧ featuredSrc f = src it
        ∧ displayName it = Some (featuredName f)
  end.
Proof.
  apply (getFeatured_of_normalized toLowerCaseLatin
           [bareItem (Int 1) (js "_.jpg") (js "/m/_.jpg");
            bareItem (Int 2) (js "b.jpg") (js "/m/b.jpg")]).
  vm_compute. reflexivity.
Defined.

(** ** Which category, which date *)

(** X16. An item's own category, when it is not empty and not the
    placeholder, is kept whatever the path says. Otherwise the category is
    the first label of the reference list, in its order, that occurs in the
    decoded text of folder and encoded source, and absent when none
    occurs. *)
Theorem category_priority (it it' : MediaItem) :
  normalizeItem it = Some it' ->
  (∀ c, category it = Some c -> c ≠ [] -> c ≠ SENTINEL -> category it' = Some c)
  ∧ (category it = None ∨ category it = Some [] ∨ category it = Some SENTINEL ->
     match category it' with
     | None =>
         ∀ l, l ∈ ZIP_CATEGORIES ->
              includes (safeDecode (default [] (folder it) ++ [32] ++ src it')) l = false
     | Some l =>
         ∃ before_l after_l, ZIP_CATEGORIES = before_l ++ l :: after_l
           ∧ includes (safeDecode (default [] (folder it) ++ [32] ++ src it')) l = true
           ∧ ∀ l', l' ∈ before_l ->
               includes (safeDecode (default [] (folder it) ++ [32] ++ src it')) l' = false
     end).
Proof.
  intros Hn. apply normalizeItem_category in Hn as (e & _ & -> & ->).
  unfold deriveCategoryFromPath. split.
  - intros c -> Hne Hs. apply strEq_false in Hs. cbn [default from_option Datatypes.id].
    rewrite Hs. by destruct c.
  - intros Hc.
    assert (truthy (category it) && negb (strEq (default [] (category it)) SENTINEL) = false)
      as -> by (destruct Hc as [->|[->| ->]]; vm_compute; reflexivity).
    pose proof (find_first
      (fun cat => includes (safeDecode (default [] (folder it) ++ [32] ++ e)) cat)
      ZIP_CATEGORIES) as Hf.
    destruct (List.find _ ZIP_CATEGORIES) as [l|]; [|exact Hf].
    destruct Hf as (pre & post & Hz & Hl & Hpre). by exists pre, post.
Qed.

Lemma category_priority_witness :
  let it := withFolder (js "درج وطاولات/مغاسل")
              (bareItem (Int 1) (js "a.jpg") (js "/رخام و سيراميك/a.jpg")) in
  let it' := withDisplay (js "مغاسل")
               (withCategory (js "مغاسل")
                  (withFolder (js "درج وطاولات/مغاسل")
                     (bareItem (Int 1) (js "a.jpg")
                        (js "/%D8%B1%D8%AE%D8%A7%D9%85%20%D9%88%20%D8%B3%D9%8A%D8%B1%D8%A7%D9%85%D9%8A%D9%83/a.jpg")))) in
  (∀ c, category it = Some c -> c ≠ [] -> c ≠ SENTINEL -> category it' = Some c)
  ∧ (category it = None ∨ category it = Some [] ∨ category it = Some SENTINEL ->
     match category it' with
     | None =>
         ∀ l, l ∈ ZIP_CATEGORIES ->
              includes (safeDecode (default [] (folder it) ++ [32] ++ src it')) l = false
     | Some l =>
         ∃ before_l after_l, ZIP_CATEGORIES = before_l ++ l :: after_l
           ∧ includes (safeDecode (default [] (folder it) ++ [32] ++ src it')) l = true
           ∧ ∀ l', l' ∈ before_l ->
               includes (safeDecode (default [] (folder it) ++ [32] ++ src it')) l' = false
     end).
Proof.
  apply category_priority. vm_compute. reflexivity.
Defined.

(** X17. Normalisation never makes up a date: a year that differs from
    the one given is four digits beginning with 20, a month that differs
    is two digits, and either stands in the encoded source between
    slashes, as /20NN/NN/. *)
Theorem inferred_date_comes_from_path (it it' : MediaItem) :
  normalizeItem it = Some it' ->
  (year it' = year it ∧ month it' = month it)
  ∨ ∃ pre d1 d2 d3 d4 post,
      src it' = pre ++ [47; 50; 48; d1; d2; 47; d3; d4; 47] ++ post
      ∧ isDigit d1 = true ∧ isDigit d2 = true ∧ isDigit d3 = true ∧ isDigit d4 = true
      ∧ (year it' = year it ∨ year it' = Some [50; 48; d1; d2])
      ∧ (month it' = month it ∨ month it' = Some [d3; d4]).
Proof.
  unfold normalizeItem. destruct (normalizeUrlPath (src it)) as [e|]; [|done].
  cbn [mbind option_bind]. intros [= <-]. cbn [year month src].
  destruct (matchYearMonth e) as [[y m]|] eqn:Hm; [|by left].
  right. apply matchYearMonth_sound in Hm
    as (pre & d1 & d2 & d3 & d4 & post & -> & -> & -> & H1 & H2 & H3 & H4 & _).
  exists pre, d1, d2, d3, d4, post. split; [done|]. repeat (split; [done|]).
  split.
  - destruct (missingOrUnknown (year it)); [by right|by left].
  - destruct (missingOrUnknown (month it)); [by right|by left].
Qed.

Lemma inferred_date_comes_from_path_witness :
  let it' := withDisplay (js "a")
               (withDate (Some (js "2021")) (Some (js "03"))
                  (bareItem (Int 1) (js "a.jpg") (js "/m/2021/03/a.jpg"))) in
  let it := bareItem (Int 1) (js "a.jpg") (js "/m/2021/03/a.jpg") in
  (year it' = year it ∧ month it' = month it)
  ∨ ∃ pre d1 d2 d3 d4 post,
      src it' = pre ++ [47; 50; 48; d1; d2; 47; d3; d4; 47] ++ post
      ∧ isDigit d1 = true ∧ isDigit d2 = true ∧ isDigit d3 = true ∧ isDigit d4 = true
      ∧ (year it' = year it ∨ year it' = Some [50; 48; d1; d2])
      ∧ (month it' = month it ∨ month it' = Some [d3; d4]).
Proof.
  apply inferred_date_comes_from_path. vm_compute. reflexivity.
Defined.

(** ** Escapes and their decoding *)

Ltac divlia := zify; Z.to_euclidean_division_equations; lia.

Ltac settle_comparison :=
  match goal with
  | |- context [?a <? ?b] =>
      first [ assert ((a <? b) = true) as -> by (apply N.ltb_lt; divlia)
            | assert ((a <? b) = false) as -> by (apply N.ltb_ge; divlia) ]
  | |- context [?a <=? ?b] =>
      first [ assert ((a <=? b) = true) as -> by (apply N.leb_le; divlia)
            | assert ((a <=? b) = false) as -> by (apply N.leb_gt; divlia) ]
  end.

Ltac settle := repeat (settle_comparison; cbn [andb orb negb]).

Lemma hexVal_hexDigit (n : N) : n < 16 -> hexVal (hexDigit n) = Some n.
Proof.
  intros Hn. unfold hexVal, hexDigit, isDigit.
  destruct (N.ltb_spec n 10) as [H|H]; settle; f_equal; lia.
Qed.

Lemma hexDigit_unescaped (n : N) : n < 16 -> uriUnescaped (hexDigit n) = true.
Proof.
  intros Hn. unfold uriUnescaped, hexDigit, isAlpha, isDigit.
  destruct (N.ltb_spec n 10) as [H|H]; settle; reflexivity.
Qed.

Lemma percent_is_escaped (c : N) : uriUnescaped c = true -> c ≠ 37.
Proof. intros H ->. vm_compute in H. discriminate H. Qed.

Lemma pctTokens_pct (b : N) (rest : jsstring) :
  b < 256 -> pctTokens (pct b ++ rest) = (Oct b ::.) <$> pctTokens rest.
Proof.
  intros Hb. unfold pct. cbn [app pctTokens]. rewrite N.eqb_refl.
  rewrite !hexVal_hexDigit by divlia.
  replace (16 * (b / 16) + b mod 16) with b by divlia. reflexivity.
Qed.

Lemma pctTokens_octets (bs : list N) (rest : jsstring) :
  Forall (fun b => b < 256) bs ->
  pctTokens (flat_map pct bs ++ rest) = (map Oct bs ++.) <$> pctTokens rest.
Proof.
  induction 1 as [|b bs Hb _ IH]; cbn [flat_map map app].
  - by destruct (pctTokens rest).
  - rewrite <- app_assoc, (pctTokens_pct _ _ Hb), IH.
    by destruct (pctTokens rest).
Qed.

Lemma utf8_octets (cp : N) : cp < 0x110000 -> Forall (fun b => b < 256) (utf8 cp).
Proof.
  intros Hcp. unfold utf8.
  destruct (N.ltb_spec cp 0x80); [|destruct (N.ltb_spec cp 0x800);
    [|destruct (N.ltb_spec cp 0x10000)]];
    repeat constructor; divlia.
Qed.

Lemma pct_safe (b : N) :
  b < 256 -> Forall (fun c => uriUnescaped c = true ∨ c = 37) (pct b).
Proof.
  intros Hb. unfold pct.
  apply Forall_cons. split; [by right|].
  apply Forall_cons. split; [left; apply hexDigit_unescaped; divlia|].
  apply Forall_cons. split; [left; apply hexDigit_unescaped; divlia|].
  constructor.
Qed.

Lemma octets_safe (bs : list N) :
  Forall (fun b => b < 256) bs ->
  Forall (fun c => uriUnescaped c = true ∨ c = 37) (flat_map pct bs).
Proof.
  induction 1 as [|b bs Hb _ IH]; cbn [flat_map]; [constructor|].
  apply Forall_app. split; [by apply pct_safe|done].
Qed.

Lemma utf16Tokens_utf8 (cp : N) (ts : list token) :
  cp < 0x110000 -> ¬ (0xD800 <= cp <= 0xDFFF) ->
  utf16Tokens (map Oct (utf8 cp) ++ ts) = (utf16 cp ++.) <$> utf16Tokens ts.
Proof.
  intros Hcp Hs. unfold utf8.
  destruct (N.ltb_spec cp 0x80) as [H1|H1].
  - cbn [map app utf16Tokens]. settle. unfold utf16. settle. reflexivity.
  - destruct (N.ltb_spec cp 0x800) as [H2|H2].
    + cbn [map app utf16Tokens continuation]. settle.
      replace ((0xC0 + cp / 64 - 0xC0) * 64 + (0x80 + cp mod 64 - 0x80)) with cp
        by divlia. settle. reflexivity.
    + destruct (N.ltb_spec cp 0x10000) as [H3|H3].
      * cbn [map app utf16Tokens continuation]. settle.
        replace ((0xE0 + cp / 4096 - 0xE0) * 4096
                 + (0x80 + (cp / 64) mod 64 - 0x80) * 64
                 + (0x80 + cp mod 64 - 0x80)) with cp by divlia. settle.
        destruct (N.leb_spec 0xD800 cp), (N.leb_spec cp 0xDFFF); cbn [andb];
          try lia; reflexivity.
      * cbn [map app utf16Tokens continuation]. settle.
        replace ((0xF0 + cp / 262144 - 0xF0) * 262144
                 + (0x80 + (cp / 4096) mod 64 - 0x80) * 4096
                 + (0x80 + (cp / 64) mod 64 - 0x80) * 64
                 + (0x80 + cp mod 64 - 0x80)) with cp by divlia. settle. reflexivity.
Qed.

Lemma surrogate_bounds (c : N) :
  (isLeadSurrogate c = true ↔ 0xD800 <= c <= 0xDBFF)
  ∧ (isTrailSurrogate c = true ↔ 0xDC00 <= c <= 0xDFFF).
Proof.
  unfold isLeadSurrogate, isTrailSurrogate.
  rewrite !andb_true_iff, !N.leb_le. tauto.
Qed.

Lemma utf16_pair (c d : N) :
  isLeadSurrogate c = true -> isTrailSurrogate d = true ->
  let cp := 0x10000 + (c - 0xD800) * 1024 + (d - 0xDC00) in
  cp < 0x110000 ∧ ¬ (0xD800 <= cp <= 0xDFFF) ∧ utf16 cp = [c; d].
Proof.
  intros Hc%surrogate_bounds Hd%surrogate_bounds cp. subst cp.
  split; [lia|]. split; [lia|]. unfold utf16.
  assert ((0x10000 + (c - 0xD800) * 1024 + (d - 0xDC00) <? 0x10000) = false) as ->
    by (apply N.ltb_ge; lia).
  f_equal; [divlia|f_equal; divlia].
Qed.

Lemma utf16_unit (c : N) : c < 0x10000 -> utf16 c = [c].
Proof. intros Hc. unfold utf16. apply N.ltb_lt in Hc. by rewrite Hc. Qed.

(** What [encodeURIComponent] returns is made of unescaped characters and
    percent signs, and reads back, token by token, as its argument. *)
Lemma encodeURIComponent_spec (n : nat) :
  ∀ s e, (length s <= n)%nat -> Forall (fun c => c < 0x10000) s ->
    encodeURIComponent s = Some e ->
    Forall (fun c => uriUnescaped c = true ∨ c = 37) e
    ∧ ∃ toks, (∀ rest, pctTokens (e ++ rest) = (toks ++.) <$> pctTokens rest)
              ∧ (∀ ts, utf16Tokens (toks ++ ts) = (s ++.) <$> utf16Tokens ts).
Proof.
  induction n as [|n IH]; intros s e Hlen Hwf.
  - destruct s; [|simpl in Hlen; lia]. intros [= <-]. split; [constructor|].
    exists []. split; [intros x; cbn [app]; by destruct (pctTokens x)
      |intros ts; cbn [app]; by destruct (utf16Tokens ts)].
  - destruct s as [|c rest]; cbn [encodeURIComponent].
    { intros [= <-]. split; [constructor|].
      exists []. split; [intros x; cbn [app]; by destruct (pctTokens x)
      |intros ts; cbn [app]; by destruct (utf16Tokens ts)]. }
    apply Forall_cons in Hwf as [Hc Hwf]. cbn [length] in Hlen.
    destruct (uriUnescaped c) eqn:Hu.
    + destruct (encodeURIComponent rest) as [e'|] eqn:He; [|done].
      intros [= <-].
      destruct (IH rest e' ltac:(lia) Hwf He) as (Hsafe & toks & Hp & Ht).
      split; [constructor; [by left|done]|].
      exists (Lit c :: toks). split.
      * intros x. cbn [app pctTokens].
        pose proof (percent_is_escaped c Hu) as Hne. apply N.eqb_neq in Hne.
        rewrite Hne, Hp. by destruct (pctTokens x).
      * intros ts. cbn [app utf16Tokens]. rewrite Ht. by destruct (utf16Tokens ts).
    + destruct (isLeadSurrogate c) eqn:Hl.
      * destruct rest as [|d rest']; [done|].
        destruct (isTrailSurrogate d) eqn:Htr; [|done].
        destruct (encodeURIComponent rest') as [e'|] eqn:He; [|done].
        cbn zeta. intros [= <-].
        apply Forall_cons in Hwf as [Hd Hwf]. cbn [length] in Hlen.
        destruct (IH rest' e' ltac:(lia) Hwf He) as (Hsafe & toks & Hp & Ht).
        destruct (utf16_pair c d Hl Htr) as (Hcp & Hns & Hpair).
        split.
        { apply Forall_app. split; [|done]. by apply octets_safe, utf8_octets. }
        exists (map Oct (utf8 (0x10000 + (c - 0xD800) * 1024 + (d - 0xDC00))) ++ toks).
        split.
        -- intros x. rewrite <- !app_assoc, pctTokens_octets by (by apply utf8_octets).
           rewrite Hp. destruct (pctTokens x); cbn [fmap option_fmap option_map]; [|done].
           by rewrite app_assoc.
        -- intros ts. rewrite <- app_assoc, (utf16Tokens_utf8 _ _ Hcp Hns), Ht, Hpair.
           by destruct (utf16Tokens ts).
      * destruct (isTrailSurrogate c) eqn:Htr; [done|].
        destruct (encodeURIComponent rest) as [e'|] eqn:He; [|done].
        intros [= <-].
        destruct (IH rest e' ltac:(lia) Hwf He) as (Hsafe & toks & Hp & Ht).
        assert (Hns : ¬ (0xD800 <= c <= 0xDFFF)).
        { intros Hr. destruct (surrogate_bounds c) as [H1 H2].
          destruct (N.le_gt_cases c 0xDBFF).
          - assert (isLeadSurrogate c = true) by (apply H1; lia). congruence.
          - assert (isTrailSurrogate c = true) by (apply H2; lia). congruence. }
        assert (Hcp : c < 0x110000) by lia.
        split.
        { apply Forall_app. split; [|done]. by apply octets_safe, utf8_octets. }
        exists (map Oct (utf8 c) ++ toks). split.
        -- intros x. rewrite <- !app_assoc, pctTokens_octets by (by apply utf8_octets).
           rewrite Hp. destruct (pctTokens x); cbn [fmap option_fmap option_map]; [|done].
           by rewrite app_assoc.
        -- intros ts. rewrite <- app_assoc, (utf16Tokens_utf8 _ _ Hcp Hns), Ht.
           rewrite (utf16_unit _ Hc). by destruct (utf16Tokens ts).
Qed.

Lemma decodeURIComponent_encoded_prefix (s e rest : jsstring) :
  Forall (fun c => c < 0x10000) s -> encodeURIComponent s = Some e ->
  decodeURIComponent (e ++ rest) = (s ++.) <$> decodeURIComponent rest.
Proof.
  intros Hwf He.
  destruct (encodeURIComponent_spec (length s) s e (le_n _) Hwf He)
    as (_ & toks & Hp & Ht).
  unfold decodeURIComponent. rewrite Hp.
  destruct (pctTokens rest) as [tr|]; cbn [fmap option_fmap option_map mbind option_bind];
    [|done].
  apply Ht.
Qed.

Lemma decodeURIComponent_literal_prefix (a rest : jsstring) :
  37 ∉ a -> decodeURIComponent (a ++ rest) = (a ++.) <$> decodeURIComponent rest.
Proof.
  intros Ha. unfold decodeURIComponent. rewrite (pctTokens_literal_prefix _ _ Ha).
  destruct (pctTokens rest) as [tr|]; cbn [fmap option_fmap option_map mbind option_bind];
    [|done].
  apply utf16Tokens_literal_prefix.
Qed.

Lemma decodeURIComponent_join (segs encs : list jsstring) :
  Forall2 (fun seg enc => encodeURIComponent seg = Some enc) segs encs ->
  Forall (Forall (fun c => c < 0x10000)) segs ->
  decodeURIComponent (join [47] encs) = Some (join [47] segs).
Proof.
  induction 1 as [|seg enc segs encs He Hrest IH]; intros Hwf; [done|].
  apply Forall_cons in Hwf as [Hseg Hwf].
  destruct Hrest as [|seg' enc' segs encs He' Hrest].
  - cbn [join]. rewrite <- (app_nil_r enc).
    rewrite (decodeURIComponent_encoded_prefix _ _ _ Hseg He).
    change (decodeURIComponent []) with (Some (@nil N)).
    cbn [fmap option_fmap option_map]. by rewrite app_nil_r.
  - rewrite !join_cons.
    rewrite (decodeURIComponent_encoded_prefix _ _ _ Hseg He).
    rewrite (decodeURIComponent_literal_prefix [47])
      by (by intros ?%list_elem_of_singleton).
    by rewrite (IH Hwf).
Qed.

Lemma split_subset (sep : N) (s seg : jsstring) (x : N) :
  seg ∈ split sep s -> x ∈ seg -> x ∈ s.
Proof.
  revert seg. induction s as [|c s IH]; intros seg; cbn [split].
  - by intros ->%list_elem_of_singleton.
  - destruct (c =? sep).
    + intros [->|Hin]%elem_of_cons Hx; [by apply elem_of_nil in Hx|].
      right. by eapply IH.
    + destruct (split sep s) as [|h t].
      * intros ->%list_elem_of_singleton ->%list_elem_of_singleton. by left.
      * intros [->|Hin]%elem_of_cons Hx.
        -- apply elem_of_cons in Hx as [->|Hx]; [by left|].
           right. eapply IH; [by left|done].
        -- right. eapply IH; [by right|done].
Qed.

Lemma stripLeadingSlashes_subset (p : jsstring) (x : N) :
  x ∈ stripLeadingSlashes p -> x ∈ p.
Proof.
  induction p as [|c p IH]; cbn [stripLeadingSlashes]; [done|].
  destruct (c =? 47); [|done]. intros H. right. by apply IH.
Qed.

Lemma segments_well_formed (p : jsstring) :
  Forall (fun c => c < 0x10000) p ->
  Forall (Forall (fun c => c < 0x10000)) (split 47 (stripLeadingSlashes p)).
Proof.
  intros Hp. apply Forall_forall. intros seg Hseg. apply Forall_forall. intros x Hx.
  apply (proj1 (Forall_forall _ _) Hp).
  by eapply stripLeadingSlashes_subset, split_subset.
Qed.

(** A path that is not an absolute URL comes out as one optional slash and
    its encoded segments joined by slashes. *)
Lemma normalizeUrlPath_local_shape (p e : jsstring) :
  hasProto p = false -> normalizeUrlPath p = Some e ->
  ∃ encs,
    Forall2 (fun seg enc => encodeURIComponent seg = Some enc)
            (split 47 (stripLeadingSlashes p)) encs
    ∧ e = (if startsWith p [47] then [47] else []) ++ join [47] encs.
Proof.
  intros Hproto. unfold normalizeUrlPath. destruct p as [|c p].
  - intros [= <-]. exists [[]]. split; [by repeat constructor|done].
  - rewrite Hproto.
    destruct (mapM encodeURIComponent (split 47 (stripLeadingSlashes (c :: p))))
      as [encs|] eqn:Hm; [|done].
    cbn [mbind option_bind]. intros [= <-]. exists encs. split; [|done].
    by apply mapM_Some_1.
Qed.

Lemma join_Forall (P : N -> Prop) (sep : N) (parts : list jsstring) :
  P sep -> Forall (Forall P) parts -> Forall P (join [sep] parts).
Proof.
  intros Hsep. induction 1 as [|x parts Hx Hparts IH]; [constructor|].
  destruct parts as [|y parts]; [done|]. rewrite join_cons.
  apply Forall_app. split; [done|]. by constructor.
Qed.

Lemma normalizeUrlPath_local_safe (p e : jsstring) :
  hasProto p = false -> Forall (fun c => c < 0x10000) p ->
  normalizeUrlPath p = Some e ->
  Forall (fun c => uriUnescaped c = true ∨ c = 37 ∨ c = 47) e.
Proof.
  intros Hproto Hwf He.
  destruct (normalizeUrlPath_local_shape _ _ Hproto He) as (encs & Hencs & ->).
  apply Forall_app. split.
  - destruct (startsWith p [47]); [|constructor].
    apply Forall_cons. split; [by right; right|constructor].
  - apply join_Forall; [by right; right|].
    pose proof (segments_well_formed p Hwf) as Hsegs. clear He. revert Hsegs.
    induction Hencs as [|seg enc segs encs He' _ IH]; intros Hsegs; [constructor|].
    apply Forall_cons in Hsegs as [Hseg Hsegs]. constructor; [|by apply IH].
    destruct (encodeURIComponent_spec (length seg) seg enc (le_n _) Hseg He')
      as (Hsafe & _).
    eapply Forall_impl; [exact Hsafe|]. intros c [?|?]; tauto.
Qed.

Lemma normalizeUrlPath_local_decode (p e : jsstring) :
  hasProto p = false -> Forall (fun c => c < 0x10000) p ->
  normalizeUrlPath p = Some e ->
  decodeURIComponent e = Some (oneLeadingSlash p).
Proof.
  intros Hproto Hwf He.
  destruct (normalizeUrlPath_local_shape _ _ Hproto He) as (encs & Hencs & ->).
  rewrite decodeURIComponent_literal_prefix.
  - rewrite (decodeURIComponent_join _ _ Hencs (segments_well_formed p Hwf)).
    by rewrite join_split.
  - destruct (startsWith p [47]); [|apply not_elem_of_nil].
    by intros ?%list_elem_of_singleton.
Qed.

Lemma unescaped_is_printable (c : N) : uriUnescaped c = true -> 33 <= c <= 126.
Proof.
  unfold uriUnescaped, isAlpha, isDigit.
  rewrite !orb_true_iff, !andb_true_iff, !N.leb_le, !N.eqb_eq. lia.
Qed.

Lemma printable_is_not_white_space (c : N) : 33 <= c <= 126 -> isWhiteSpace c = false.
Proof.
  intros Hc. unfold isWhiteSpace.
  rewrite !orb_false_iff, !andb_false_iff, !N.leb_gt, !N.eqb_neq. lia.
Qed.

Lemma safe_is_not_white_space (c : N) :
  uriUnescaped c = true ∨ c = 37 ∨ c = 47 -> isWhiteSpace c = false.
Proof.
  intros [H|[->| ->]]; [|reflexivity|reflexivity].
  by apply printable_is_not_white_space, unescaped_is_printable.
Qed.

Lemma hasProto_head (p : jsstring) :
  hasProto p = true -> ∃ c rest, p = c :: rest ∧ lowerUnit c = 104.
Proof.
  unfold hasProto, startsWithI. destruct p as [|c rest]; [done|].
  intros H. exists c, rest. split; [done|].
  apply orb_true_iff in H as [H|H];
    apply startsWith_spec in H as [r Hr]; by injection Hr.
Qed.

Lemma hasProto_not_blank (p : jsstring) : hasProto p = true -> trim p ≠ [].
Proof.
  intros (c & rest & -> & Hc)%hasProto_head Ht. apply trim_nil in Ht.
  apply Forall_cons in Ht as [Hws _]. unfold lowerUnit in Hc.
  destruct ((65 <=? c) && (c <=? 90)).
  - assert (c = 72) as -> by lia. discriminate Hws.
  - subst c. discriminate Hws.
Qed.

Lemma normalizeItem_src (it it' : MediaItem) :
  normalizeItem it = Some it' -> normalizeUrlPath (src it) = Some (src it').
Proof.
  intros (e & He & <- & _)%normalizeItem_category. exact He.
Qed.

Lemma normalizeUrlPath_proto (p e : jsstring) :
  hasProto p = true -> normalizeUrlPath p = Some e -> e = p.
Proof.
  intros Hproto. unfold normalizeUrlPath. destruct p as [|c p]; [by intros [= <-]|].
  rewrite Hproto. by intros [= <-].
Qed.

(** ** Normalising twice, in general *)

Lemma utf8_cons (cp : N) : ∃ b bs, utf8 cp = b :: bs.
Proof.
  unfold utf8. destruct (cp <? 0x80); [by eexists _, _|].
  destruct (cp <? 0x800); [by eexists _, _|].
  destruct (cp <? 0x10000); by eexists _, _.
Qed.

Lemma escape_shape (cp : N) (rest : jsstring) :
  ∃ h1 h2 tl, flat_map pct (utf8 cp) ++ rest = 37 :: h1 :: h2 :: tl
              ∧ (length rest <= length tl)%nat.
Proof.
  destruct (utf8_cons cp) as (b & bs & ->). cbn [flat_map pct app].
  eexists _, _, _. split; [reflexivity|]. rewrite length_app. lia.
Qed.

(** Encoding never shortens a string, and a string that comes out no longer,
    or without a percent sign, had nothing to escape. *)
Lemma encodeURIComponent_grows (n : nat) :
  ∀ s e, (length s <= n)%nat -> encodeURIComponent s = Some e ->
    (length s <= length e)%nat
    ∧ ((length e <= length s)%nat ∨ 37 ∉ e -> forallb uriUnescaped s = true).
Proof.
  induction n as [|n IH]; intros s e Hlen.
  - destruct s; [|simpl in Hlen; lia]. by intros [= <-].
  - destruct s as [|c rest]; [by intros [= <-]|].
    cbn [length] in Hlen. cbn [encodeURIComponent forallb].
    destruct (uriUnescaped c) eqn:Hu.
    + destruct (encodeURIComponent rest) as [e'|] eqn:He; [|done]. intros [= <-].
      destruct (IH rest e' ltac:(lia) He) as [Hle Hplain].
      cbn [length andb]. split; [lia|]. intros [H|H]; apply Hplain.
      * left. lia.
      * right. intros Hin. apply H. by right.
    + cbn [andb]. destruct (isLeadSurrogate c).
      * destruct rest as [|d rest']; [done|].
        destruct (isTrailSurrogate d); [|done].
        destruct (encodeURIComponent rest') as [e'|] eqn:He; [|done].
        cbn zeta. intros [= <-]. cbn [length] in Hlen.
        destruct (IH rest' e' ltac:(lia) He) as [Hle _].
        destruct (escape_shape (0x10000 + (c - 0xD800) * 1024 + (d - 0xDC00)) e')
          as (h1 & h2 & tl & -> & Htl).
        cbn [length]. split; [lia|]. intros [H|H]; [lia|].
        exfalso. apply H. by left.
      * destruct (isTrailSurrogate c); [done|].
        destruct (encodeURIComponent rest) as [e'|] eqn:He; [|done].
        intros [= <-].
        destruct (IH rest e' ltac:(lia) He) as [Hle _].
        destruct (escape_shape c e') as (h1 & h2 & tl & -> & Htl).
        cbn [length]. split; [lia|]. intros [H|H]; [lia|].
        exfalso. apply H. by left.
Qed.

Lemma encodeURIComponent_head (s e : jsstring) :
  encodeURIComponent s = Some e -> s ≠ [] -> ∃ c tl, e = c :: tl ∧ c ≠ 47.
Proof.
  destruct s as [|c rest]; [done|]. intros He _. cbn [encodeURIComponent] in He.
  destruct (uriUnescaped c) eqn:Hu.
  - destruct (encodeURIComponent rest) as [e'|]; [|done]. injection He as <-.
    exists c, e'. split; [done|]. intros ->. vm_compute in Hu. discriminate Hu.
  - destruct (isLeadSurrogate c).
    + destruct rest as [|d rest']; [done|]. destruct (isTrailSurrogate d); [|done].
      destruct (encodeURIComponent rest') as [e'|]; [|done]. cbn zeta in He.
      injection He as <-.
      destruct (escape_shape (0x10000 + (c - 0xD800) * 1024 + (d - 0xDC00)) e')
        as (h1 & h2 & tl & -> & _). by eexists _, _.
    + destruct (isTrailSurrogate c); [done|].
      destruct (encodeURIComponent rest) as [e'|]; [|done]. injection He as <-.
      destruct (escape_shape c e') as (h1 & h2 & tl & -> & _). by eexists _, _.
Qed.

Lemma join_length (sep x y : jsstring) (l : list jsstring) :
  length (join sep (x :: y :: l))
  = (length x + length sep + length (join sep (y :: l)))%nat.
Proof. rewrite join_cons, !length_app. lia. Qed.

Lemma elem_of_join (sep : jsstring) (parts : list jsstring) (x : jsstring) (c : N) :
  x ∈ parts -> c ∈ x -> c ∈ join sep parts.
Proof.
  induction parts as [|y parts IH]; [by intros ?%elem_of_nil|].
  intros Hx Hc. destruct parts as [|z parts].
  - apply list_elem_of_singleton in Hx as ->. exact Hc.
  - rewrite join_cons. apply elem_of_app.
    apply elem_of_cons in Hx as [->|Hx]; [by left|].
    right. apply elem_of_app. right. by apply IH.
Qed.

(** Segments and their encodings, joined: the encoded text is no shorter,
    and if it is no longer, or has no percent sign, no segment had
    anything to escape and the two texts are the same. *)
Lemma join_encoded (segs encs : list jsstring) :
  Forall2 (fun seg enc => encodeURIComponent seg = Some enc) segs encs ->
  (length (join [47%N] segs) <= length (join [47%N] encs))%nat
  ∧ ((length (join [47%N] encs) <= length (join [47%N] segs))%nat ∨ 37 ∉ join [47] encs ->
     Forall (fun seg => forallb uriUnescaped seg = true) segs ∧ encs = segs).
Proof.
  induction 1 as [|seg enc segs encs He Hrest IH]; [done|].
  destruct (encodeURIComponent_grows _ seg enc (le_n _) He) as [Hle Hplain].
  assert (Hsame : forallb uriUnescaped seg = true -> enc = seg).
  { intros Hp. rewrite (encodeURIComponent_unescaped _ Hp) in He. by injection He. }
  destruct Hrest as [|seg' enc' segs encs He' Hrest].
  - cbn [join]. split; [done|]. intros Hor.
    assert (Hp : forallb uriUnescaped seg = true) by (apply Hplain; tauto).
    split; [by repeat constructor|]. by rewrite (Hsame Hp).
  - destruct IH as [IHle IHplain]. rewrite !join_length. split; [lia|].
    intros Hor.
    assert (Hp : forallb uriUnescaped seg = true).
    { apply Hplain. destruct Hor as [Hl|Hn]; [left; lia|right].
      intros Hin. apply Hn. rewrite join_cons. apply elem_of_app. by left. }
    destruct IHplain as [Hall Heq].
    { destruct Hor as [Hl|Hn]; [left; lia|right].
      intros Hin. apply Hn. rewrite join_cons. apply elem_of_app. right.
      apply elem_of_app. by right. }
    split; [by constructor|]. by rewrite (Hsame Hp), Heq.
Qed.

Lemma split_head_nil (sep : N) (s : jsstring) (t : list jsstring) :
  split sep s = [] :: t -> (s = [] ∧ t = []) ∨ ∃ s', s = sep :: s'.
Proof.
  destruct s as [|c s]; cbn [split]; [intros [= <-]; by left|].
  destruct (c =? sep) eqn:Hc.
  - apply N.eqb_eq in Hc as ->. intros _. right. by eexists.
  - by destruct (split sep s).
Qed.

(** The encoded segments of a path, joined, do not begin with a slash. *)
Lemma join_encoded_no_slash (p : jsstring) (encs : list jsstring) :
  Forall2 (fun seg enc => encodeURIComponent seg = Some enc)
          (split 47 (stripLeadingSlashes p)) encs ->
  startsWith (join [47] encs) [47] = false.
Proof.
  intros Hencs. pose proof (stripLeadingSlashes_no_slash p) as Hns.
  destruct (split 47 (stripLeadingSlashes p)) as [|seg segs] eqn:Hsplit;
    [by apply split_nonempty in Hsplit|].
  apply Forall2_cons_inv_l in Hencs as (enc & encs' & He & Hrest & ->).
  destruct seg as [|c seg].
  - apply split_head_nil in Hsplit as [[_ ->]|[s' Hs']].
    + apply Forall2_nil_inv_l in Hrest as ->. by injection He as <-.
    + rewrite Hs' in Hns. cbn in Hns. discriminate Hns.
  - destruct (encodeURIComponent_head _ _ He) as (d & tl & -> & Hd); [done|].
    assert (Hh : ∀ x, startsWith (d :: x) [47] = false).
    { intros x. cbn [startsWith]. apply N.eqb_neq in Hd.
      by rewrite N.eqb_sym, Hd. }
    destruct encs' as [|enc' encs']; [apply Hh|]. rewrite join_cons. apply Hh.
Qed.

Lemma forallb_plain_join (segs : list jsstring) :
  Forall (fun seg => forallb uriUnescaped seg = true) segs ->
  forallb plainPathChar (join [47] segs) = true.
Proof.
  intros Hsegs. apply forallb_forall. intros c Hc%list_elem_of_In. revert c Hc.
  apply Forall_forall, join_Forall; [reflexivity|].
  eapply Forall_impl; [exact Hsegs|]. intros seg Hseg.
  apply Forall_forall. intros c Hc%list_elem_of_In.
  unfold plainPathChar. by rewrite (proj1 (forallb_forall _ _) Hseg c Hc).
Qed.

(** What [normalizeUrlPath] returned it returns again unchanged exactly
    when that is an absolute URL or has no percent sign. *)
Lemma normalizeUrlPath_fixed_iff (p e : jsstring) :
  normalizeUrlPath p = Some e ->
  (normalizeUrlPath e = Some e ↔ hasProto e = true ∨ 37 ∉ e).
Proof.
  intros He. destruct (hasProto p) eqn:Hproto.
  { pose proof (normalizeUrlPath_proto _ _ Hproto He) as ->.
    split; [intros _; by left|intros _; exact He]. }
  destruct (normalizeUrlPath_local_shape _ _ Hproto He) as (encs & Hencs & ->).
  clear He. pose proof (join_encoded_no_slash _ _ Hencs) as Hns.
  set (l := if startsWith p [47] then [47] else []) in *.
  set (J := join [47] encs) in *.
  assert (Hstrip : stripLeadingSlashes (l ++ J) = J).
  { subst l. destruct (startsWith p [47]); cbn [app stripLeadingSlashes];
      [rewrite N.eqb_refl|]; by apply stripLeadingSlashes_id. }
  assert (Hlead : (if startsWith (l ++ J) [47] then [47] else []) = l).
  { subst l. destruct (startsWith p [47]); cbn [app]; [done|]. by rewrite Hns. }
  assert (Hl : 37 ∉ l).
  { subst l. destruct (startsWith p [47]); [|apply not_elem_of_nil].
    by intros ?%list_elem_of_singleton. }
  destruct (hasProto (l ++ J)) eqn:Hproto'.
  { split; [by left|]. intros _. unfold normalizeUrlPath. rewrite Hproto'.
    by destruct (l ++ J). }
  split.
  - intros Hfix. right.
    destruct (normalizeUrlPath_local_shape _ _ Hproto' Hfix) as (encs' & Hencs' & Heq).
    rewrite Hstrip, Hlead in *. apply app_inv_head in Heq.
    destruct (join_encoded _ _ Hencs') as [_ Hplain].
    destruct Hplain as [Hall _]; [left; by rewrite <- Heq, join_split|].
    apply forallb_plain_join in Hall. rewrite join_split in Hall.
    intros [Hin|Hin]%elem_of_app; [done|].
    apply list_elem_of_In in Hin.
    pose proof (proj1 (forallb_forall _ _) Hall 37 Hin) as H37.
    vm_compute in H37. discriminate H37.
  - intros [?|Hno]; [congruence|].
    destruct (join_encoded _ _ Hencs) as [_ Hplain].
    destruct Hplain as [Hall Heq].
    { right. intros Hin. apply Hno, elem_of_app. by right. }
    assert (Hchars : forallb plainPathChar (l ++ J) = true).
    { rewrite forallb_app. subst J. rewrite Heq, (forallb_plain_join _ Hall), andb_true_r.
      subst l. by destruct (startsWith p [47]). }
    destruct (normalizeUrlPath_plain _ Hchars) as [H|H]; [done|].
    rewrite H. f_equal. unfold oneLeadingSlash. by rewrite Hlead, Hstrip.
Qed.

Lemma filter_all_length {A} (f : A -> bool) (l : list A) :
  length (List.filter f l) = length l -> List.filter f l = l.
Proof.
  induction l as [|x l IH]; [done|]. cbn [List.filter].
  destruct (f x); cbn [length].
  - intros [= H]. by rewrite (IH H).
  - intros H. pose proof (List.filter_length_le f l). lia.
Qed.

(** A second pass returns the list unchanged exactly when it leaves every
    [src] alone. *)
Lemma normalizeItems_fixed_iff_src_fixed (toLowerCase : jsstring -> jsstring)
    (arr out : list MediaItem) :
  normalizeItems toLowerCase arr = Some out ->
  (normalizeItems toLowerCase out = Some out
   ↔ Forall (fun it => normalizeUrlPath (src it) = Some (src it)) out).
Proof.
  intros Hn. split; [|by apply normalizeItems_fixed_when_src_fixed with arr].
  unfold normalizeItems at 1.
  destruct (mapM normalizeItem out) as [mapped|] eqn:Hm; [|done].
  cbn [fmap option_fmap option_map]. intros [= Hf]. apply mapM_Some_1 in Hm.
  assert (Hmapped : mapped = out).
  { rewrite <- Hf. symmetry. apply filter_all_length.
    rewrite Hf. by eapply Forall2_length. }
  rewrite Hmapped in Hm. clear -Hm.
  apply Forall_forall. intros it Hit.
  apply list_elem_of_lookup in Hit as [i Hi].
  pose proof (Forall2_lookup_lr _ _ _ _ _ _ Hm Hi Hi) as Hfix.
  by apply normalizeItem_src in Hfix.
Qed.

(** C1 (as the code has it). Normalising a second time returns the result
    of the first pass unchanged, field by field, exactly when every source
    in that result is an absolute http(s) URL or holds no percent sign. *)
Theorem normalizeItems_idempotent_iff (toLowerCase : jsstring -> jsstring)
    (arr out : list MediaItem) :
  normalizeItems toLowerCase arr = Some out ->
  (normalizeItems toLowerCase out = Some out
   ↔ Forall (fun it => hasProto (src it) = true ∨ 37 ∉ src it) out).
Proof.
  intros Hn. rewrite (normalizeItems_fixed_iff_src_fixed _ _ _ Hn).
  apply normalizeItems_kept in Hn.
  rewrite !Forall_forall. split; intros H it Hit.
  - destruct (proj1 (Forall_forall _ _) Hn it Hit) as [_ (it0 & H0%normalizeItem_src)].
    apply (normalizeUrlPath_fixed_iff _ _ H0), H, Hit.
  - destruct (proj1 (Forall_forall _ _) Hn it Hit) as [_ (it0 & H0%normalizeItem_src)].
    apply (normalizeUrlPath_fixed_iff _ _ H0), H, Hit.
Qed.

Lemma normalizeItems_idempotent_iff_witness :
  normalizeItems toLowerCaseLatin
    [withDisplay (js "a") (bareItem (Int 1) (js "a.jpg") (js "/media/a.jpg"));
     withDisplay (js "b") (bareItem (Int 2) (js "b.jpg") (js "https://example.com/a%20b.jpg"))]
  = Some [withDisplay (js "a") (bareItem (Int 1) (js "a.jpg") (js "/media/a.jpg"));
          withDisplay (js "b") (bareItem (Int 2) (js "b.jpg") (js "https://example.com/a%20b.jpg"))]
  ↔ Forall (fun it => hasProto (src it) = true ∨ 37 ∉ src it)
      [withDisplay (js "a") (bareItem (Int 1) (js "a.jpg") (js "/media/a.jpg"));
       withDisplay (js "b") (bareItem (Int 2) (js "b.jpg") (js "https://example.com/a%20b.jpg"))].
Proof.
  apply (normalizeItems_idempotent_iff toLowerCaseLatin
           [bareItem (Int 1) (js "a.jpg") (js "//media/a.jpg");
            bareItem (Int 2) (js "b.jpg") (js "https://example.com/a%20b.jpg");
            bareItem (Int 3) (js "c.heic") (js "/media/c d.heic")]).
  vm_compute. reflexivity.
Defined.

(** ** Sources after normalisation *)

(** X18. Every source that [normalizeItems] returns is either the absolute
    http(s) URL that came in, untouched, or made only of slashes, percent
    signs and characters that need no escape: a local path leaves as plain
    ASCII. *)
Theorem normalized_sources_are_url_safe (toLowerCase : jsstring -> jsstring)
    (arr out : list MediaItem) :
  Forall (fun it => Forall (fun c => c < 0x10000) (src it)) arr ->
  normalizeItems toLowerCase arr = Some out ->
  Forall (fun it => hasProto (src it) = true
                    ∨ Forall (fun c => uriUnescaped c = true ∨ c = 37 ∨ c = 47) (src it))
         out.
Proof.
  intros Hwf. unfold normalizeItems.
  destruct (mapM normalizeItem arr) as [mapped|] eqn:Hm; [|done].
  cbn [fmap option_fmap option_map]. intros [= <-]. apply mapM_Some_1 in Hm.
  revert Hwf. induction Hm as [|it it' arr mapped Hit _ IH]; intros Hwf;
    cbn [List.filter]; [constructor|].
  apply Forall_cons in Hwf as [Hsrc Hwf].
  destruct (keepItem toLowerCase it'); [|by apply IH].
  constructor; [|by apply IH].
  apply normalizeItem_src in Hit.
  destruct (hasProto (src it)) eqn:Hproto.
  - left. by rewrite (normalizeUrlPath_proto _ _ Hproto Hit).
  - right. by eapply normalizeUrlPath_local_safe.
Qed.

Lemma normalized_sources_are_url_safe_witness :
  Forall (fun it => hasProto (src it) = true
                    ∨ Forall (fun c => uriUnescaped c = true ∨ c = 37 ∨ c = 47) (src it))
    [withDisplay (js "a b")
       (bareItem (Int 1) (js "a b.jpg")
          (js "/media/a%20b%C3%A9.jpg"));
     withDisplay (js "c")
       (bareItem (Int 2) (js "c.jpg") (js "http://example.com/c d.jpg"))].
Proof.
  apply (normalized_sources_are_url_safe toLowerCaseLatin
           [bareItem (Int 1) (js "a b.jpg") (js "//media/a bé.jpg");
            bareItem (Int 2) (js "c.jpg") (js "http://example.com/c d.jpg")]).
  - apply (bool_decide_unpack _). vm_compute. exact I.
  - vm_compute. reflexivity.
Defined.

(** X19. [normalizeItems] returns a list whenever no source holds a
    surrogate code unit: the only exception it can raise is the one
    [encodeURIComponent] raises on an unpaired surrogate. *)
Theorem normalizeItems_total_without_surrogates (toLowerCase : jsstring -> jsstring)
    (arr : list MediaItem) :
  Forall (fun it => Forall (fun c => isLeadSurrogate c = false
                                     ∧ isTrailSurrogate c = false) (src it)) arr ->
  is_Some (normalizeItems toLowerCase arr).
Proof.
  intros Harr. unfold normalizeItems.
  assert (is_Some (mapM normalizeItem arr)) as [mapped ->]; [|by eexists].
  apply mapM_is_Some_2. eapply Forall_impl; [exact Harr|].
  intros it Hsrc. cbn [compose]. unfold normalizeItem.
  assert (is_Some (normalizeUrlPath (src it))) as [e ->]; [|by eexists].
  unfold normalizeUrlPath. destruct (src it) as [|c p] eqn:Hp; [by eexists|].
  destruct (hasProto (c :: p)); [by eexists|].
  assert (is_Some (mapM encodeURIComponent (split 47 (stripLeadingSlashes (c :: p)))))
    as [encs ->]; [|by eexists].
  apply mapM_is_Some_2, Forall_forall. intros seg Hseg. cbn [compose].
  assert (Hs : Forall (fun c => isLeadSurrogate c = false ∧ isTrailSurrogate c = false) seg).
  { apply Forall_forall. intros x Hx. apply (proj1 (Forall_forall _ _) Hsrc).
    rewrite Hp. by eapply stripLeadingSlashes_subset, split_subset. }
  clear -Hs. induction Hs as [|x seg [Hl Ht] _ [e He]]; [by eexists|].
  cbn [encodeURIComponent]. rewrite Hl, Ht, He. destruct (uriUnescaped x); by eexists.
Qed.

Lemma normalizeItems_total_without_surrogates_witness :
  is_Some (normalizeItems toLowerCaseLatin
             [bareItem (Int 1) (js "a b.jpg") (js "/مغاسل/a b.jpg")]).
Proof.
  apply normalizeItems_total_without_surrogates.
  apply (bool_decide_unpack _). vm_compute. exact I.
Defined.

(** X20. Decoding the encoded source of a local path gives the path back,
    its leading slashes made one; so the text in which a category label is
    looked for, when the folder has no percent sign, is the folder, a
    space and that path. *)
Theorem encoded_source_decodes_to_path (it it' : MediaItem) :
  hasProto (src it) = false -> Forall (fun c => c < 0x10000) (src it) ->
  normalizeItem it = Some it' ->
  decodeURIComponent (src it') = Some (oneLeadingSlash (src it))
  ∧ (37 ∉ default [] (folder it) ->
     safeDecode (default [] (folder it) ++ [32] ++ src it')
     = default [] (folder it) ++ [32] ++ oneLeadingSlash (src it)).
Proof.
  intros Hproto Hwf Hn. apply normalizeItem_src in Hn.
  pose proof (normalizeUrlPath_local_decode _ _ Hproto Hwf Hn) as Hd.
  split; [exact Hd|]. intros Hf.
  rewrite (app_assoc _ [32]). rewrite safeDecode_literal_prefix.
  - unfold safeDecode. rewrite Hd. by rewrite <- app_assoc.
  - intros [?|?%list_elem_of_singleton]%elem_of_app; [done|discriminate].
Qed.

Lemma encoded_source_decodes_to_path_witness :
  let it := withFolder (js "رخام و سيراميك")
              (bareItem (Int 1) (js "a.jpg") (js "//صور/a b.jpg")) in
  let it' := withDisplay (js "رخام و سيراميك")
               (withCategory (js "رخام و سيراميك")
                  (withFolder (js "رخام و سيراميك")
                     (bareItem (Int 1) (js "a.jpg") (js "/%D8%B5%D9%88%D8%B1/a%20b.jpg")))) in
  decodeURIComponent (src it') = Some (oneLeadingSlash (src it))
  ∧ (37 ∉ default [] (folder it) ->
     safeDecode (default [] (folder it) ++ [32] ++ src it')
     = default [] (folder it) ++ [32] ++ oneLeadingSlash (src it)).
Proof.
  apply encoded_source_decodes_to_path.
  - vm_compute. reflexivity.
  - apply (bool_decide_unpack _). vm_compute. exact I.
  - vm_compute. reflexivity.
Defined.

(** X21. A WhatsApp link is the fixed address followed by a text made only
    of percent signs and characters that need no escape, and decoding that
    text gives the message back. *)
Theorem waLink_round_trip (msg link : jsstring) :
  Forall (fun c => c < 0x10000) msg -> waLink msg = Some link ->
  ∃ text, link = js "https://wa.me/966530162210?text=" ++ text
          ∧ Forall (fun c => uriUnescaped c = true ∨ c = 37) text
          ∧ decodeURIComponent text = Some msg.
Proof.
  intros Hwf. unfold waLink.
  destruct (encodeURIComponent msg) as [text|] eqn:He; [|done].
  cbn [mbind option_bind]. intros [= <-]. exists text. split.
  - vm_compute. reflexivity.
  - destruct (encodeURIComponent_spec (length msg) msg text (le_n _) Hwf He)
      as (Hsafe & _).
    split; [done|]. rewrite <- (app_nil_r text).
    rewrite (decodeURIComponent_encoded_prefix _ _ _ Hwf He).
    change (decodeURIComponent []) with (Some (@nil N)).
    cbn [fmap option_fmap option_map]. by rewrite app_nil_r.
Qed.

Lemma waLink_round_trip_witness :
  ∃ text,
    js "https://wa.me/966530162210?text=%D9%85%D8%B1%D8%AD%D8%A8%D8%A7%D9%8B%20%231"
    = js "https://wa.me/966530162210?text=" ++ text
    ∧ Forall (fun c => uriUnescaped c = true ∨ c = 37) text
    ∧ decodeURIComponent text = Some (js "مرحباً #1").
Proof.
  apply waLink_round_trip.
  - apply (bool_decide_unpack _). vm_compute. exact I.
  - vm_compute. reflexivity.
Defined.

(** X22. The test for a blank source after encoding only ever catches an
    empty source: white space in a local path is escaped, so an item whose
    source is made of spaces is kept, and an absolute URL is never blank. *)
Theorem blank_after_encoding_means_empty (it it' : MediaItem) :
  Forall (fun c => c < 0x10000) (src it) ->
  normalizeItem it = Some it' ->
  (trim (src it') = [] ↔ src it = []).
Proof.
  intros Hwf Hn. apply normalizeItem_src in Hn. split.
  - intros Ht. destruct (hasProto (src it)) eqn:Hproto.
    + rewrite (normalizeUrlPath_proto _ _ Hproto Hn) in Ht.
      by apply hasProto_not_blank in Hproto.
    + pose proof (normalizeUrlPath_local_safe _ _ Hproto Hwf Hn) as Hsafe.
      pose proof (normalizeUrlPath_local_decode _ _ Hproto Hwf Hn) as Hd.
      apply trim_nil in Ht.
      assert (He : src it' = []).
      { destruct (src it') as [|c e]; [done|].
        apply Forall_cons in Ht as [Hws _]. apply Forall_cons in Hsafe as [Hc _].
        apply safe_is_not_white_space in Hc. congruence. }
      rewrite He in Hd. injection Hd as Hd. unfold oneLeadingSlash in Hd.
      symmetry in Hd. apply app_eq_nil in Hd as [Hl Hs].
      destruct (startsWith (src it) [47]) eqn:Hst; [done|].
      by rewrite (stripLeadingSlashes_id _ Hst) in Hs.
  - intros Hs. rewrite Hs in Hn. by injection Hn as <-.
Qed.

Lemma blank_after_encoding_means_empty_witness :
  trim (js "%20%20") = [] ↔ js "  " = [].
Proof.
  apply (blank_after_encoding_means_empty
           (bareItem (Int 1) (js "a.jpg") (js "  "))
           (withDisplay (js "a") (bareItem (Int 1) (js "a.jpg") (js "%20%20")))).
  - apply (bool_decide_unpack _). vm_compute. exact I.
  - vm_compute. reflexivity.
Defined.

(** ** The chips of the first component *)

Lemma folderSet_elem_of (items : list MediaItem) (f : jsstring) :
  f ∈ NoCart.folderSet items ↔ f ≠ [] ∧ ∃ it, it ∈ items ∧ folder it = Some f.
Proof.
  unfold NoCart.folderSet.
  rewrite (collect_elem_of _
    (fun it => if truthy (folder it) then [default [] (folder it)] else []))
    by (intros; apply one_or_none).
  split.
  - intros [H|(it & Hit & Hf)]; [by apply elem_of_nil in H|].
    destruct (folder it) as [[|c g]|] eqn:Hfo; simpl in Hf;
      try (by apply elem_of_nil in Hf).
    apply list_elem_of_singleton in Hf as ->. split; [done|]. by exists it.
  - intros (Hne & it & Hit & Hf). right. exists it. split; [done|]. rewrite Hf.
    destruct f; [done|]. simpl. by left.
Qed.

Lemma folderSet_NoDup (items : list MediaItem) : NoDup (NoCart.folderSet items).
Proof.
  unfold NoCart.folderSet.
  apply (collect_NoDup _
    (fun it => if truthy (folder it) then [default [] (folder it)] else []));
    [intros; apply one_or_none|constructor].
Qed.

Lemma counts_lookup (count : jsstring -> nat) (l : list jsstring)
    (acc : gmap jsstring nat) (f : jsstring) :
  foldl (fun obj g => <[g := count g]> obj) acc l !! f
  = if bool_decide (f ∈ l) then Some (count f) else acc !! f.
Proof.
  revert acc. induction l as [|g l IH]; intros acc; cbn [foldl].
  - by rewrite bool_decide_eq_false_2 by apply not_elem_of_nil.
  - rewrite IH. case_bool_decide as Hl.
    + by rewrite bool_decide_eq_true_2 by (by right).
    + destruct (decide (f = g)) as [->|Hne].
      * rewrite bool_decide_eq_true_2 by (by left). by rewrite lookup_insert_eq.
      * rewrite bool_decide_eq_false_2 by (by intros [?|?]%elem_of_cons).
        by rewrite lookup_insert_ne.
Qed.

(** X23. The folder chips of the first component are, in strictly
    ascending code-unit order, the non-empty folders of the items; the
    count shown on a chip is at least one, and it is the number of items
    listed when that folder alone is selected and the query is empty. *)
Theorem folder_chips (items : list MediaItem) :
  StronglySorted (fun a b => (compareStrings a b < 0)%Z)
                 (NoCart.facetFolders (NoCart.unique items))
  ∧ ∀ f, (f ∈ NoCart.facetFolders (NoCart.unique items)
          ↔ f ≠ [] ∧ ∃ it, it ∈ items ∧ folder it = Some f)
         ∧ (f ∈ NoCart.facetFolders (NoCart.unique items) ->
            ∃ n, NoCart.countsByFolder (NoCart.unique items) !! f = Some n
                 ∧ (1 <= n)%nat
                 ∧ n = length (NoCart.filtered items [] [f] []))
         ∧ (f ∉ NoCart.facetFolders (NoCart.unique items) ->
            NoCart.countsByFolder (NoCart.unique items) !! f = None).
Proof.
  cbn [NoCart.unique NoCart.facetFolders NoCart.countsByFolder]. split.
  - apply sortBy_compareStrings_ascending, folderSet_NoDup.
  - intros f. rewrite (sortBy_Permutation compareStrings (NoCart.folderSet items)).
    rewrite counts_lookup. split; [apply folderSet_elem_of|]. split.
    + intros Hf. rewrite bool_decide_eq_true_2 by done.
      exists (NoCart.countFolder items f). split; [done|].
      apply folderSet_elem_of in Hf as (_ & it & Hit & Hfo). split.
      * unfold NoCart.countFolder. clear -Hit Hfo.
        induction items as [|x items IH]; [by apply elem_of_nil in Hit|].
        cbn [List.filter]. apply elem_of_cons in Hit as [<-|Hit].
        -- rewrite bool_decide_eq_true_2 by done. cbn [length]. lia.
        -- specialize (IH Hit). destruct (bool_decide _); cbn [length]; lia.
      * unfold NoCart.countFolder, NoCart.filtered. f_equal.
        apply filter_ext_bool. intros x. unfold NoCart.itemMatches. cbn.
        destruct (folder x) as [g|]; [|by rewrite bool_decide_eq_false_2].
        rewrite orb_false_r, andb_true_r. unfold strEq.
        apply bool_decide_ext. split; [by intros [= ->]|by intros ->].
    + intros Hf. by rewrite bool_decide_eq_false_2.
Qed.

(** ** Cleaned file names *)

Lemma collapseRuns_no_dash (b : bool) (s : jsstring) (x : N) :
  x ∈ collapseRuns b s -> x ≠ 45 ∧ x ≠ 95.
Proof.
  revert b. induction s as [|c s IH]; intros b; cbn [collapseRuns].
  - by intros ?%elem_of_nil.
  - destruct ((c =? 45) || (c =? 95)) eqn:Hc.
    + destruct b; [apply IH|]. intros [->|H]%elem_of_cons; [done|by eapply IH].
    + apply orb_false_iff in Hc as [H1%N.eqb_neq H2%N.eqb_neq].
      intros [->|H]%elem_of_cons; [done|by eapply IH].
Qed.

(** X24. A cleaned file name never holds a hyphen or an underscore, and
    has no white space at either end. *)
Theorem cleanFileName_shape (s : jsstring) :
  (45 ∉ cleanFileName s) ∧ (95 ∉ cleanFileName s)
  ∧ trim (cleanFileName s) = cleanFileName s.
Proof.
  unfold cleanFileName.
  split; [|split; [|apply trim_trim]]; intros H%trim_subset%collapseRuns_no_dash;
    tauto.
Qed.

(** ** Empty lines of a manifest *)

Lemma stripBOM_app_line (a z : jsstring) :
  stripBOM (a ++ 10 :: z) = stripBOM a ++ 10 :: z.
Proof. destruct a as [|c a]; [done|]. cbn. by destruct (c =? 65279). Qed.

Lemma stripBOM_subset (a : jsstring) (x : N) : x ∈ stripBOM a -> x ∈ a.
Proof.
  destruct a as [|c a]; [done|]. cbn. destruct (c =? 65279); [by right|done].
Qed.

Lemma replaceCRLF_no_cr_app (a b : jsstring) :
  13 ∉ a -> replaceCRLF (a ++ b) = a ++ replaceCRLF b.
Proof.
  induction a as [|c a IH]; [done|]. intros [Hc Ha]%not_elem_of_cons.
  cbn [app]. rewrite replaceCRLF_cons_ne by done. by rewrite IH.
Qed.

Lemma scanCSV_rows (n : nat) :
  ∀ text inQuotes cur row rows, (length text <= n)%nat ->
    scanCSV text inQuotes cur row rows = rows ++ scanCSV text inQuotes cur row [].
Proof.
  induction n as [|n IH]; intros text inQuotes cur row rows Hn.
  - destruct text; [|cbn in Hn; lia]. cbn [scanCSV].
    destruct (_ || _); [done|by rewrite app_nil_r].
  - destruct text as [|ch rest].
    { cbn [scanCSV]. destruct (_ || _); [done|by rewrite app_nil_r]. }
    cbn [length] in Hn. cbn [scanCSV]. destruct inQuotes.
    + destruct (ch =? 34); [|apply IH; lia].
      destruct rest as [|next rest']; [apply IH; cbn; lia|].
      cbn [length] in Hn. destruct (next =? 34); apply IH; cbn [length]; lia.
    + destruct (ch =? 34); [apply IH; lia|].
      destruct (ch =? 44); [apply IH; lia|].
      destruct (ch =? 10); [|apply IH; lia].
      rewrite (IH rest false [] [] (rows ++ _)) by lia.
      rewrite (IH rest false [] [] ([] ++ _)) by lia.
      by rewrite app_nil_l, app_assoc.
Qed.

Lemma scanCSV_plain_prefix (a : jsstring) :
  34 ∉ a -> ∀ cur row rows, ∃ cur' row' rows', ∀ rest,
    scanCSV (a ++ rest) false cur row rows = scanCSV rest false cur' row' rows'.
Proof.
  induction a as [|ch a IH]; intros Ha cur row rows.
  - by exists cur, row, rows.
  - apply not_elem_of_cons in Ha as [Hch Ha]. cbn [app scanCSV].
    rewrite (proj2 (N.eqb_neq ch 34)) by done.
    destruct (ch =? 44); [apply (IH Ha)|]. destruct (ch =? 10); apply (IH Ha).
Qed.

Lemma keepRow_blank : keepRow [[]] = false.
Proof. reflexivity. Qed.

(** X25. In a text whose part before the place has no quotation mark and
    no carriage return, an empty line changes nothing: [parseCSV] gives the
    same rows with it and without it. *)
Theorem parseCSV_skips_blank_line (a b : jsstring) :
  34 ∉ a -> 13 ∉ a ->
  parseCSV (a ++ 10 :: 10 :: b) = parseCSV (a ++ 10 :: b).
Proof.
  intros Hq Hr. unfold parseCSV. rewrite !stripBOM_app_line.
  assert (Hq' : 34 ∉ stripBOM a) by (intros H; by apply Hq, stripBOM_subset).
  assert (Hr' : 13 ∉ stripBOM a) by (intros H; by apply Hr, stripBOM_subset).
  rewrite !replaceCRLF_no_cr_app by done. rewrite !replaceCRLF_cons_ne by done.
  destruct (scanCSV_plain_prefix (stripBOM a) Hq' [] [] []) as (cur & row & rows & Hscan).
  rewrite !Hscan. cbn [scanCSV]. change (10 =? 34) with false. change (10 =? 44) with false.
  change (10 =? 10) with true. cbn match.
  rewrite (scanCSV_rows _ _ _ _ _ ((rows ++ _) ++ _) (le_n _)).
  rewrite (scanCSV_rows _ _ _ _ _ (rows ++ _) (le_n _)).
  rewrite !List.filter_app. cbn [app List.filter]. rewrite keepRow_blank.
  by rewrite app_nil_r.
Qed.

Lemma parseCSV_skips_blank_line_witness :
  parseCSV (js "id,src" ++ 10 :: 10 :: js "1,a.jpg")
  = parseCSV (js "id,src" ++ 10 :: js "1,a.jpg").
Proof.
  apply (parseCSV_skips_blank_line (js "id,src") (js "1,a.jpg"));
    apply (bool_decide_unpack _); vm_compute; exact I.
Defined.

(** X26. For a text without quotation marks and carriage returns the
    line break after the last line is optional: [parseCSV] gives the same
    rows with it and without it. *)
Theorem parseCSV_final_line_break (a : jsstring) :
  34 ∉ a -> 13 ∉ a -> parseCSV (a ++ [10]) = parseCSV a.
Proof.
  intros Hq Hr. unfold parseCSV. rewrite stripBOM_app_line.
  assert (Hq' : 34 ∉ stripBOM a) by (intros H; by apply Hq, stripBOM_subset).
  assert (Hr' : 13 ∉ stripBOM a) by (intros H; by apply Hr, stripBOM_subset).
  rewrite replaceCRLF_no_cr_app by done.
  rewrite <- (app_nil_r (stripBOM a)) at 2.
  rewrite (replaceCRLF_no_cr_app _ []) by done.
  destruct (scanCSV_plain_prefix (stripBOM a) Hq' [] [] []) as (cur & row & rows & Hscan).
  rewrite !Hscan. cbn.
  destruct cur as [|c cur]; [destruct row as [|r row]|]; cbn;
    rewrite ?List.filter_app; cbn; by rewrite ?app_nil_r.
Qed.

Lemma parseCSV_final_line_break_witness :
  parseCSV (js "id,src" ++ [10]) = parseCSV (js "id,src").
Proof.
  apply (parseCSV_final_line_break (js "id,src"));
    apply (bool_decide_unpack _); vm_compute; exact I.
Defined.
